(** * reSID: the envelope generator, the waveform generator, the external
    filter and the SID scheduler, embedded in Rocq.

    Beside these the development covers the waveform outputs, the
    frequency divider model of the envelope generator, [DAC::operator()]
    and, of the VICE sound driver, the conversion to u-law and the ring
    buffer of the SDL device.

    Registers are integers.  The header giving the register types
    (siddefs.h) is not among the sources; as everywhere in reSID, [reg4],
    [reg8], [reg12], [reg16] and [reg24] are read as [unsigned int] of 32
    bits and [cycle_count] as [int].  A register is therefore a [Z]; the
    32-bit wrap-around is written out where a value can reach it
    ([u32]), and the masks of the source ([& 0x7fff], [& 0xffffff], ...)
    are kept as [Z.land]. *)

From Stdlib Require Import ZArith List Bool Lia Znumtheory.
Import ListNotations.
Local Open Scope Z_scope.

(** Unsigned 32-bit wrap-around. *)
Definition u32 (x : Z) : Z := x mod 2 ^ 32.

(** Conversion of an [int] to [short]: the low 16 bits, two's complement. *)
Definition to_short (x : Z) : Z := (x + 32768) mod 65536 - 32768.

(** Saturation to the signed 16-bit range. *)
Definition clamp16 (x : Z) : Z := Z.max (-32768) (Z.min 32767 x).

(** Reading a static table at an index. *)
Definition tbl (t : list Z) (i : Z) : Z := nth (Z.to_nat i) t 0.

(** Iterating a state transformer. *)
Fixpoint repeat_fn {A : Type} (f : A -> A) (n : nat) (x : A) : A :=
  match n with
  | O => x
  | S n' => repeat_fn f n' (f x)
  end.

(* ------------------------------------------------------------------ *)
(** ** EnvelopeGenerator (rate counter model) *)

Module EnvelopeGenerator.

Inductive State : Type := ATTACK | DECAY_SUSTAIN | RELEASE.

Definition State_eqb (a b : State) : bool :=
  match a, b with
  | ATTACK, ATTACK | DECAY_SUSTAIN, DECAY_SUSTAIN | RELEASE, RELEASE => true
  | _, _ => false
  end.

Record t : Type := mk {
  rate_counter : Z;
  exponential_counter : Z;
  envelope_counter : Z;
  attack : Z;
  decay : Z;
  sustain : Z;
  release : Z;
  gate : bool;
  state : State
}.

Definition set_rate_counter (v : Z) (e : t) : t :=
  mk v (exponential_counter e) (envelope_counter e) (attack e) (decay e)
     (sustain e) (release e) (gate e) (state e).

Definition set_exponential_counter (v : Z) (e : t) : t :=
  mk (rate_counter e) v (envelope_counter e) (attack e) (decay e)
     (sustain e) (release e) (gate e) (state e).

Definition set_envelope_counter (v : Z) (e : t) : t :=
  mk (rate_counter e) (exponential_counter e) v (attack e) (decay e)
     (sustain e) (release e) (gate e) (state e).

Definition set_state (v : State) (e : t) : t :=
  mk (rate_counter e) (exponential_counter e) (envelope_counter e) (attack e)
     (decay e) (sustain e) (release e) (gate e) v.

(** [EnvelopeGenerator::reset]. *)
Definition reset (e : t) : t :=
  mk 0 0 0 0 0 0 0 false RELEASE.

Definition rate_counter_period : list Z :=
  [9; 32; 63; 95; 149; 220; 267; 313; 392; 977; 1954; 3126; 3906; 11720;
   19532; 31252].

Definition exponential_counter_level : list Z :=
  [0x5d; 0x36; 0x1a; 0x0e; 0x06; 0x00].

Definition exponential_counter_segment : list Z :=
  [5; 5; 5; 5; 5; 5; 5; 4; 4; 4; 4; 4; 4; 4; 4; 3;
   3; 3; 3; 3; 3; 3; 3; 3; 3; 3; 3; 2; 2; 2; 2; 2;
   2; 2; 2; 2; 2; 2; 2; 2; 2; 2; 2; 2; 2; 2; 2; 2;
   2; 2; 2; 2; 2; 2; 2; 1; 1; 1; 1; 1; 1; 1; 1; 1;
   1; 1; 1; 1; 1; 1; 1; 1; 1; 1; 1; 1; 1; 1; 1; 1;
   1; 1; 1; 1; 1; 1; 1; 1; 1; 1; 1; 1; 1; 1; 0; 0;
   0; 0; 0; 0; 0; 0; 0; 0; 0; 0; 0; 0; 0; 0; 0; 0;
   0; 0; 0; 0; 0; 0; 0; 0; 0; 0; 0; 0; 0; 0; 0; 0;
   0; 0; 0; 0; 0; 0; 0; 0; 0; 0; 0; 0; 0; 0; 0; 0;
   0; 0; 0; 0; 0; 0; 0; 0; 0; 0; 0; 0; 0; 0; 0; 0;
   0; 0; 0; 0; 0; 0; 0; 0; 0; 0; 0; 0; 0; 0; 0; 0;
   0; 0; 0; 0; 0; 0; 0; 0; 0; 0; 0; 0; 0; 0; 0; 0;
   0; 0; 0; 0; 0; 0; 0; 0; 0; 0; 0; 0; 0; 0; 0; 0;
   0; 0; 0; 0; 0; 0; 0; 0; 0; 0; 0; 0; 0; 0; 0; 0;
   0; 0; 0; 0; 0; 0; 0; 0; 0; 0; 0; 0; 0; 0; 0; 0;
   0; 0; 0; 0; 0; 0; 0; 0; 0; 0; 0; 0; 0; 0; 0; 0].

Definition exponential_counter_period : list Z := [1; 2; 4; 8; 16; 30].

Definition sustain_level : list Z :=
  [0x00; 0x11; 0x22; 0x33; 0x44; 0x55; 0x66; 0x77; 0x88; 0x99; 0xaa; 0xbb;
   0xcc; 0xdd; 0xee; 0xff].

(** [EnvelopeGenerator::writeCONTROL_REG]. *)
Definition writeCONTROL_REG (control : Z) (e : t) : t :=
  let gate_next := negb (Z.land control 0x01 =? 0) in
  let e1 :=
    if negb (gate e) && gate_next then
      set_exponential_counter 0 (set_state ATTACK e)
    else if gate e && negb gate_next then
      set_exponential_counter 0 (set_state RELEASE e)
    else e in
  mk (rate_counter e1) (exponential_counter e1) (envelope_counter e1)
     (attack e1) (decay e1) (sustain e1) (release e1) gate_next (state e1).

(** [EnvelopeGenerator::writeATTACK_DECAY]. *)
Definition writeATTACK_DECAY (attack_decay : Z) (e : t) : t :=
  mk (rate_counter e) (exponential_counter e) (envelope_counter e)
     (Z.land (Z.shiftr attack_decay 4) 0x0f) (Z.land attack_decay 0x0f)
     (sustain e) (release e) (gate e) (state e).

(** [EnvelopeGenerator::writeSUSTAIN_RELEASE]. *)
Definition writeSUSTAIN_RELEASE (sustain_release : Z) (e : t) : t :=
  mk (rate_counter e) (exponential_counter e) (envelope_counter e)
     (attack e) (decay e)
     (Z.land (Z.shiftr sustain_release 4) 0x0f) (Z.land sustain_release 0x0f)
     (gate e) (state e).

(** The [while (delta_t)] loop of [step_envelope].  The loop variables are
    [rate_step], [delta_envelope], [delta_t] and the two counters held in
    the generator; the result is the returned [delta_envelope], the
    remaining [delta_t] (passed by reference in the source) and the
    generator.  [fuel] bounds the number of iterations. *)
Fixpoint step_envelope_loop (fuel : nat)
  (rate_period exponential_period delta_envelope_max : Z)
  (rate_step delta_envelope delta_t : Z) (e : t) : Z * Z * t :=
  match fuel with
  | O => (delta_envelope, delta_t, e)
  | S fuel' =>
    if delta_t =? 0 then (delta_envelope, delta_t, e)
    else if delta_t <? rate_step then
      (delta_envelope, 0,
       set_rate_counter (Z.land (rate_counter e + delta_t) 0x7fff) e)
    else
      let e1 := set_rate_counter 0 e in
      let delta_t1 := delta_t - rate_step in
      let exponential_counter1 := exponential_counter e1 + 1 in
      if exponential_counter1 =? exponential_period then
        let e2 := set_exponential_counter 0 e1 in
        if negb (delta_envelope_max =? 0) then
          let delta_envelope1 := delta_envelope + 1 in
          if delta_envelope1 =? delta_envelope_max then
            (delta_envelope1, delta_t1, e2)
          else
            step_envelope_loop fuel' rate_period exponential_period
              delta_envelope_max rate_period delta_envelope1 delta_t1 e2
        else
          step_envelope_loop fuel' rate_period exponential_period
            delta_envelope_max rate_period delta_envelope delta_t1 e2
      else
        step_envelope_loop fuel' rate_period exponential_period
          delta_envelope_max rate_period delta_envelope delta_t1
          (set_exponential_counter exponential_counter1 e1)
  end.

(** Every iteration but the last takes at least one cycle off [delta_t],
    so [delta_t] iterations and one more are enough. *)
Definition loop_fuel (delta_t : Z) : nat := S (Z.to_nat delta_t).

(** [EnvelopeGenerator::step_envelope]. *)
Definition step_envelope
  (delta_envelope_max rate_period_index exponential_period_index : Z)
  (delta_t : Z) (e : t) : Z * Z * t :=
  let rate_period := tbl rate_counter_period rate_period_index in
  let exponential_period :=
    tbl exponential_counter_period exponential_period_index in
  let rate_step :=
    if rate_counter e <? rate_period then rate_period - rate_counter e
    else 0x8000 + rate_period - rate_counter e in
  step_envelope_loop (loop_fuel delta_t) rate_period exponential_period
    delta_envelope_max rate_step 0 delta_t e.

(** The [while (delta_t)] loop of the decay/sustain state. *)
Fixpoint decay_sustain_loop (fuel : nat) (delta_t : Z) (e : t) : t :=
  match fuel with
  | O => e
  | S fuel' =>
    if delta_t =? 0 then e
    else
      let segment := tbl exponential_counter_segment (envelope_counter e) in
      let min_level0 := tbl exponential_counter_level segment in
      let min_level :=
        if min_level0 <? tbl sustain_level (sustain e)
        then tbl sustain_level (sustain e) else min_level0 in
      let delta_envelope_max0 := envelope_counter e - min_level in
      let delta_envelope_max :=
        if delta_envelope_max0 <? 0 then envelope_counter e
        else delta_envelope_max0 in
      let '(delta_envelope, delta_t1, e1) :=
        step_envelope delta_envelope_max (decay e) segment delta_t e in
      decay_sustain_loop fuel' delta_t1
        (set_envelope_counter (envelope_counter e1 - delta_envelope) e1)
  end.

(** The [while (delta_t)] loop of the release state. *)
Fixpoint release_loop (fuel : nat) (delta_t : Z) (e : t) : t :=
  match fuel with
  | O => e
  | S fuel' =>
    if delta_t =? 0 then e
    else
      let segment := tbl exponential_counter_segment (envelope_counter e) in
      let min_level := tbl exponential_counter_level segment in
      let delta_envelope_max := envelope_counter e - min_level in
      let '(delta_envelope, delta_t1, e1) :=
        step_envelope delta_envelope_max (release e) segment delta_t e in
      release_loop fuel' delta_t1
        (set_envelope_counter (envelope_counter e1 - delta_envelope) e1)
  end.

(** The part of [clock] after the attack branch. *)
Definition clock_tail (delta_t : Z) (e : t) : t :=
  if State_eqb (state e) DECAY_SUSTAIN
  then decay_sustain_loop (loop_fuel delta_t) delta_t e
  else release_loop (loop_fuel delta_t) delta_t e.

(** [EnvelopeGenerator::clock]. *)
Definition clock (delta_t : Z) (e : t) : t :=
  if State_eqb (state e) ATTACK then
    let '(delta_envelope, delta_t1, e1) :=
      step_envelope (0xff - envelope_counter e) (attack e) 0 delta_t e in
    let e2 := set_envelope_counter (envelope_counter e1 + delta_envelope) e1 in
    if negb (envelope_counter e2 =? 0xff) then e2
    else clock_tail delta_t1 (set_state DECAY_SUSTAIN e2)
  else clock_tail delta_t e.

(** [EnvelopeGenerator::output]. *)
Definition output (e : t) : Z := envelope_counter e.

End EnvelopeGenerator.

(* ------------------------------------------------------------------ *)
(** ** WaveformGenerator *)

Module WaveformGenerator.

(** The generator's own state.  [sync_source] and [sync_dest] are pointers
    to the neighbours in the ring of three; what is read through them
    ([msb_rising] of the source, [sync] and [ring_mod] of the destination)
    is passed as an argument by the SID scheduler below. *)
Record t : Type := mk {
  msb_rising : bool;
  accumulator : Z;
  shift_register : Z;
  freq : Z;
  pw : Z;
  waveform : Z;
  test : bool;
  ring_mod : bool;
  sync : bool
}.

(** [WaveformGenerator::writeFREQ_LO]. *)
Definition writeFREQ_LO (freq_lo : Z) (w : t) : t :=
  mk (msb_rising w) (accumulator w) (shift_register w)
     (Z.lor (Z.land (freq w) 0xff00) (Z.land freq_lo 0x00ff))
     (pw w) (waveform w) (test w) (ring_mod w) (sync w).

(** [WaveformGenerator::writeFREQ_HI]. *)
Definition writeFREQ_HI (freq_hi : Z) (w : t) : t :=
  mk (msb_rising w) (accumulator w) (shift_register w)
     (Z.lor (Z.land (Z.shiftl freq_hi 8) 0xff00) (Z.land (freq w) 0x00ff))
     (pw w) (waveform w) (test w) (ring_mod w) (sync w).

(** [WaveformGenerator::writePW_LO]. *)
Definition writePW_LO (pw_lo : Z) (w : t) : t :=
  mk (msb_rising w) (accumulator w) (shift_register w) (freq w)
     (Z.lor (Z.land (pw w) 0xf00) (Z.land pw_lo 0x0ff))
     (waveform w) (test w) (ring_mod w) (sync w).

(** [WaveformGenerator::writePW_HI]. *)
Definition writePW_HI (pw_hi : Z) (w : t) : t :=
  mk (msb_rising w) (accumulator w) (shift_register w) (freq w)
     (Z.lor (Z.land (Z.shiftl pw_hi 8) 0xf00) (Z.land (pw w) 0x0ff))
     (waveform w) (test w) (ring_mod w) (sync w).

(** [WaveformGenerator::writeCONTROL_REG]. *)
Definition writeCONTROL_REG (control : Z) (w : t) : t :=
  let test_next := negb (Z.land control 0x08 =? 0) in
  let accumulator1 := if test_next then 0 else accumulator w in
  let shift_register1 :=
    if test_next then 0
    else if test w then 0x7ffff8
    else shift_register w in
  mk (msb_rising w) accumulator1 shift_register1 (freq w) (pw w)
     (Z.land (Z.shiftr control 4) 0x0f)
     test_next
     (negb (Z.land control 0x04 =? 0))
     (negb (Z.land control 0x02 =? 0)).

(** [WaveformGenerator::reset]; [waveform] is not assigned. *)
Definition reset (w : t) : t :=
  mk false 0 0x7ffff8 0 0 (waveform w) false false false.

(** One shift of the noise register: the body of the [for] loop of
    [clock]. *)
Definition shift_once (shift_register : Z) : Z :=
  let bit0 :=
    Z.land (Z.lxor (Z.shiftr shift_register 22) (Z.shiftr shift_register 17))
           0x1 in
  Z.lor (Z.land (u32 (Z.shiftl shift_register 1)) 0x7fffff) bit0.

(** The number of shifts [clock] makes. *)
Definition clock_shifts (delta_t : Z) (w : t) : Z :=
  let delta_accumulator := u32 (delta_t * freq w) in
  let accumulator_next := u32 (accumulator w + delta_accumulator) in
  let shift_period := 0x100000 in
  let shifts := delta_accumulator / shift_period in
  let accumulator_prev := u32 (accumulator w + shift_period * shifts) in
  if (Z.land accumulator_prev 0x080000 =? 0)
     && negb (Z.land accumulator_next 0x080000 =? 0)
  then shifts + 1 else shifts.

(** [WaveformGenerator::clock]. *)
Definition clock (delta_t : Z) (w : t) : t :=
  if test w then w
  else
    let delta_accumulator := u32 (delta_t * freq w) in
    let accumulator_next := u32 (accumulator w + delta_accumulator) in
    let shifts := clock_shifts delta_t w in
    mk ((Z.land (accumulator w) 0x800000 =? 0)
        && negb (Z.land accumulator_next 0x800000 =? 0))
       (Z.land accumulator_next 0xffffff)
       (repeat_fn shift_once (Z.to_nat shifts) (shift_register w))
       (freq w) (pw w) (waveform w) (test w) (ring_mod w) (sync w).

(** [WaveformGenerator::synchronize]; the argument is
    [sync_source->msb_rising]. *)
Definition synchronize (source_msb_rising : bool) (w : t) : t :=
  if sync w && source_msb_rising then
    mk (msb_rising w) 0 (shift_register w) (freq w) (pw w) (waveform w)
       (test w) (ring_mod w) (sync w)
  else w.

End WaveformGenerator.

(* ------------------------------------------------------------------ *)
(** ** ExternalFilter *)

Module ExternalFilter.

(** [ExternalFilterCoefficients]. *)
Record Coefficients : Type := mkCoefficients {
  shiftlp : Z;
  shifthp : Z;
  mullp : Z;
  mulhp : Z
}.

(** The constructor of [ExternalFilterCoefficients] is evaluated by the
    compiler, in double precision, at
    [w0lp = 1/(10e3*1e-9)], [w0hp = 1/(1e3*10e-6)] and [T = 1/1e6]:
    [shiftlp = (int)log2(15/(1 - exp(-0.1))) = (int)7.30],
    [shifthp = (int)log2(15/(1 - exp(-0.0001))) = (int)17.19],
    [mullp = (int)(0.0951626*128 + 0.5) = (int)12.68],
    [mulhp = (int)(0.000099995*131072 + 0.5) = (int)13.61]. *)
Definition t1 : Coefficients := mkCoefficients 7 17 12 13.

(** The same at [MAX_CYCLES*T]:
    [shiftlp = (int)log2(15/(1 - exp(-1))) = (int)4.57],
    [shifthp = (int)log2(15/(1 - exp(-0.001))) = (int)13.87],
    [mullp = (int)(0.632121*16 + 0.5) = (int)10.61],
    [mulhp = (int)(0.0009995*8192 + 0.5) = (int)8.69]. *)
Definition tmax : Coefficients := mkCoefficients 4 13 10 8.

Definition MAX_CYCLES : Z := 10.

Record t : Type := mk {
  enabled : bool;
  vlp : Z;
  vhp : Z
}.

(** The two assignments that update the filter state, with the
    coefficients [c]; [vhp] is updated first, from the old [vlp]. *)
Definition step (c : Coefficients) (vi : Z) (f : t) : t :=
  let vhp1 := vhp f + Z.shiftr (mulhp c * (vlp f - vhp f)) (shifthp c) in
  let vlp1 :=
    vlp f + Z.shiftr (mullp c * (Z.shiftl vi 11 - vlp f)) (shiftlp c) in
  mk (enabled f) vlp1 vhp1.

(** [ExternalFilter::clock(short vi)]. *)
Definition clock1 (vi : Z) (f : t) : t :=
  if negb (enabled f) then mk (enabled f) (Z.shiftl vi 11) 0
  else step t1 vi f.

(** The [while (delta_t)] loop of [clock(cycle_count delta_t, short vi)]:
    whole steps of [MAX_CYCLES] cycles, then single cycles. *)
Fixpoint clock_loop (fuel : nat) (delta_t : Z) (vi : Z) (f : t) : t :=
  match fuel with
  | O => f
  | S fuel' =>
    if delta_t =? 0 then f
    else if delta_t <? MAX_CYCLES then
      repeat_fn (clock1 vi) (Z.to_nat delta_t) f
    else clock_loop fuel' (delta_t - MAX_CYCLES) vi (step tmax vi f)
  end.

(** [ExternalFilter::clock(cycle_count delta_t, short vi)]. *)
Definition clock (delta_t : Z) (vi : Z) (f : t) : t :=
  if negb (enabled f) then mk (enabled f) (Z.shiftl vi 11) 0
  else clock_loop (S (Z.to_nat delta_t)) delta_t vi f.

(** [ExternalFilter::output]: the [int] is returned as a [short]. *)
Definition output (f : t) : Z := to_short (Z.shiftr (vlp f - vhp f) 11).

(** Modelled from the spec: [ExternalFilter::reset] and
    [ExternalFilter::enable_filter] are defined in extfilt.cc, which is not
    among the sources.  "After any reset(), all accumulators, envelopes,
    and filter states are zero"; [enable_filter] is the test/debug toggle
    that sets [enabled]. *)
Definition reset (f : t) : t := mk (enabled f) 0 0.

Definition enable_filter (enable : bool) (f : t) : t :=
  mk enable (vlp f) (vhp f).

End ExternalFilter.

(* ------------------------------------------------------------------ *)
(** ** Voice and Filter *)

Module Voice.

(** Modelled from the spec: voice.h and voice.cc are not among the sources.
    "Voice: owns one WaveformGenerator and one EnvelopeGenerator"; the
    scheduler reaches them as [voice[i]->wave] and [voice[i]->envelope].
    [reset] resets both, and a write to CONTROL goes to both ("gate is
    routed to the EnvelopeGenerator"). *)
Record t : Type := mk {
  wave : WaveformGenerator.t;
  envelope : EnvelopeGenerator.t
}.

Definition reset (v : t) : t :=
  mk (WaveformGenerator.reset (wave v)) (EnvelopeGenerator.reset (envelope v)).

Definition writeCONTROL_REG (control : Z) (v : t) : t :=
  mk (WaveformGenerator.writeCONTROL_REG control (wave v))
     (EnvelopeGenerator.writeCONTROL_REG control (envelope v)).

Definition set_wave (w : WaveformGenerator.t) (v : t) : t :=
  mk w (envelope v).

Definition set_envelope (e : EnvelopeGenerator.t) (v : t) : t :=
  mk (wave v) e.

End Voice.

Module Filter.

(** Modelled from the spec: filter.h and filter.cc are not among the
    sources.  "Filter state: integer state variables Vhp, Vbp, Vlp"; the
    scheduler reads [filter.bypass].  "After any reset(), all accumulators,
    envelopes, and filter states are zero".  The filter's registers are
    read by no statement below and are left out. *)
Record t : Type := mk {
  bypass : bool;
  Vhp : Z;
  Vbp : Z;
  Vlp : Z
}.

Definition reset (f : t) : t := mk (bypass f) 0 0 0.

End Filter.

(* ------------------------------------------------------------------ *)
(** ** SID *)

Module SID.

(** The three voices form a ring: the sync source of voice 1 is voice 3,
    of voice 2 voice 1, of voice 3 voice 2 (the constructor's
    [voice1(&voice3), voice2(&voice1), voice3(&voice2)]); the sync
    destination of voice 1 is therefore voice 2, of voice 2 voice 3, of
    voice 3 voice 1. *)
Record t : Type := mk {
  voice1 : Voice.t;
  voice2 : Voice.t;
  voice3 : Voice.t;
  filter : Filter.t
}.

(** [SID::reset]. *)
Definition reset (s : t) : t :=
  mk (Voice.reset (voice1 s)) (Voice.reset (voice2 s))
     (Voice.reset (voice3 s)) (Filter.reset (filter s)).

(** The body of the [for] loop that finds the number of cycles to the
    next toggle of an accumulator MSB: [wave] is [voice[i]->wave], [dest]
    its [sync_dest]. *)
Definition next_msb_toggle (wave dest : WaveformGenerator.t)
  (delta_t_min : Z) : Z :=
  if negb (negb (WaveformGenerator.freq wave =? 0)
           && (WaveformGenerator.sync dest || WaveformGenerator.ring_mod dest))
  then delta_t_min
  else
    let freq := WaveformGenerator.freq wave in
    let accumulator := WaveformGenerator.accumulator wave in
    let delta_accumulator :=
      u32 ((if negb (Z.land accumulator 0x800000 =? 0)
            then 0x1000000 else 0x800000) - accumulator) in
    let delta_t_next0 := delta_accumulator / freq in
    let delta_t_next :=
      if negb (delta_accumulator mod freq =? 0)
      then delta_t_next0 + 1 else delta_t_next0 in
    if delta_t_next <? delta_t_min then delta_t_next else delta_t_min.

(** The number of cycles the oscillators are clocked at once. *)
Definition osc_delta_t_min (w1 w2 w3 : WaveformGenerator.t)
  (delta_t_osc : Z) : Z :=
  next_msb_toggle w3 w1 (next_msb_toggle w2 w3
    (next_msb_toggle w1 w2 delta_t_osc)).

(** The [while (delta_t_osc > 0)] loop: clock the three oscillators to
    the next MSB toggle, then synchronize them. *)
Fixpoint osc_loop (fuel : nat) (delta_t_osc : Z)
  (w : WaveformGenerator.t * WaveformGenerator.t * WaveformGenerator.t)
  : WaveformGenerator.t * WaveformGenerator.t * WaveformGenerator.t :=
  match fuel with
  | O => w
  | S fuel' =>
    if delta_t_osc >? 0 then
      let '(w1, w2, w3) := w in
      let delta_t_min := osc_delta_t_min w1 w2 w3 delta_t_osc in
      let c1 := WaveformGenerator.clock delta_t_min w1 in
      let c2 := WaveformGenerator.clock delta_t_min w2 in
      let c3 := WaveformGenerator.clock delta_t_min w3 in
      let s1 :=
        WaveformGenerator.synchronize (WaveformGenerator.msb_rising c3) c1 in
      let s2 :=
        WaveformGenerator.synchronize (WaveformGenerator.msb_rising c1) c2 in
      let s3 :=
        WaveformGenerator.synchronize (WaveformGenerator.msb_rising c2) c3 in
      osc_loop fuel' (delta_t_osc - delta_t_min) (s1, s2, s3)
    else w
  end.

(** What [SID::clock] does to one envelope generator: the generator is
    clocked once per window, whatever the oscillators and the filter do. *)
Fixpoint envelope_loop (fuel : nat) (delta_t delta_t_flt : Z)
  (e : EnvelopeGenerator.t) : EnvelopeGenerator.t :=
  match fuel with
  | O => e
  | S fuel' =>
    if delta_t >? 0 then
      let delta_t_flt1 :=
        if delta_t <? delta_t_flt then delta_t else delta_t_flt in
      envelope_loop fuel' (delta_t - delta_t_flt1) delta_t_flt1
        (EnvelopeGenerator.clock delta_t_flt1 e)
    else e
  end.

Definition envelope_clock (bypass : bool) (delta_t : Z)
  (e : EnvelopeGenerator.t) : EnvelopeGenerator.t :=
  if delta_t =? 0 then e
  else envelope_loop (S (Z.to_nat delta_t)) delta_t
         (if bypass then delta_t else 8) e.

(** What [SID::clock] does to the three oscillators: one run of
    [osc_loop] per window. *)
Fixpoint waves_loop (fuel : nat) (delta_t delta_t_flt : Z)
  (w : WaveformGenerator.t * WaveformGenerator.t * WaveformGenerator.t)
  : WaveformGenerator.t * WaveformGenerator.t * WaveformGenerator.t :=
  match fuel with
  | O => w
  | S fuel' =>
    if delta_t >? 0 then
      let delta_t_flt1 :=
        if delta_t <? delta_t_flt then delta_t else delta_t_flt in
      waves_loop fuel' (delta_t - delta_t_flt1) delta_t_flt1
        (osc_loop (S (Z.to_nat delta_t_flt1)) delta_t_flt1 w)
    else w
  end.

Definition waves_clock (bypass : bool) (delta_t : Z)
  (w : WaveformGenerator.t * WaveformGenerator.t * WaveformGenerator.t)
  : WaveformGenerator.t * WaveformGenerator.t * WaveformGenerator.t :=
  if delta_t =? 0 then w
  else waves_loop (S (Z.to_nat delta_t)) delta_t
         (if bypass then delta_t else 8) w.

(** The three oscillators and the three envelope generators of a SID. *)
Definition waves (s : t)
  : WaveformGenerator.t * WaveformGenerator.t * WaveformGenerator.t :=
  (Voice.wave (voice1 s), Voice.wave (voice2 s), Voice.wave (voice3 s)).

Definition envelopes (s : t)
  : EnvelopeGenerator.t * EnvelopeGenerator.t * EnvelopeGenerator.t :=
  (Voice.envelope (voice1 s), Voice.envelope (voice2 s),
   Voice.envelope (voice3 s)).

Section Scheduler.

(** [Filter::clock(delta_t, voice1, voice2, voice3)], [Filter::output()]
    and [Voice::output()] are declared in headers that are not among the
    sources; the scheduler is stated for any of them.  The first argument
    of [Voice_output] is the wave of the voice's sync source, which the
    ring-modulated triangle reads. *)
Variable Filter_clock : Z -> Z -> Z -> Z -> Filter.t -> Filter.t.
Variable Filter_output : Filter.t -> Z.
Variable Voice_output : WaveformGenerator.t -> Voice.t -> Z.

(** One turn of the [while (delta_t > 0)] loop of [SID::clock], for the
    window [delta_t_flt]. *)
Definition clock_window (delta_t_flt : Z) (s : t) : t :=
  let e1 := EnvelopeGenerator.clock delta_t_flt (Voice.envelope (voice1 s)) in
  let e2 := EnvelopeGenerator.clock delta_t_flt (Voice.envelope (voice2 s)) in
  let e3 := EnvelopeGenerator.clock delta_t_flt (Voice.envelope (voice3 s)) in
  let '(w1, w2, w3) :=
    osc_loop (S (Z.to_nat delta_t_flt)) delta_t_flt
      (Voice.wave (voice1 s), Voice.wave (voice2 s), Voice.wave (voice3 s)) in
  let v1 := Voice.mk w1 e1 in
  let v2 := Voice.mk w2 e2 in
  let v3 := Voice.mk w3 e3 in
  mk v1 v2 v3
     (Filter_clock delta_t_flt (Voice_output w3 v1) (Voice_output w1 v2)
        (Voice_output w2 v3) (filter s)).

(** The [while (delta_t > 0)] loop of [SID::clock]. *)
Fixpoint clock_loop (fuel : nat) (delta_t delta_t_flt : Z) (s : t) : t :=
  match fuel with
  | O => s
  | S fuel' =>
    if delta_t >? 0 then
      let delta_t_flt1 :=
        if delta_t <? delta_t_flt then delta_t else delta_t_flt in
      clock_loop fuel' (delta_t - delta_t_flt1) delta_t_flt1
        (clock_window delta_t_flt1 s)
    else s
  end.

(** [SID::clock]. *)
Definition clock (delta_t : Z) (s : t) : t :=
  if delta_t =? 0 then s
  else
    let delta_t_flt := if Filter.bypass (filter s) then delta_t else 8 in
    clock_loop (S (Z.to_nat delta_t)) delta_t delta_t_flt s.

(** [SID::output()]; the division of [int]s truncates towards zero. *)
Definition output (s : t) : Z :=
  Z.quot (- Filter_output (filter s))
         (Z.quot (4095 * 255 * 3 * 15 * 2) 65536).

(** [SID::output(int bits)]. *)
Definition output_bits (bits : Z) (s : t) : Z :=
  Z.quot (- Filter_output (filter s))
         (Z.quot (4095 * 255 * 3 * 15 * 2) (Z.shiftl 2 bits)).

End Scheduler.

End SID.

(* ------------------------------------------------------------------ *)
(** ** Histories: the calls a host can make on each component *)

Module EnvelopeOps.
Import EnvelopeGenerator.

(** The states an envelope generator takes: after a reset, any sequence
    of register writes and of [clock(delta_t)] with [delta_t >= 0]. *)
Inductive reachable : t -> Prop :=
| reach_reset : forall e, reachable (reset e)
| reach_CONTROL_REG : forall v e,
    reachable e -> reachable (writeCONTROL_REG v e)
| reach_ATTACK_DECAY : forall v e,
    reachable e -> reachable (writeATTACK_DECAY v e)
| reach_SUSTAIN_RELEASE : forall v e,
    reachable e -> reachable (writeSUSTAIN_RELEASE v e)
| reach_clock : forall delta_t e,
    0 <= delta_t -> reachable e -> reachable (clock delta_t e).

(** The ranges of the registers. *)
Record wf (e : t) : Prop := mk_wf {
  wf_rate_counter : 0 <= rate_counter e <= 0x7fff;
  wf_exponential_counter : 0 <= exponential_counter e;
  wf_envelope_counter : 0 <= envelope_counter e <= 0xff;
  wf_attack : 0 <= attack e <= 15;
  wf_decay : 0 <= decay e <= 15;
  wf_sustain : 0 <= sustain e <= 15;
  wf_release : 0 <= release e <= 15
}.

(** Fields that [step_envelope] leaves alone. *)
Definition same_registers (e e' : t) : Prop :=
  envelope_counter e' = envelope_counter e /\
  attack e' = attack e /\ decay e' = decay e /\
  sustain e' = sustain e /\ release e' = release e /\
  gate e' = gate e /\ state e' = state e.

(** The ranges of the two counters of [step_envelope]. *)
Definition counters_ok (e : t) : Prop :=
  0 <= rate_counter e <= 0x7fff /\ 0 <= exponential_counter e.

(** The number of cycles to the next match of the rate counter. *)
Definition rate_step (P rc : Z) : Z :=
  if rc <? P then P - rc else 0x8000 + P - rc.

(** Both loops have one shape: find the bound, the rate index and the
    segment from the generator, step, subtract. *)
Fixpoint down_loop (params : t -> Z * Z * Z) (fuel : nat) (delta_t : Z)
  (e : t) : t :=
  match fuel with
  | O => e
  | S fuel' =>
    if delta_t =? 0 then e
    else
      let '(delta_envelope_max, ri, xi) := params e in
      let '(delta_envelope, delta_t1, e1) :=
        step_envelope delta_envelope_max ri xi delta_t e in
      down_loop params fuel' delta_t1
        (set_envelope_counter (envelope_counter e1 - delta_envelope) e1)
  end.

Definition decay_sustain_params (e : t) : Z * Z * Z :=
  let segment := tbl exponential_counter_segment (envelope_counter e) in
  let min_level0 := tbl exponential_counter_level segment in
  let min_level :=
    if min_level0 <? tbl sustain_level (sustain e)
    then tbl sustain_level (sustain e) else min_level0 in
  let delta_envelope_max0 := envelope_counter e - min_level in
  (if delta_envelope_max0 <? 0 then envelope_counter e
   else delta_envelope_max0, decay e, segment).

Definition release_params (e : t) : Z * Z * Z :=
  let segment := tbl exponential_counter_segment (envelope_counter e) in
  (envelope_counter e - tbl exponential_counter_level segment,
   release e, segment).

(** What the proof of additivity needs of [params], on the states [Q]. *)
Record steady_params (params : t -> Z * Z * Z) (Q : t -> Prop) : Prop := {
  sp_wf : forall e, Q e -> wf e;
  sp_counters : forall e e',
    Q e -> counters_ok e' -> same_registers e e' -> Q e' /\ params e' = params e;
  sp_range : forall e, Q e ->
    0 <= fst (fst (params e)) <= envelope_counter e /\
    0 <= snd (fst (params e)) <= 15;
  sp_down : forall e de, Q e -> 0 <= de <= fst (fst (params e)) ->
    Q (set_envelope_counter (envelope_counter e - de) e);
  sp_step : forall e, Q e -> 1 < fst (fst (params e)) ->
    params (set_envelope_counter (envelope_counter e - 1) e) =
    (fst (fst (params e)) - 1, snd (fst (params e)), snd (params e))
}.


(** The loop with the fuel [clock] gives it. *)
Definition down_run (params : t -> Z * Z * Z) (dt : Z) (e : t) : t :=
  down_loop params (loop_fuel dt) dt e.

(** In DECAY_SUSTAIN at or above the sustain level. *)
Definition above_sustain (e : t) : Prop :=
  wf e /\ tbl sustain_level (sustain e) <= envelope_counter e.

(** The states in which [clock] acts cycle by cycle: not in ATTACK with
    the counter already at 0xFF, not in DECAY_SUSTAIN below the sustain
    level. *)
Definition settled (e : t) : Prop :=
  wf e /\
  (state e = ATTACK -> envelope_counter e < 0xff) /\
  (state e = DECAY_SUSTAIN ->
   tbl sustain_level (sustain e) <= envelope_counter e).

(** The generator as the constructor leaves it. *)
Definition power_on : t := reset (mk 0 0 0 0 0 0 0 false RELEASE).

(** Scenario S2 up to the second write: reset, ATTACK_DECAY = 0x00, gate
    on, 8 cycles, ATTACK_DECAY = 0xF0. *)
Definition S2_after_second_write : t :=
  writeATTACK_DECAY 0xF0
    (clock 8 (writeCONTROL_REG 0x01 (writeATTACK_DECAY 0x00 power_on))).

End EnvelopeOps.

Module WaveformOps.
Import WaveformGenerator.

(** A call on a waveform generator. *)
Inductive op : Type :=
| Clock (delta_t : Z)
| Synchronize (source_msb_rising : bool)
| WriteFREQ_LO (v : Z)
| WriteFREQ_HI (v : Z)
| WritePW_LO (v : Z)
| WritePW_HI (v : Z)
| WriteCONTROL_REG (v : Z).

Definition apply (o : op) (w : t) : t :=
  match o with
  | Clock delta_t => clock delta_t w
  | Synchronize b => synchronize b w
  | WriteFREQ_LO v => writeFREQ_LO v w
  | WriteFREQ_HI v => writeFREQ_HI v w
  | WritePW_LO v => writePW_LO v w
  | WritePW_HI v => writePW_HI v w
  | WriteCONTROL_REG v => writeCONTROL_REG v w
  end.

(** Running a history, first call first. *)
Definition run (os : list op) (w : t) : t :=
  fold_left (fun w o => apply o w) os w.

(** The test bit of the value written by a call, if it writes CONTROL. *)
Definition writes_test (b : bool) (o : op) : Prop :=
  match o with
  | WriteCONTROL_REG v => negb (Z.land v 0x08 =? 0) = b
  | _ => True
  end.

(** Normal operation: the test bit is clear and the noise register is a
    nonzero 23-bit value. *)
Definition live (w : t) : Prop :=
  test w = false /\ 0 < shift_register w < 2 ^ 23.

(** Held by the test bit: the accumulator and the noise register are
    zero. *)
Definition held (w : t) : Prop :=
  test w = true /\ accumulator w = 0 /\ shift_register w = 0.

(** The registers in range. *)
Definition valid (w : t) : Prop :=
  0 <= accumulator w < 2 ^ 24 /\ 0 <= freq w <= 0xffff.

(** The accumulator value at which the MSB toggles next. *)
Definition msb_threshold (w : t) : Z :=
  if Z.testbit (accumulator w) 23 then 2 ^ 24 else 2 ^ 23.

End WaveformOps.

Module ExternalFilterOps.
Import ExternalFilter.

Definition is_short (vi : Z) : Prop := -32768 <= vi <= 32767.

(** The states an external filter takes. *)
Inductive reachable : t -> Prop :=
| reach_reset : forall f, reachable (reset f)
| reach_enable_filter : forall b f,
    reachable f -> reachable (enable_filter b f)
| reach_clock1 : forall vi f,
    is_short vi -> reachable f -> reachable (clock1 vi f)
| reach_clock : forall delta_t vi f,
    0 <= delta_t -> is_short vi -> reachable f ->
    reachable (clock delta_t vi f).

(** An enabled filter after a reset. *)
Definition power_on : t := enable_filter true (reset (mk true 0 0)).

(** 90 cycles at the lowest input, then 100 cycles at the highest. *)
Definition swing : t := clock 100 32767 (clock 90 (-32768) power_on).

End ExternalFilterOps.

Module SIDOps.
Import WaveformOps WaveformGenerator.

(** A property of each of the three oscillators. *)
Definition all3 (P1 P2 P3 : WaveformGenerator.t -> Prop)
  (w : WaveformGenerator.t * WaveformGenerator.t * WaveformGenerator.t) : Prop :=
  P1 (fst (fst w)) /\ P2 (snd (fst w)) /\ P3 (snd w).

(** The same function on three components. *)
Definition map3 {A B : Type} (f : A -> B) (x : A * A * A) : B * B * B :=
  (f (fst (fst x)), f (snd (fst x)), f (snd x)).

(** A property of an oscillator that [clock] and [synchronize] keep. *)
Definition clock_stable (P : WaveformGenerator.t -> Prop) : Prop :=
  (forall d w, P w -> P (WaveformGenerator.clock d w)) /\
  (forall b w, P w -> P (WaveformGenerator.synchronize b w)).

(** The three oscillators. *)
Definition W3 : Type :=
  (WaveformGenerator.t * WaveformGenerator.t * WaveformGenerator.t)%type.

(** The body of the loop of [osc_loop]: clock the three oscillators
    [m] cycles, then synchronize them. *)
Definition osc_step (m : Z) (w : W3) : W3 :=
  let '(w1, w2, w3) := w in
  let c1 := clock m w1 in
  let c2 := clock m w2 in
  let c3 := clock m w3 in
  (synchronize (msb_rising c3) c1, synchronize (msb_rising c1) c2,
   synchronize (msb_rising c2) c3).

(** Two oscillators equal but for [msb_rising], which has to be equal
    only if the sync destination reads it. *)
Definition agree (dest_sync : bool) (w w' : t) : Prop :=
  accumulator w = accumulator w' /\ shift_register w = shift_register w' /\
  freq w = freq w' /\ pw w = pw w' /\ waveform w = waveform w' /\
  test w = test w' /\ ring_mod w = ring_mod w' /\ sync w = sync w' /\
  (dest_sync = true -> msb_rising w = msb_rising w').

Definition agree3 (w w' : W3) : Prop :=
  agree (sync (snd (fst w))) (fst (fst w)) (fst (fst w')) /\
  agree (sync (snd w)) (snd (fst w)) (snd (fst w')) /\
  agree (sync (fst (fst w))) (snd w) (snd w').

(** No oscillator under test offers a set [msb_rising] to a sync
    destination. *)
Definition no_stale (src dst : t) : Prop :=
  sync dst = true -> test src = true -> msb_rising src = false.

Definition steady3 (w : W3) : Prop :=
  (valid (fst (fst w)) /\ valid (snd (fst w)) /\ valid (snd w)) /\
  no_stale (fst (fst w)) (snd (fst w)) /\
  no_stale (snd (fst w)) (snd w) /\
  no_stale (snd w) (fst (fst w)).

(** The MSB of a source read by a sync destination does not toggle in
    the first [m - 1] cycles. *)
Definition calm (m : Z) (src dst : t) : Prop :=
  sync dst = true ->
  (m - 1) * freq src < msb_threshold src - accumulator src.

Definition calm3 (m : Z) (w : W3) : Prop :=
  calm m (fst (fst w)) (snd (fst w)) /\
  calm m (snd (fst w)) (snd w) /\
  calm m (snd w) (fst (fst w)).

(** The three oscillators clocked, not yet synchronized. *)
Definition clock3 (d : Z) (w : W3) : W3 :=
  (clock d (fst (fst w)), clock d (snd (fst w)), clock d (snd w)).

End SIDOps.

Module ResetState.

(** What the claim on [reset] says of one voice. *)
Definition Voice_after_reset (v : Voice.t) : Prop :=
  WaveformGenerator.accumulator (Voice.wave v) = 0 /\
  WaveformGenerator.shift_register (Voice.wave v) = 0x7ffff8 /\
  WaveformGenerator.freq (Voice.wave v) = 0 /\
  WaveformGenerator.pw (Voice.wave v) = 0 /\
  WaveformGenerator.test (Voice.wave v) = false /\
  WaveformGenerator.ring_mod (Voice.wave v) = false /\
  WaveformGenerator.sync (Voice.wave v) = false /\
  WaveformGenerator.msb_rising (Voice.wave v) = false /\
  EnvelopeGenerator.envelope_counter (Voice.envelope v) = 0 /\
  EnvelopeGenerator.rate_counter (Voice.envelope v) = 0 /\
  EnvelopeGenerator.exponential_counter (Voice.envelope v) = 0 /\
  EnvelopeGenerator.gate (Voice.envelope v) = false.

End ResetState.

(** ** Register writes on a whole SID, and the scenario of the
    retriggered voice *)

Module Scenario.

(** A register write or any other call on one voice of the SID. *)
Definition on_voice1 (f : Voice.t -> Voice.t) (s : SID.t) : SID.t :=
  SID.mk (f (SID.voice1 s)) (SID.voice2 s) (SID.voice3 s) (SID.filter s).

Definition on_voice2 (f : Voice.t -> Voice.t) (s : SID.t) : SID.t :=
  SID.mk (SID.voice1 s) (f (SID.voice2 s)) (SID.voice3 s) (SID.filter s).

Definition on_voice3 (f : Voice.t -> Voice.t) (s : SID.t) : SID.t :=
  SID.mk (SID.voice1 s) (SID.voice2 s) (f (SID.voice3 s)) (SID.filter s).

Definition on_envelope (f : EnvelopeGenerator.t -> EnvelopeGenerator.t)
  (v : Voice.t) : Voice.t :=
  Voice.set_envelope (f (Voice.envelope v)) v.

Definition on_wave (f : WaveformGenerator.t -> WaveformGenerator.t)
  (v : Voice.t) : Voice.t :=
  Voice.set_wave (f (Voice.wave v)) v.

(** A SID after reset, its filter in use. *)
Definition power_on : SID.t :=
  let v := Voice.mk (WaveformGenerator.mk false 0 0 0 0 0 false false false)
                    EnvelopeOps.power_on in
  SID.reset (SID.mk v v v (Filter.mk false 0 0 0)).

(** Voice 1 is taken to the top of its envelope and held there (sustain
    15); the gate is then cleared and set again and the sustain level
    lowered to 0: the generator is in ATTACK with the counter at 0xFF. *)
Definition retriggered
  (Filter_clock : Z -> Z -> Z -> Z -> Filter.t -> Filter.t)
  (Voice_output : WaveformGenerator.t -> Voice.t -> Z) : SID.t :=
  on_voice1 (on_envelope (EnvelopeGenerator.writeSUSTAIN_RELEASE 0x00))
    (on_voice1 (Voice.writeCONTROL_REG 0x01)
      (on_voice1 (Voice.writeCONTROL_REG 0x00)
        (SID.clock Filter_clock Voice_output 2300
          (on_voice1 (Voice.writeCONTROL_REG 0x01)
            (on_voice1
               (on_envelope (EnvelopeGenerator.writeSUSTAIN_RELEASE 0xF0))
               power_on))))).

(** A filter clock function leaves the bypass flag alone. *)
Definition keeps_bypass
  (Filter_clock : Z -> Z -> Z -> Z -> Filter.t -> Filter.t) : Prop :=
  forall d v1 v2 v3 f,
    Filter.bypass (Filter_clock d v1 v2 v3 f) = Filter.bypass f.

(** Voice 1 runs at frequency 0x8000 for 256 cycles, so that the MSB of
    its accumulator has just risen, and is then put under test; voice 2,
    at frequency 2000, is made its sync destination. *)
Definition stale
  (Filter_clock : Z -> Z -> Z -> Z -> Filter.t -> Filter.t)
  (Voice_output : WaveformGenerator.t -> Voice.t -> Z) : SID.t :=
  on_voice2 (Voice.writeCONTROL_REG 0x02)
    (on_voice1 (Voice.writeCONTROL_REG 0x08)
      (SID.clock Filter_clock Voice_output 256
        (on_voice2 (on_wave (WaveformGenerator.writeFREQ_HI 0x07))
          (on_voice2 (on_wave (WaveformGenerator.writeFREQ_LO 0xD0))
            (on_voice1 (on_wave (WaveformGenerator.writeFREQ_HI 0x80))
               power_on))))).

(** A SID after reset with its filter bypassed, voice 1 at the highest
    frequency. *)
Definition bypassed : SID.t :=
  let v := Voice.mk (WaveformGenerator.mk false 0 0 0 0 0 false false false)
                    EnvelopeOps.power_on in
  on_voice1 (on_wave (WaveformGenerator.writeFREQ_HI 0xFF))
    (on_voice1 (on_wave (WaveformGenerator.writeFREQ_LO 0xFF))
       (SID.reset (SID.mk v v v (Filter.mk true 0 0 0)))).

End Scenario.

(* ------------------------------------------------------------------ *)
(** ** WaveformGenerator: the waveform outputs (wave.cc) *)

Module WaveformOutput.
Import WaveformGenerator.

Section Samples.

(** The OSC3 samples of the combined waveforms ([sample__ST],
    [sample_P_T], [sample_PS_], [sample_PST]) are arrays defined in files
    that are not among the sources; the output functions are stated for
    any tables. *)
Variable sample__ST : Z -> Z.
Variable sample_P_T : Z -> Z.
Variable sample_PS_ : Z -> Z.
Variable sample_PST : Z -> Z.

(** The output functions take the sync source, which [output___T] reads
    through [sync_source->accumulator]. *)
Definition output____ (source w : t) : Z := 0.

Definition output___T (source w : t) : Z :=
  let msb :=
    negb (Z.land (if ring_mod w
                  then Z.lxor (accumulator w) (accumulator source)
                  else accumulator w) 0x800000 =? 0) in
  Z.land (Z.shiftr (if msb then u32 (Z.lnot (accumulator w))
                    else accumulator w) 11) 0xfff.

Definition output__S_ (source w : t) : Z := Z.shiftr (accumulator w) 12.

Definition output_P__ (source w : t) : Z :=
  if Z.shiftr (accumulator w) 12 >=? pw w then 0xfff else 0x000.

Definition outputN___ (source w : t) : Z :=
  let sr := shift_register w in
  Z.lor (Z.lor (Z.lor (Z.lor (Z.lor (Z.lor (Z.lor
    (Z.shiftr (Z.land sr 0x400000) 11)
    (Z.shiftr (Z.land sr 0x100000) 10))
    (Z.shiftr (Z.land sr 0x010000) 7))
    (Z.shiftr (Z.land sr 0x002000) 5))
    (Z.shiftr (Z.land sr 0x000800) 4))
    (Z.shiftr (Z.land sr 0x000080) 1))
    (Z.shiftl (Z.land sr 0x000010) 1))
    (Z.shiftl (Z.land sr 0x000004) 2).

Definition output_PS_ (source w : t) : Z :=
  Z.land (Z.shiftl (sample_PS_ (Z.shiftr (accumulator w) 12)) 4)
         (output_P__ source w).

Definition output__ST (source w : t) : Z :=
  Z.shiftl (sample__ST (Z.land (Z.shiftr (accumulator w) 11) 0xfff)) 4.

Definition output_P_T (source w : t) : Z :=
  Z.land (Z.shiftl (sample_P_T (Z.land (Z.shiftr (accumulator w) 11) 0xfff)) 4)
         (output_P__ source w).

Definition output_PST (source w : t) : Z :=
  Z.land (Z.shiftl (sample_PST (Z.land (Z.shiftr (accumulator w) 11) 0xfff)) 4)
         (output_P__ source w).

Definition outputN__T (source w : t) : Z := 0.
Definition outputN_S_ (source w : t) : Z := 0.
Definition outputN_ST (source w : t) : Z := 0.
Definition outputNP__ (source w : t) : Z := 0.
Definition outputNP_T (source w : t) : Z := 0.
Definition outputNPS_ (source w : t) : Z := 0.
Definition outputNPST (source w : t) : Z := 0.

(** The array of member functions, indexed by [waveform]. *)
Definition output_function : list (t -> t -> Z) :=
  [output____; output___T; output__S_; output__ST;
   output_P__; output_P_T; output_PS_; output_PST;
   outputN___; outputN__T; outputN_S_; outputN_ST;
   outputNP__; outputNP_T; outputNPS_; outputNPST].

(** [WaveformGenerator::output]: the 12-bit waveform output. *)
Definition output (source w : t) : Z :=
  nth (Z.to_nat (waveform w)) output_function output____ source w.

(** [WaveformGenerator::readOSC]. *)
Definition readOSC (source w : t) : Z := Z.shiftr (output source w) 4.

End Samples.

(** The taps of the noise register, from OSC3 bit 0 to bit 7. *)
Definition noise_taps : list Z := [2; 4; 7; 11; 13; 16; 20; 22].

(** A table of 8-bit samples. *)
Definition is_sample_table (s : Z -> Z) : Prop := forall i, 0 <= s i <= 0xff.

End WaveformOutput.

(* ------------------------------------------------------------------ *)
(** ** EnvelopeGenerator: the quantities its behaviour is stated in *)

Module EnvelopeInvariants.
Import EnvelopeGenerator.

(** The period of the exponential counter at a value of the envelope
    counter. *)
Definition exponential_period_at (ec : Z) : Z :=
  tbl exponential_counter_period (tbl exponential_counter_segment ec).

(** The exponential counter is below the period it is compared with, and
    zero during the attack. *)
Definition exponential_counter_ok (e : t) : Prop :=
  0 <= exponential_counter e < exponential_period_at (envelope_counter e) /\
  (state e = ATTACK -> exponential_counter e = 0).

(** The number of cycles from a generator in ATTACK to the cycle on
    which the envelope counter reaches 0xFF. *)
Definition cycles_to_peak (e : t) : Z :=
  (0xff - envelope_counter e) * tbl rate_counter_period (attack e)
  - rate_counter e.

(** The registers written by the host. *)
Definition host_registers (e : t) : Z * Z * Z * Z * bool :=
  (attack e, decay e, sustain e, release e, gate e).

End EnvelopeInvariants.

(* ------------------------------------------------------------------ *)
Module DeclineOps.
Import EnvelopeGenerator EnvelopeOps EnvelopeInvariants.

(** The level at which the decline of the envelope counter pauses: the
    start of the next segment of the exponential, or the sustain level
    if that comes first during DECAY_SUSTAIN. *)
Definition floor_level (e : t) : Z :=
  let level :=
    tbl exponential_counter_level
      (tbl exponential_counter_segment (envelope_counter e)) in
  if State_eqb (state e) DECAY_SUSTAIN
  then Z.max level (tbl sustain_level (sustain e)) else level.

(** The rate register that governs the decline. *)
Definition decline_rate (e : t) : Z :=
  if State_eqb (state e) DECAY_SUSTAIN then decay e else release e.

(** The number of cycles between two steps down: the rate period
    times the period of the exponential counter. *)
Definition decline_period (e : t) : Z :=
  tbl rate_counter_period (decline_rate e)
  * exponential_period_at (envelope_counter e).

(** The bound on the number of steps that [clock] passes to
    [step_envelope]. *)
Definition decline_max (e : t) : Z :=
  if State_eqb (state e) DECAY_SUSTAIN
  then fst (fst (decay_sustain_params e))
  else fst (fst (release_params e)).

(** The generator [n] cycles on from [e], as long as the envelope counter
    has not passed the floor: the two dividers count [n], the counter has
    gone down once per [decline_period]. *)
Definition declined (e : t) (n : Z) : t :=
  mk (n mod tbl rate_counter_period (decline_rate e))
     ((n / tbl rate_counter_period (decline_rate e))
        mod exponential_period_at (envelope_counter e))
     (envelope_counter e - n / decline_period e)
     (attack e) (decay e) (sustain e) (release e) (gate e) (state e).

End DeclineOps.

(** The period between two steps of the envelope counter. *)

Module StepPeriod.
Import EnvelopeGenerator EnvelopeOps EnvelopeInvariants.

(** The rate register whose entry of [rate_counter_period] [clock]
    hands to [step_envelope] in each state. *)
Definition rate_index (e : t) : Z :=
  match state e with
  | ATTACK => attack e
  | DECAY_SUSTAIN => decay e
  | RELEASE => release e
  end.

(** The period of the exponential counter that [clock] hands to
    [step_envelope]: that of index 0 during the attack, that of the
    segment of the envelope counter otherwise. *)
Definition exponential_period_in_use (e : t) : Z :=
  match state e with
  | ATTACK => tbl exponential_counter_period 0
  | _ => exponential_period_at (envelope_counter e)
  end.

(** The cycles between two steps of the envelope counter. *)
Definition step_period (e : t) : Z :=
  tbl rate_counter_period (rate_index e) * exponential_period_in_use e.

(** The cycles counted towards the next step: those in the rate counter
    and a rate period for every count of the exponential counter. *)
Definition counted (e : t) : Z :=
  rate_counter e
  + tbl rate_counter_period (rate_index e) * exponential_counter e.

End StepPeriod.

(* ------------------------------------------------------------------ *)
(** ** EnvelopeGenerator (frequency divider model)

    The envelope generator of envelope.cc and its header: the rate is
    kept by a counter that is loaded with a divider number and counted
    down, and the exponential decay by shifting the clock right. *)
Module DividerEnvelope.

Definition State : Type := EnvelopeGenerator.State.

Record t : Type := mk {
  frequency_divider_counter : Z;
  envelope_counter : Z;
  delta_t_remainder : Z;
  attack : Z;
  decay : Z;
  sustain : Z;
  release : Z;
  gate : bool;
  state : State
}.

Definition set_frequency_divider_counter (v : Z) (e : t) : t :=
  mk v (envelope_counter e) (delta_t_remainder e) (attack e) (decay e)
     (sustain e) (release e) (gate e) (state e).

Definition set_envelope_counter (v : Z) (e : t) : t :=
  mk (frequency_divider_counter e) v (delta_t_remainder e) (attack e)
     (decay e) (sustain e) (release e) (gate e) (state e).

Definition set_delta_t_remainder (v : Z) (e : t) : t :=
  mk (frequency_divider_counter e) (envelope_counter e) v (attack e)
     (decay e) (sustain e) (release e) (gate e) (state e).

Definition set_state (v : State) (e : t) : t :=
  mk (frequency_divider_counter e) (envelope_counter e) (delta_t_remainder e)
     (attack e) (decay e) (sustain e) (release e) (gate e) v.

Definition frequency_divider_number : list Z :=
  [8; 31; 63; 94; 148; 219; 266; 313; 391; 977; 1953; 3125; 3906; 11719;
   19531; 31250].

Definition exponential_divide_level : list Z :=
  [0x5d; 0x36; 0x1a; 0x0e; 0x06; 0x00].

(** The number of bits to shift the clock right, by envelope counter
    value: 5 up to 0x06, 4 up to 0x0e, 3 up to 0x1a, 2 up to 0x36, 1 up
    to 0x5d, 0 above. *)
Definition exponential_shift : list Z :=
  [5; 5; 5; 5; 5; 5; 5; 4;  4; 4; 4; 4; 4; 4; 4; 3;
   3; 3; 3; 3; 3; 3; 3; 3;  3; 3; 3; 2; 2; 2; 2; 2;
   2; 2; 2; 2; 2; 2; 2; 2;  2; 2; 2; 2; 2; 2; 2; 2;
   2; 2; 2; 2; 2; 2; 2; 1;  1; 1; 1; 1; 1; 1; 1; 1;
   1; 1; 1; 1; 1; 1; 1; 1;  1; 1; 1; 1; 1; 1; 1; 1;
   1; 1; 1; 1; 1; 1; 1; 1;  1; 1; 1; 1; 1; 1; 0; 0;
   0; 0; 0; 0; 0; 0; 0; 0;  0; 0; 0; 0; 0; 0; 0; 0;
   0; 0; 0; 0; 0; 0; 0; 0;  0; 0; 0; 0; 0; 0; 0; 0;
   0; 0; 0; 0; 0; 0; 0; 0;  0; 0; 0; 0; 0; 0; 0; 0;
   0; 0; 0; 0; 0; 0; 0; 0;  0; 0; 0; 0; 0; 0; 0; 0;
   0; 0; 0; 0; 0; 0; 0; 0;  0; 0; 0; 0; 0; 0; 0; 0;
   0; 0; 0; 0; 0; 0; 0; 0;  0; 0; 0; 0; 0; 0; 0; 0;
   0; 0; 0; 0; 0; 0; 0; 0;  0; 0; 0; 0; 0; 0; 0; 0;
   0; 0; 0; 0; 0; 0; 0; 0;  0; 0; 0; 0; 0; 0; 0; 0;
   0; 0; 0; 0; 0; 0; 0; 0;  0; 0; 0; 0; 0; 0; 0; 0;
   0; 0; 0; 0; 0; 0; 0; 0;  0; 0; 0; 0; 0; 0; 0; 0].

Definition sustain_level : list Z :=
  [0x00; 0x11; 0x22; 0x33; 0x44; 0x55; 0x66; 0x77; 0x88; 0x99; 0xaa; 0xbb;
   0xcc; 0xdd; 0xee; 0xff].

(** [EnvelopeGenerator::reset]: the divider counter is loaded with the
    number of the release rate, which has just been zeroed. *)
Definition reset (e : t) : t :=
  mk (tbl frequency_divider_number 0) 0 0 0 0 0 0 false
     EnvelopeGenerator.RELEASE.

(** [EnvelopeGenerator::writeCONTROL_REG]. *)
Definition writeCONTROL_REG (control : Z) (e : t) : t :=
  let gate_next := negb (Z.land control 0x01 =? 0) in
  let e1 :=
    if negb (gate e) && gate_next then
      set_state EnvelopeGenerator.ATTACK
        (set_delta_t_remainder 0
           (set_frequency_divider_counter
              (tbl frequency_divider_number (attack e)) e))
    else if gate e && negb gate_next then
      set_state EnvelopeGenerator.RELEASE
        (set_delta_t_remainder 0
           (set_frequency_divider_counter
              (tbl frequency_divider_number (release e)) e))
    else e in
  mk (frequency_divider_counter e1) (envelope_counter e1)
     (delta_t_remainder e1) (attack e1) (decay e1) (sustain e1) (release e1)
     gate_next (state e1).

(** [EnvelopeGenerator::writeATTACK_DECAY]. *)
Definition writeATTACK_DECAY (attack_decay : Z) (e : t) : t :=
  mk (frequency_divider_counter e) (envelope_counter e) (delta_t_remainder e)
     (Z.land (Z.shiftr attack_decay 4) 0x0f) (Z.land attack_decay 0x0f)
     (sustain e) (release e) (gate e) (state e).

(** [EnvelopeGenerator::writeSUSTAIN_RELEASE]. *)
Definition writeSUSTAIN_RELEASE (sustain_release : Z) (e : t) : t :=
  mk (frequency_divider_counter e) (envelope_counter e) (delta_t_remainder e)
     (attack e) (decay e)
     (Z.land (Z.shiftr sustain_release 4) 0x0f) (Z.land sustain_release 0x0f)
     (gate e) (state e).

(** The largest [int]; [cycle_count] is [int]. *)
Definition int_max : Z := 0x7fffffff.

(** [EnvelopeGenerator::step_envelope]: the returned number of steps,
    the [delta_t] left (passed by reference in the source) and the
    generator.

    [delta_t + delta_t_remainder] is a sum of two [int]s.  It is
    modelled where it does not overflow, that is for
    [0 <= delta_t] and [delta_t + delta_t_remainder <= int_max]; beyond
    that the C++ sum is undefined, and nothing is stated about it.  On
    a generator with its registers in range every other value formed
    here is then within [int] as well. *)
Definition step_envelope (delta_envelope_max divider_index shifts : Z)
  (delta_t : Z) (e : t) : Z * Z * t :=
  let delta_t_total := delta_t + delta_t_remainder e in
  let delta_t_divided := Z.shiftr delta_t_total shifts in
  let remainder_mask := Z.shiftr 0x1f (5 - shifts) in
  let e1 := set_delta_t_remainder (Z.land delta_t_total remainder_mask) e in
  if delta_t_divided <? frequency_divider_counter e1 then
    (0, 0,
     set_frequency_divider_counter
       (frequency_divider_counter e1 - delta_t_divided) e1)
  else
    let delta_t_divided1 := delta_t_divided - frequency_divider_counter e1 in
    let divider := tbl frequency_divider_number divider_index in
    if negb (delta_envelope_max =? 0) then
      let delta_t_next := divider * (delta_envelope_max - 1) in
      let delta_t_min :=
        if delta_t_next <? delta_t_divided1 then delta_t_next
        else delta_t_divided1 in
      (1 + delta_t_min / divider,
       Z.shiftl (delta_t_divided1 - delta_t_min) shifts,
       set_frequency_divider_counter (divider - delta_t_min mod divider) e1)
    else
      (0, 0,
       set_frequency_divider_counter (divider - delta_t_divided1 mod divider)
         e1).

(** The [while (delta_t)] loop of the decay/sustain state; the result is
    the [delta_t] left and the generator. *)
Fixpoint decay_sustain_loop (fuel : nat) (delta_t : Z) (e : t) : Z * t :=
  match fuel with
  | O => (delta_t, e)
  | S fuel' =>
    if delta_t =? 0 then (delta_t, e)
    else
      let shifts := tbl exponential_shift (envelope_counter e) in
      let min_level0 := tbl exponential_divide_level shifts in
      let min_level :=
        if min_level0 <? tbl sustain_level (sustain e)
        then tbl sustain_level (sustain e) else min_level0 in
      let delta_envelope_max :=
        if envelope_counter e <=? min_level then 0
        else envelope_counter e - min_level in
      let '(delta_envelope, delta_t1, e1) :=
        step_envelope delta_envelope_max (decay e) shifts delta_t e in
      decay_sustain_loop fuel' delta_t1
        (set_envelope_counter (envelope_counter e1 - delta_envelope) e1)
  end.

(** The [while (delta_t)] loop of the release state. *)
Fixpoint release_loop (fuel : nat) (delta_t : Z) (e : t) : Z * t :=
  match fuel with
  | O => (delta_t, e)
  | S fuel' =>
    if delta_t =? 0 then (delta_t, e)
    else
      let shifts := tbl exponential_shift (envelope_counter e) in
      let min_level := tbl exponential_divide_level shifts in
      let delta_envelope_max := envelope_counter e - min_level in
      let '(delta_envelope, delta_t1, e1) :=
        step_envelope delta_envelope_max (release e) shifts delta_t e in
      release_loop fuel' delta_t1
        (set_envelope_counter (envelope_counter e1 - delta_envelope) e1)
  end.

(** Every turn of the two loops but the last lowers the envelope
    counter, which is below 256. *)
Definition loop_fuel : nat := 257.

(** The part of [clock] after the attack branch, with the [delta_t]
    left. *)
Definition clock_tail (delta_t : Z) (e : t) : Z * t :=
  if EnvelopeGenerator.State_eqb (state e) EnvelopeGenerator.DECAY_SUSTAIN
  then decay_sustain_loop loop_fuel delta_t e
  else release_loop loop_fuel delta_t e.

(** [EnvelopeGenerator::clock], with the [delta_t] left when it
    returns. *)
Definition clock_left (delta_t : Z) (e : t) : Z * t :=
  if EnvelopeGenerator.State_eqb (state e) EnvelopeGenerator.ATTACK then
    let '(delta_envelope, delta_t1, e1) :=
      step_envelope (0x100 - envelope_counter e) (attack e) 0 delta_t e in
    if envelope_counter e1 + delta_envelope =? 0x100 then
      clock_tail delta_t1
        (set_state EnvelopeGenerator.DECAY_SUSTAIN
           (set_envelope_counter 0xff e1))
    else
      (delta_t1,
       set_envelope_counter (envelope_counter e1 + delta_envelope) e1)
  else clock_tail delta_t e.

Definition clock (delta_t : Z) (e : t) : t := snd (clock_left delta_t e).

(** [EnvelopeGenerator::output]. *)
Definition output (e : t) : Z := envelope_counter e.

End DividerEnvelope.

Module DividerEnvelopeOps.
Import DividerEnvelope.

(** A number of cycles that [clock] can take without the sum of
    [delta_t] and the cycles kept from the last call leaving [int]. *)
Definition clockable (delta_t : Z) (e : t) : Prop :=
  0 <= delta_t /\ delta_t + delta_t_remainder e <= int_max.

(** The states the generator takes: after a reset, any sequence of
    register writes and of [clock(delta_t)] with a [delta_t] that
    [clock] can take. *)
Inductive reachable : t -> Prop :=
| reach_reset : forall e, reachable (reset e)
| reach_CONTROL_REG : forall v e,
    reachable e -> reachable (writeCONTROL_REG v e)
| reach_ATTACK_DECAY : forall v e,
    reachable e -> reachable (writeATTACK_DECAY v e)
| reach_SUSTAIN_RELEASE : forall v e,
    reachable e -> reachable (writeSUSTAIN_RELEASE v e)
| reach_clock : forall delta_t e,
    clockable delta_t e -> reachable e -> reachable (clock delta_t e).

(** The ranges of the registers: the divider counter is never zero. *)
Record wf (e : t) : Prop := mk_wf {
  wf_frequency_divider_counter : 1 <= frequency_divider_counter e <= 31250;
  wf_envelope_counter : 0 <= envelope_counter e <= 0xff;
  wf_delta_t_remainder : 0 <= delta_t_remainder e <= 0x1f;
  wf_attack : 0 <= attack e <= 15;
  wf_decay : 0 <= decay e <= 15;
  wf_sustain : 0 <= sustain e <= 15;
  wf_release : 0 <= release e <= 15
}.

(** What [step_envelope] leaves alone. *)
Definition same_registers (e e' : t) : Prop :=
  envelope_counter e' = envelope_counter e /\
  attack e' = attack e /\ decay e' = decay e /\
  sustain e' = sustain e /\ release e' = release e /\
  gate e' = gate e /\ state e' = state e.

(** The generator as the constructor leaves it. *)
Definition power_on : t :=
  reset (mk 0 0 0 0 0 0 0 false EnvelopeGenerator.RELEASE).

End DividerEnvelopeOps.

(* ------------------------------------------------------------------ *)
(** ** ExternalFilter: the range of the filter states *)

Module ExternalFilterBounds.
Import ExternalFilter.

(** The filter states within 27 bits: between the images
    [vi << 11] of the lowest and of the highest 16-bit input. *)
Definition in_27_bits (v : Z) : Prop := - 2 ^ 26 <= v <= 2 ^ 26 - 2 ^ 11.

Definition state_in_27_bits (f : t) : Prop :=
  in_27_bits (vlp f) /\ in_27_bits (vhp f).

(** A product of [clock] as a 32-bit [int]. *)
Definition fits_int (x : Z) : Prop := - 2 ^ 31 <= x < 2 ^ 31.

(** [x] lies between [a] and [b], whichever is the larger. *)
Definition between (a x b : Z) : Prop := Z.min a b <= x <= Z.max a b.

(** Coefficients that take the states at most the whole way to their
    targets: multipliers between 0 and [2^shift]. *)
Definition usable (c : Coefficients) : Prop :=
  0 <= shiftlp c /\ 0 <= shifthp c /\
  0 <= mullp c <= 2 ^ shiftlp c /\ 0 <= mulhp c <= 2 ^ shifthp c.

End ExternalFilterBounds.

(* ------------------------------------------------------------------ *)
(** ** DAC (dac.h)

    The constructor of [DAC<bits>] computes the table of bit values in
    double precision; [operator()] is integer code over that table. *)
Module DAC.

(** Conversion to [T = unsigned short]. *)
Definition u16 (x : Z) : Z := x mod 2 ^ 16.

Section Bits.

(** The template parameter [bits] and the member [dac_bits], the bit
    values scaled by 2^4, as the constructor left them. *)
Variable bits : nat.
Variable dac_bits : list Z.

(** The [for] loop of [operator()]: [n] turns from bit [bit] on; [val]
    is shifted right every turn, [bitsum] is an [unsigned short]. *)
Fixpoint bitsum_loop (n bit : nat) (val bitsum : Z) : Z :=
  match n with
  | O => bitsum
  | S n' =>
    bitsum_loop n' (S bit) (Z.shiftr val 1)
      (u16 (bitsum
            + (if negb (Z.land val 0x1 =? 0) then nth bit dac_bits 0 else 0)))
  end.

(** [T operator()(T val) const]: the DAC value by superposition of the
    bit values, rounded to the nearest. *)
Definition call (val : Z) : Z :=
  u16 (Z.shiftr (bitsum_loop bits 0 val 0 + Z.shiftl 1 3) 4).

(** The sum the loop forms, before it is cut to 16 bits. *)
Fixpoint bit_weights (n bit : nat) (val : Z) : Z :=
  match n with
  | O => 0
  | S n' =>
    (if Z.testbit val 0 then nth bit dac_bits 0 else 0)
    + bit_weights n' (S bit) (Z.shiftr val 1)
  end.

End Bits.

End DAC.

(* ------------------------------------------------------------------ *)
(** ** The Sun audio device of the VICE sound driver: conversion to
    u-law *)

Module SunAudio.

(** The code of a magnitude [v = |data / 8|]: eight segments of sixteen
    codes each, the steps doubling from segment to segment. *)
Definition ulaw_segment (v : Z) : Z :=
  if v >=? 4080 then 0
  else if v >=? 2032 then 0x0f - Z.quot (v - 2032) 128
  else if v >=? 1008 then 0x1f - Z.quot (v - 1008) 64
  else if v >=? 496 then 0x2f - Z.quot (v - 496) 32
  else if v >=? 240 then 0x3f - Z.quot (v - 240) 16
  else if v >=? 112 then 0x4f - Z.quot (v - 112) 8
  else if v >=? 48 then 0x5f - Z.quot (v - 48) 4
  else if v >=? 16 then 0x6f - Z.quot (v - 16) 2
  else 0x7f - v.

(** [toulaw8], the conversion of a 16-bit sample to 8-bit u-law of the
    Sun audio device; the divisions of [int]s truncate towards zero. *)
Definition toulaw8 (data : Z) : Z :=
  let a := Z.quot data 8 in
  let v := if a <? 0 then - a else a in
  let s := if a <? 0 then 0 else 0x80 in
  Z.lor (ulaw_segment v) s.

(** The sample buffer as bytes: sample [i] lies in the bytes [2 i] and
    [2 i + 1]; [decode] makes a 16-bit sample of the two bytes, in the
    byte order of the host. *)
Definition read_sample (decode : Z -> Z -> Z) (buf : list Z) (i : nat) : Z :=
  decode (nth (2 * i) buf 0) (nth (2 * i + 1) buf 0).

(** The assignment of [v] to byte [i] of the buffer, which the source
    makes through [pbuf] cast to a pointer to [char]. *)
Fixpoint write_byte (buf : list Z) (i : nat) (v : Z) : list Z :=
  match buf, i with
  | [], _ => []
  | _ :: rest, O => v :: rest
  | b :: rest, S i' => b :: write_byte rest i' v
  end.

(** The loop of [sun_write] that converts the buffer in place when the
    device takes 8-bit samples:
    for every [i] below [nr], byte [i] is assigned [toulaw8(pbuf[i])];
    [n] turns from index [i] on. *)
Fixpoint convert_loop (decode : Z -> Z -> Z) (n i : nat) (buf : list Z)
  : list Z :=
  match n with
  | O => buf
  | S n' =>
    convert_loop decode n' (S i)
      (write_byte buf i (toulaw8 (read_sample decode buf i)))
  end.

Definition convert_in_place (decode : Z -> Z -> Z) (nr : nat)
  (buf : list Z) : list Z :=
  convert_loop decode nr 0 buf.

End SunAudio.

(* ------------------------------------------------------------------ *)
(** ** The ring buffer of the SDL device

    [sdl_write] fills the ring and [sdl_callback] empties it.  The two
    run in different threads; what is modelled is one turn of each
    loop, for indices that the other thread leaves alone during the
    turn. *)
Module SDLRing.

Record t : Type := mk {
  sdl_inptr : Z;
  sdl_outptr : Z;
  sdl_len : Z
}.

(** [sdl_bufferstatus]: the number of samples written and not yet
    played. *)
Definition sdl_bufferstatus (r : t) : Z :=
  let amount := sdl_inptr r - sdl_outptr r in
  if amount <? 0 then amount + sdl_len r else amount.

(** One turn of the [while (total < nr)] loop of [sdl_write]: [None]
    when the turn finds no room and sleeps, otherwise the number of
    samples copied to [sdl_buf + sdl_inptr] and the ring after it. *)
Definition sdl_write_turn (total nr : Z) (r : t) : option (Z * t) :=
  let amount0 := sdl_outptr r - sdl_inptr r in
  let amount1 := if amount0 <=? 0 then sdl_len r - sdl_inptr r else amount0 in
  let amount2 :=
    if Z.rem (sdl_inptr r + amount1) (sdl_len r) =? sdl_outptr r
    then amount1 - 1 else amount1 in
  if amount2 <=? 0 then None
  else
    let amount := if total + amount2 >? nr then nr - total else amount2 in
    let inptr1 := sdl_inptr r + amount in
    Some (amount,
          mk (if inptr1 =? sdl_len r then 0 else inptr1) (sdl_outptr r)
             (sdl_len r)).

(** One turn of the [while] loop of [sdl_callback], [want] being the
    number of samples asked for: [None] when the ring is empty,
    otherwise the number of samples copied from [sdl_buf + sdl_outptr]
    and the ring after it. *)
Definition sdl_callback_turn (total want : Z) (r : t) : option (Z * t) :=
  let amount0 := sdl_inptr r - sdl_outptr r in
  let amount1 := if amount0 <? 0 then sdl_len r - sdl_outptr r else amount0 in
  let amount :=
    if amount1 + total >? want then want - total else amount1 in
  if amount =? 0 then None
  else
    let outptr1 := sdl_outptr r + amount in
    Some (amount,
          mk (sdl_inptr r) (if outptr1 =? sdl_len r then 0 else outptr1)
             (sdl_len r)).

(** The two indices within the buffer. *)
Definition in_buffer (r : t) : Prop :=
  0 <= sdl_inptr r < sdl_len r /\ 0 <= sdl_outptr r < sdl_len r.

End SDLRing.

(* ------------------------------------------------------------------ *)
(** * Properties *)

(** ** Iteration *)

Lemma repeat_fn_add {A : Type} (f : A -> A) (n m : nat) (x : A) :
  repeat_fn f (n + m) x = repeat_fn f m (repeat_fn f n x).
Proof.
  revert x. induction n as [|n IH]; intros x; cbn [repeat_fn Nat.add].
  - reflexivity.
  - apply IH.
Qed.

(** ** The rate table *)

Module EnvelopeFacts.
Import EnvelopeGenerator EnvelopeOps.

Lemma land_0x7fff_small (x : Z) : 0 <= x <= 0x7fff -> Z.land x 0x7fff = x.
Proof.
  intros H. change 0x7fff with (Z.ones 15).
  rewrite Z.land_ones by lia. apply Z.mod_small. change (2 ^ 15) with 32768. lia.
Qed.

Lemma land_0x7fff_range (x : Z) : 0 <= Z.land x 0x7fff <= 0x7fff.
Proof.
  change 0x7fff with (Z.ones 15) at 1 2.
  rewrite Z.land_ones by lia.
  pose proof (Z.mod_pos_bound x (2 ^ 15) ltac:(lia)).
  change (2 ^ 15) with 32768 in *. lia.
Qed.

Lemma rate_counter_period_pos (i : Z) :
  0 <= i <= 15 -> 9 <= tbl rate_counter_period i <= 31252.
Proof.
  intros H.
  assert (C : i = 0 \/ i = 1 \/ i = 2 \/ i = 3 \/ i = 4 \/ i = 5 \/ i = 6
              \/ i = 7 \/ i = 8 \/ i = 9 \/ i = 10 \/ i = 11 \/ i = 12
              \/ i = 13 \/ i = 14 \/ i = 15) by lia.
  repeat (destruct C as [-> | C]; [vm_compute; split; discriminate |]).
  subst i; vm_compute; split; discriminate.
Qed.

Lemma set_rate_counter_same (e : t) : set_rate_counter (rate_counter e) e = e.
Proof. destruct e; reflexivity. Qed.

Lemma set_exponential_counter_same (e : t) :
  set_exponential_counter (exponential_counter e) e = e.
Proof. destruct e; reflexivity. Qed.

(** The loop of [step_envelope] during attack (exponential period 1), as
    long as the bound [delta_envelope_max] is not reached: one step per
    rate period. *)
Lemma step_envelope_loop_attack (P dmax : Z) :
  1 <= P <= 0x7fff ->
  forall fuel rs de dt e,
    (Z.to_nat dt < fuel)%nat -> 0 <= dt -> 1 <= rs <= P ->
    exponential_counter e = 0 ->
    0 <= rate_counter e -> rate_counter e + rs <= 0x8000 ->
    0 <= de -> de + (dt + P - rs) / P < dmax ->
    step_envelope_loop fuel P 1 dmax rs de dt e =
    (de + (dt + P - rs) / P, 0,
     set_rate_counter
       (if dt <? rs then rate_counter e + dt else (dt - rs) mod P) e).
Proof.
  intros HP. induction fuel as [|fuel IH]; intros rs de dt e Hf Hdt Hrs He Hrc Hrc2 Hde Hn.
  - lia.
  - cbn [step_envelope_loop].
    destruct (Z.eqb_spec dt 0) as [->|Hnz].
    + rewrite Z.div_small by lia.
      replace (0 <? rs) with true by (symmetry; apply Z.ltb_lt; lia).
      rewrite !Z.add_0_r, set_rate_counter_same. reflexivity.
    + destruct (Z.ltb_spec dt rs) as [Hlt|Hge].
      * rewrite Z.div_small by lia.
        rewrite land_0x7fff_small by lia. rewrite Z.add_0_r. reflexivity.
      * assert (Hdiv : (dt + P - rs) / P = 1 + (dt - rs) / P).
        { replace (dt + P - rs) with (dt - rs + 1 * P) by lia.
          rewrite Z.div_add by lia. lia. }
        assert (0 <= (dt - rs) / P) by (apply Z.div_pos; lia).
        cbn [exponential_counter set_rate_counter]. rewrite He.
        change (0 + 1 =? 1) with true. cbv iota.
        destruct (Z.eqb_spec dmax 0) as [->|Hm]; [lia|]. cbn [negb].
        destruct (Z.eqb_spec (de + 1) dmax) as [Heq|Hne]; [lia|].
        rewrite (IH P (de + 1) (dt - rs));
          cbn [rate_counter set_exponential_counter set_rate_counter
               exponential_counter envelope_counter attack decay sustain
               release gate state];
          try lia.
        2: { replace (dt - rs + P - P) with (dt - rs) by lia. lia. }
        replace (dt - rs + P - P) with (dt - rs) by lia.
        rewrite Hdiv.
        destruct e as [rc ec env a d su r g st];
          cbn [exponential_counter rate_counter] in *; subst ec.
        f_equal; [f_equal; lia|].
        unfold set_rate_counter, set_exponential_counter;
          cbn [rate_counter exponential_counter envelope_counter attack decay
               sustain release gate state].
        f_equal.
        destruct (Z.ltb_spec (dt - rs) P) as [Hs|Hl].
        -- rewrite Z.mod_small by lia. lia.
        -- replace (dt - rs) with (dt - rs - P + 1 * P) at 2 by lia.
           rewrite Z.mod_add by lia. reflexivity.
Qed.

Lemma S2_state :
  S2_after_second_write = mk 8 0 0 15 0 0 0 true ATTACK.
Proof. reflexivity. Qed.

(** C2, as stated, fails: after the 31251 cycles the envelope counter is
    already 1, not 0, and the next cycle leaves it at 1. *)
Lemma S2_counterexample :
  envelope_counter (clock 31251 S2_after_second_write) <> 0 /\
  envelope_counter (clock 31251 S2_after_second_write) = 1 /\
  rate_counter (clock 31251 S2_after_second_write) = 7 /\
  envelope_counter (clock 1 (clock 31251 S2_after_second_write)) = 1.
Proof. vm_compute. repeat split. discriminate. Qed.

(** C2, amended.  After reset, ATTACK_DECAY = 0x00, gate on, 8 cycles and
    ATTACK_DECAY = 0xF0, the rate counter holds 8, below the new comparison
    value 31252: it counts up to it without wrapping through 0x8000.  For
    every [k <= 31243] further cycles the envelope counter is still 0 and
    the rate counter is [8 + k]; the cycle after the 31243rd steps the
    envelope counter to 1 and zeroes the rate counter; after 31251 cycles
    the envelope counter is 1. *)
Theorem S2_no_delay (k : Z) :
  0 <= k <= 31243 ->
  rate_counter S2_after_second_write = 8 /\
  attack S2_after_second_write = 15 /\
  tbl rate_counter_period 15 = 31252 /\
  envelope_counter (clock k S2_after_second_write) = 0 /\
  rate_counter (clock k S2_after_second_write) = 8 + k /\
  envelope_counter (clock 1 (clock 31243 S2_after_second_write)) = 1 /\
  rate_counter (clock 1 (clock 31243 S2_after_second_write)) = 0 /\
  envelope_counter (clock 31251 S2_after_second_write) = 1.
Proof.
  intros Hk. rewrite S2_state.
  split; [reflexivity|]. split; [reflexivity|]. split; [reflexivity|].
  assert (Hc : clock k (mk 8 0 0 15 0 0 0 true ATTACK) =
               mk (8 + k) 0 0 15 0 0 0 true ATTACK).
  { unfold clock. cbn [State_eqb state].
    unfold step_envelope. cbn [rate_counter attack].
    change (tbl rate_counter_period 15) with 31252.
    change (8 <? 31252) with true. cbv iota.
    unfold loop_fuel. cbn [step_envelope_loop].
    destruct (Z.eqb_spec k 0) as [->|Hnz]; [reflexivity|].
    replace (k <? 31252 - 8) with true by (symmetry; apply Z.ltb_lt; lia).
    cbn [set_rate_counter set_envelope_counter rate_counter envelope_counter
         exponential_counter attack decay sustain release gate state].
    rewrite land_0x7fff_small by lia.
    rewrite Z.add_0_l. change (0 =? 255) with false. reflexivity. }
  rewrite Hc. cbn [envelope_counter rate_counter].
  split; [reflexivity|]. split; [reflexivity|].
  vm_compute. repeat split.
Qed.

Lemma S2_no_delay_witness :
  envelope_counter (clock 31243 S2_after_second_write) = 0 /\
  rate_counter (clock 31243 S2_after_second_write) = 8 + 31243.
Proof.
  pose proof (S2_no_delay 31243 ltac:(lia)) as H.
  split; [apply H | apply H].
Defined.

Ltac env_simpl :=
  cbn [rate_counter exponential_counter envelope_counter attack decay sustain
       release gate state set_rate_counter set_exponential_counter
       set_envelope_counter set_state] in *.

(** *** Ranges of the counters *)

Lemma forall_below_256 (P : Z -> bool) :
  forallb P (map Z.of_nat (seq 0 256)) = true ->
  forall z, 0 <= z <= 255 -> P z = true.
Proof.
  intros H z Hz. rewrite forallb_forall in H. apply H.
  apply in_map_iff. exists (Z.to_nat z). split; [lia|].
  apply in_seq. lia.
Qed.

Lemma segment_level_bounds (ec : Z) :
  0 <= ec <= 255 ->
  0 <= tbl exponential_counter_level (tbl exponential_counter_segment ec) <= ec.
Proof.
  intros H.
  pose proof (forall_below_256
    (fun z => (0 <=? tbl exponential_counter_level (tbl exponential_counter_segment z))
              && (tbl exponential_counter_level (tbl exponential_counter_segment z) <=? z))
    ltac:(vm_compute; reflexivity) ec H) as G.
  cbv beta in G. apply andb_true_iff in G. destruct G as [A B].
  apply Z.leb_le in A. apply Z.leb_le in B. lia.
Qed.

Lemma sustain_level_bounds (s : Z) : 0 <= tbl sustain_level s <= 255.
Proof.
  unfold tbl.
  assert (H : Forall (fun x => 0 <= x <= 255) sustain_level)
    by (repeat constructor; lia).
  destruct (Nat.lt_ge_cases (Z.to_nat s) (length sustain_level)) as [L|L].
  - rewrite Forall_forall in H. apply H, nth_In, L.
  - rewrite nth_overflow by exact L. lia.
Qed.

Lemma step_envelope_loop_inv (P X dmax : Z) (fuel : nat) :
  forall rs de dt e,
    counters_ok e ->
    (dmax = 0 /\ de = 0) \/ (0 <= de < dmax) ->
    let '(de', _, e') := step_envelope_loop fuel P X dmax rs de dt e in
    de <= de' /\ (dmax = 0 -> de' = 0) /\ (0 < dmax -> de' <= dmax) /\
    counters_ok e' /\ same_registers e e'.
Proof.
  induction fuel as [|fuel IH]; intros rs de dt e Hc Hd; cbn [step_envelope_loop].
  - unfold same_registers. repeat split; try apply Hc; lia.
  - destruct (dt =? 0).
    { unfold same_registers. repeat split; try apply Hc; lia. }
    destruct (dt <? rs).
    { unfold same_registers, counters_ok. env_simpl.
      pose proof (land_0x7fff_range (rate_counter e + dt)).
      repeat split; try apply Hc; lia. }
    env_simpl.
    assert (Hok0 : forall v, 0 <= v ->
              counters_ok (set_exponential_counter v (set_rate_counter 0 e))).
    { intros v Hv. unfold counters_ok. env_simpl. lia. }
    assert (Hsame : forall v e',
              same_registers (set_exponential_counter v (set_rate_counter 0 e)) e' ->
              same_registers e e').
    { intros v e' H. unfold same_registers in *. env_simpl. exact H. }
    destruct (exponential_counter e + 1 =? X).
    + destruct (Z.eqb_spec dmax 0) as [Hz|Hnz]; cbn [negb].
      * specialize (IH P de (dt - rs) (set_exponential_counter 0 (set_rate_counter 0 e))
                      (Hok0 0 ltac:(lia)) Hd).
        destruct (step_envelope_loop _ _ _ _ _ _ _ _) as [[de' dt'] e'].
        destruct IH as (A & B & C & D & E).
        split; [lia|]. split; [exact B|]. split; [exact C|].
        split; [exact D|]. eapply Hsame, E.
      * destruct (Z.eqb_spec (de + 1) dmax) as [Heq|Hne].
        -- split; [lia|]. split; [lia|]. split; [lia|].
           split; [apply (Hok0 0); lia|].
           unfold same_registers. env_simpl. repeat split.
        -- assert (Hd' : (dmax = 0 /\ de + 1 = 0) \/ 0 <= de + 1 < dmax) by lia.
           specialize (IH P (de + 1) (dt - rs)
                         (set_exponential_counter 0 (set_rate_counter 0 e))
                         (Hok0 0 ltac:(lia)) Hd').
           destruct (step_envelope_loop _ _ _ _ _ _ _ _) as [[de' dt'] e'].
           destruct IH as (A & B & C & D & E).
           split; [lia|]. split; [exact B|]. split; [exact C|].
           split; [exact D|]. eapply Hsame, E.
    + destruct Hc as [Hc1 Hc2].
      specialize (IH P de (dt - rs)
                    (set_exponential_counter (exponential_counter e + 1)
                       (set_rate_counter 0 e))
                    (Hok0 (exponential_counter e + 1) ltac:(lia)) Hd).
      destruct (step_envelope_loop _ _ _ _ _ _ _ _) as [[de' dt'] e'].
      destruct IH as (A & B & C & D & E).
        split; [lia|]. split; [exact B|]. split; [exact C|].
        split; [exact D|]. eapply Hsame, E.
Qed.

Lemma step_envelope_inv (dmax ri xi dt : Z) (e : t) :
  counters_ok e -> 0 <= dmax ->
  let '(de', _, e') := step_envelope dmax ri xi dt e in
  0 <= de' <= dmax /\ counters_ok e' /\ same_registers e e'.
Proof.
  intros Hc Hd. unfold step_envelope.
  pose proof (step_envelope_loop_inv (tbl rate_counter_period ri)
    (tbl exponential_counter_period xi) dmax (loop_fuel dt)
    (if rate_counter e <? tbl rate_counter_period ri
     then tbl rate_counter_period ri - rate_counter e
     else 0x8000 + tbl rate_counter_period ri - rate_counter e)
    0 dt e Hc ltac:(lia)) as H.
  destruct (step_envelope_loop _ _ _ _ _ _ _ _) as [[de' dt'] e'].
  destruct H as (A & B & C & D & E).
  repeat split; try apply D; try apply E; try lia.
Qed.


Lemma same_registers_wf (e e' : t) :
  wf e -> counters_ok e' -> same_registers e e' -> wf e'.
Proof.
  intros [] [H1 H2] (A & B & C & D & E & F & G).
  constructor; try rewrite A; try rewrite B; try rewrite C; try rewrite D;
    try rewrite E; assumption.
Qed.

Lemma wf_counters_ok (e : t) : wf e -> counters_ok e.
Proof. intros []. split; assumption. Qed.

Lemma wf_set_envelope_counter (v : Z) (e : t) :
  wf e -> 0 <= v <= 0xff -> wf (set_envelope_counter v e).
Proof. intros [] H. constructor; env_simpl; assumption. Qed.

Lemma wf_set_state (v : State) (e : t) : wf e -> wf (set_state v e).
Proof. intros []. constructor; env_simpl; assumption. Qed.

Lemma decay_sustain_loop_inv (fuel : nat) :
  forall dt e, wf e ->
    wf (decay_sustain_loop fuel dt e) /\
    envelope_counter (decay_sustain_loop fuel dt e) <= envelope_counter e /\
    state (decay_sustain_loop fuel dt e) = state e.
Proof.
  induction fuel as [|fuel IH]; intros dt e Hw; cbn [decay_sustain_loop].
  - split; [exact Hw|]. split; [lia|reflexivity].
  - destruct (dt =? 0); [split; [exact Hw|]; split; [lia|reflexivity]|].
    set (segment := tbl exponential_counter_segment (envelope_counter e)).
    set (min_level0 := tbl exponential_counter_level segment).
    set (min_level := if min_level0 <? tbl sustain_level (sustain e)
                      then tbl sustain_level (sustain e) else min_level0).
    set (dmax := if envelope_counter e - min_level <? 0
                 then envelope_counter e else envelope_counter e - min_level).
    pose proof (wf_envelope_counter e Hw) as Hec.
    pose proof (segment_level_bounds (envelope_counter e) Hec) as Hl.
    fold segment in Hl. fold min_level0 in Hl.
    pose proof (sustain_level_bounds (sustain e)) as Hs.
    assert (Hml : 0 <= min_level)
      by (unfold min_level; destruct (min_level0 <? _); lia).
    assert (Hd : 0 <= dmax <= envelope_counter e)
      by (unfold dmax; destruct (Z.ltb_spec (envelope_counter e - min_level) 0); lia).
    pose proof (step_envelope_inv dmax (decay e) segment dt e
                  (wf_counters_ok e Hw) ltac:(lia)) as H.
    destruct (step_envelope dmax (decay e) segment dt e) as [[de' dt'] e'].
    destruct H as (A & B & C).
    pose proof (same_registers_wf e e' Hw B C) as Hw'.
    destruct C as (C1 & C2 & C3 & C4 & C5 & C6 & C7).
    assert (Hr : 0 <= envelope_counter e' - de' <= 0xff) by lia.
    specialize (IH dt' (set_envelope_counter (envelope_counter e' - de') e')
                  (wf_set_envelope_counter _ _ Hw' Hr)).
    destruct IH as (I1 & I2 & I3). env_simpl.
    split; [exact I1|]. split; [lia|congruence].
Qed.

Lemma release_loop_inv (fuel : nat) :
  forall dt e, wf e ->
    wf (release_loop fuel dt e) /\
    envelope_counter (release_loop fuel dt e) <= envelope_counter e /\
    state (release_loop fuel dt e) = state e.
Proof.
  induction fuel as [|fuel IH]; intros dt e Hw; cbn [release_loop].
  - split; [exact Hw|]. split; [lia|reflexivity].
  - destruct (dt =? 0); [split; [exact Hw|]; split; [lia|reflexivity]|].
    set (segment := tbl exponential_counter_segment (envelope_counter e)).
    set (min_level := tbl exponential_counter_level segment).
    pose proof (wf_envelope_counter e Hw) as Hec.
    pose proof (segment_level_bounds (envelope_counter e) Hec) as Hl.
    fold segment in Hl. fold min_level in Hl.
    pose proof (step_envelope_inv (envelope_counter e - min_level) (release e)
                  segment dt e (wf_counters_ok e Hw) ltac:(lia)) as H.
    destruct (step_envelope _ (release e) segment dt e) as [[de' dt'] e'].
    destruct H as (A & B & C).
    pose proof (same_registers_wf e e' Hw B C) as Hw'.
    destruct C as (C1 & C2 & C3 & C4 & C5 & C6 & C7).
    assert (Hr : 0 <= envelope_counter e' - de' <= 0xff) by lia.
    specialize (IH dt' (set_envelope_counter (envelope_counter e' - de') e')
                  (wf_set_envelope_counter _ _ Hw' Hr)).
    destruct IH as (I1 & I2 & I3). env_simpl.
    split; [exact I1|]. split; [lia|congruence].
Qed.

Lemma clock_tail_inv (dt : Z) (e : t) :
  wf e ->
  wf (clock_tail dt e) /\
  envelope_counter (clock_tail dt e) <= envelope_counter e /\
  state (clock_tail dt e) = state e.
Proof.
  intros Hw. unfold clock_tail. destruct (State_eqb (state e) DECAY_SUSTAIN).
  - apply decay_sustain_loop_inv, Hw.
  - apply release_loop_inv, Hw.
Qed.

Lemma clock_inv (dt : Z) (e : t) :
  wf e ->
  wf (clock dt e) /\
  (state e = ATTACK -> state (clock dt e) = ATTACK ->
   envelope_counter e <= envelope_counter (clock dt e)) /\
  (state e = ATTACK ->
   state (clock dt e) = ATTACK \/ state (clock dt e) = DECAY_SUSTAIN) /\
  (state e <> ATTACK ->
   state (clock dt e) = state e /\
   envelope_counter (clock dt e) <= envelope_counter e).
Proof.
  intros Hw. unfold clock.
  destruct (state e) eqn:Hst; cbn [State_eqb].
  - pose proof (wf_envelope_counter e Hw) as Hec.
    pose proof (step_envelope_inv (0xff - envelope_counter e) (attack e) 0 dt e
                  (wf_counters_ok e Hw) ltac:(lia)) as H.
    destruct (step_envelope _ (attack e) 0 dt e) as [[de' dt'] e'].
    destruct H as (A & B & C).
    pose proof (same_registers_wf e e' Hw B C) as Hw'.
    destruct C as (C1 & C2 & C3 & C4 & C5 & C6 & C7).
    assert (Hw2 : wf (set_envelope_counter (envelope_counter e' + de') e'))
      by (apply wf_set_envelope_counter; [exact Hw'|lia]).
    env_simpl.
    destruct (Z.eqb_spec (envelope_counter e' + de') 255) as [Heq|Hne]; cbn [negb].
    + pose proof (clock_tail_inv dt'
        (set_state DECAY_SUSTAIN
           (set_envelope_counter (envelope_counter e' + de') e'))
        (wf_set_state _ _ Hw2)) as (T1 & T2 & T3).
      env_simpl.
      split; [exact T1|]. split; [intros _ G; rewrite T3 in G; discriminate|].
      split; [intros _; right; exact T3|]. intros G; congruence.
    + split; [exact Hw2|]. env_simpl.
      split; [intros _ _; lia|].
      split; [intros _; left; congruence|]. intros G; congruence.
  - pose proof (clock_tail_inv dt e Hw) as (T1 & T2 & T3).
    split; [exact T1|]. split; [discriminate|]. split; [discriminate|].
    intros _. rewrite Hst in T3. split; assumption.
  - pose proof (clock_tail_inv dt e Hw) as (T1 & T2 & T3).
    split; [exact T1|]. split; [discriminate|]. split; [discriminate|].
    intros _. rewrite Hst in T3. split; assumption.
Qed.

Lemma land_0x0f_range (x : Z) : 0 <= Z.land x 0x0f <= 15.
Proof.
  change 0x0f with (Z.ones 4) at 1 2. rewrite Z.land_ones by lia.
  pose proof (Z.mod_pos_bound x (2 ^ 4) ltac:(lia)).
  change (2 ^ 4) with 16 in *. lia.
Qed.

Lemma reachable_wf (e : t) : reachable e -> wf e.
Proof.
  induction 1 as [e | v e H IH | v e H IH | v e H IH | dt e Hdt H IH].
  - constructor; cbn; lia.
  - destruct IH. unfold writeCONTROL_REG.
    destruct (negb (gate e) && _); [|destruct (gate e && _)];
      constructor; env_simpl; try assumption; lia.
  - destruct IH. constructor; env_simpl; try assumption; apply land_0x0f_range.
  - destruct IH. constructor; env_simpl; try assumption; apply land_0x0f_range.
  - apply clock_inv, IH.
Qed.


(** *** Termination: the fuel given to the loops is enough *)

Lemma step_envelope_loop_fuel (P X dmax : Z) :
  1 <= P ->
  forall f1 f2 rs de dt e,
    1 <= rs -> (Z.to_nat dt < f1)%nat -> (Z.to_nat dt < f2)%nat ->
    step_envelope_loop f1 P X dmax rs de dt e =
    step_envelope_loop f2 P X dmax rs de dt e.
Proof.
  intros HP. induction f1 as [|f1 IH]; intros f2 rs de dt e Hrs H1 H2; [lia|].
  destruct f2 as [|f2]; [lia|]. cbn [step_envelope_loop].
  destruct (dt =? 0); [reflexivity|].
  destruct (Z.ltb_spec dt rs); [reflexivity|].
  assert (Hlt : (Z.to_nat (dt - rs) < f1)%nat /\ (Z.to_nat (dt - rs) < f2)%nat)
    by lia.
  destruct Hlt as [L1 L2].
  destruct (_ =? X).
  - destruct (negb (dmax =? 0)).
    + destruct (de + 1 =? dmax); [reflexivity|]. apply IH; lia.
    + apply IH; lia.
  - apply IH; lia.
Qed.

Lemma step_envelope_loop_remaining (P X dmax : Z) :
  1 <= P ->
  forall fuel rs de dt e,
    1 <= rs -> 0 <= dt -> (Z.to_nat dt < fuel)%nat ->
    let '(de', dt', _) := step_envelope_loop fuel P X dmax rs de dt e in
    0 <= dt' <= dt /\ (0 < dt -> dt' < dt) /\ (0 < dt' -> de' = dmax).
Proof.
  intros HP. induction fuel as [|fuel IH]; intros rs de dt e Hrs Hdt Hf; [lia|].
  cbn [step_envelope_loop].
  destruct (Z.eqb_spec dt 0); [lia|].
  destruct (Z.ltb_spec dt rs); [lia|].
  assert (Hrec : forall de1 e1,
            let '(de', dt', _) :=
              step_envelope_loop fuel P X dmax P de1 (dt - rs) e1 in
            0 <= dt' <= dt /\ (0 < dt -> dt' < dt) /\ (0 < dt' -> de' = dmax)).
  { intros de1 e1. assert (G1 : 0 <= dt - rs) by lia.
    assert (G2 : (Z.to_nat (dt - rs) < fuel)%nat) by lia.
    specialize (IH P de1 (dt - rs) e1 HP G1 G2).
    destruct (step_envelope_loop _ _ _ _ _ _ _ _) as [[de' dt'] e'].
    destruct IH as (A & B & C). split; [lia|]; split; [lia|exact C]. }
  destruct (_ =? X).
  - destruct (negb (dmax =? 0)).
    + destruct (Z.eqb_spec (de + 1) dmax); [|apply Hrec].
      repeat split; lia.
    + apply Hrec.
  - apply Hrec.
Qed.

Lemma rate_step_pos (ri : Z) (e : t) :
  0 <= ri <= 15 -> 0 <= rate_counter e <= 0x7fff ->
  1 <= (if rate_counter e <? tbl rate_counter_period ri
        then tbl rate_counter_period ri - rate_counter e
        else 0x8000 + tbl rate_counter_period ri - rate_counter e).
Proof.
  intros Hi Hrc. pose proof (rate_counter_period_pos ri Hi).
  destruct (Z.ltb_spec (rate_counter e) (tbl rate_counter_period ri)); lia.
Qed.

Lemma step_envelope_remaining (dmax ri xi dt : Z) (e : t) :
  0 <= ri <= 15 -> 0 <= rate_counter e <= 0x7fff -> 0 <= dt ->
  let '(de', dt', _) := step_envelope dmax ri xi dt e in
  0 <= dt' <= dt /\ (0 < dt -> dt' < dt) /\ (0 < dt' -> de' = dmax).
Proof.
  intros Hi Hrc Hdt. unfold step_envelope.
  apply step_envelope_loop_remaining.
  - pose proof (rate_counter_period_pos ri Hi). lia.
  - apply rate_step_pos; assumption.
  - exact Hdt.
  - unfold loop_fuel. lia.
Qed.

Lemma clock_tail_0 (e : t) : clock_tail 0 e = e.
Proof. unfold clock_tail. destruct (State_eqb _ _); reflexivity. Qed.


(** *** Additivity in time *)

Lemma land_0x7fff_mod (x : Z) : Z.land x 0x7fff = x mod 2 ^ 15.
Proof. change 0x7fff with (Z.ones 15). apply Z.land_ones. lia. Qed.

Lemma land_0x7fff_add (x n : Z) :
  Z.land (Z.land x 0x7fff + n) 0x7fff = Z.land (x + n) 0x7fff.
Proof. rewrite !land_0x7fff_mod. apply Z.add_mod_idemp_l. lia. Qed.

(** [step_envelope] does not look at the envelope counter. *)
Lemma step_envelope_loop_set_envelope_counter (P X dmax v : Z) (fuel : nat) :
  forall rs de dt e,
    step_envelope_loop fuel P X dmax rs de dt (set_envelope_counter v e) =
    let '(d, t, e') := step_envelope_loop fuel P X dmax rs de dt e in
    (d, t, set_envelope_counter v e').
Proof.
  induction fuel as [|fuel IH]; intros rs de dt e; cbn [step_envelope_loop].
  - reflexivity.
  - destruct (dt =? 0); [reflexivity|].
    destruct (dt <? rs); [reflexivity|].
    env_simpl. destruct (exponential_counter e + 1 =? X).
    + destruct (negb (dmax =? 0)).
      * destruct (de + 1 =? dmax); [reflexivity|]. apply (IH P (de + 1) (dt - rs) (set_exponential_counter 0 (set_rate_counter 0 e))).
      * apply (IH P de (dt - rs) (set_exponential_counter 0 (set_rate_counter 0 e))).
    + apply (IH P de (dt - rs)
               (set_exponential_counter (exponential_counter e + 1)
                  (set_rate_counter 0 e))).
Qed.

(** Counting from [de + k] up to [dmax] is counting from [de] up to
    [dmax - k]. *)
Lemma step_envelope_loop_shift (P X dmax k : Z) (fuel : nat) :
  dmax <> 0 -> dmax - k <> 0 ->
  forall rs de dt e,
    step_envelope_loop fuel P X dmax rs (de + k) dt e =
    let '(d, t, e') := step_envelope_loop fuel P X (dmax - k) rs de dt e in
    (d + k, t, e').
Proof.
  intros H1 H2.
  induction fuel as [|fuel IH]; intros rs de dt e; cbn [step_envelope_loop].
  - reflexivity.
  - destruct (dt =? 0); [reflexivity|].
    destruct (dt <? rs); [reflexivity|].
    destruct (_ =? X); [|apply IH].
    destruct (Z.eqb_spec dmax 0); [contradiction|].
    destruct (Z.eqb_spec (dmax - k) 0); [contradiction|]. cbn [negb].
    destruct (Z.eqb_spec (de + k + 1) dmax), (Z.eqb_spec (de + 1) (dmax - k));
      try lia.
    + f_equal. f_equal. lia.
    + replace (de + k + 1) with (de + 1 + k) by lia. apply IH.
Qed.


Lemma rate_step_ge_1 (P rc : Z) :
  1 <= P -> 0 <= rc <= 0x7fff -> 1 <= rate_step P rc.
Proof. intros. unfold rate_step. destruct (Z.ltb_spec rc P); lia. Qed.

Lemma rate_step_succ (P rc : Z) :
  1 <= P <= 0x7fff -> 0 <= rc <= 0x7fff -> 1 < rate_step P rc ->
  rate_step P (Z.land (rc + 1) 0x7fff) = rate_step P rc - 1.
Proof.
  intros HP Hrc. unfold rate_step.
  destruct (Z.eq_dec rc 0x7fff) as [->|Hne].
  - change (Z.land (32767 + 1) 32767) with 0.
    destruct (Z.ltb_spec 32767 P), (Z.ltb_spec 0 P); lia.
  - rewrite land_0x7fff_small by lia.
    destruct (Z.ltb_spec rc P), (Z.ltb_spec (rc + 1) P); lia.
Qed.

Lemma step_envelope_loop_peel_idle (P X dmax : Z) :
  1 <= P ->
  forall f1 f2 rs de n e,
    1 < rs -> 0 <= n ->
    (Z.to_nat (1 + n) < f1)%nat -> (Z.to_nat n < f2)%nat ->
    step_envelope_loop f1 P X dmax rs de (1 + n) e =
    step_envelope_loop f2 P X dmax (rs - 1) de n
      (set_rate_counter (Z.land (rate_counter e + 1) 0x7fff) e).
Proof.
  intros HP f1 f2 rs de n e Hrs Hn H1 H2.
  destruct f1 as [|f1]; [lia|]. destruct f2 as [|f2]; [lia|].
  cbn [step_envelope_loop].
  destruct (Z.eqb_spec (1 + n) 0); [lia|].
  destruct (Z.ltb_spec (1 + n) rs) as [Hlt|Hge].
  - destruct (Z.eqb_spec n 0) as [->|Hnz].
    + rewrite Z.add_0_r. reflexivity.
    + destruct (Z.ltb_spec n (rs - 1)); [|lia].
      env_simpl. rewrite land_0x7fff_add.
      replace (rate_counter e + 1 + n) with (rate_counter e + (1 + n)) by lia.
      reflexivity.
  - destruct (Z.eqb_spec n 0); [lia|].
    destruct (Z.ltb_spec n (rs - 1)); [lia|].
    env_simpl. replace (1 + n - rs) with (n - (rs - 1)) by lia.
    assert (Hf : forall d x,
      step_envelope_loop f1 P X dmax P d (n - (rs - 1)) x =
      step_envelope_loop f2 P X dmax P d (n - (rs - 1)) x)
      by (intros; apply step_envelope_loop_fuel; lia).
    destruct (_ =? X).
    + destruct (negb (dmax =? 0)).
      * destruct (de + 1 =? dmax); [reflexivity|]. apply Hf.
      * apply Hf.
    + apply Hf.
Qed.

Lemma rate_step_0 (P : Z) : 1 <= P -> rate_step P 0 = P.
Proof. intros. unfold rate_step. destruct (Z.ltb_spec 0 P); lia. Qed.

Lemma step_envelope_unfold (dmax ri xi dt : Z) (e : t) :
  step_envelope dmax ri xi dt e =
  step_envelope_loop (loop_fuel dt) (tbl rate_counter_period ri)
    (tbl exponential_counter_period xi) dmax
    (rate_step (tbl rate_counter_period ri) (rate_counter e)) 0 dt e.
Proof. reflexivity. Qed.

(** One cycle of [step_envelope]. *)
Lemma step_envelope_1 (dmax ri xi : Z) (e : t) :
  0 <= ri <= 15 -> 0 <= rate_counter e <= 0x7fff ->
  step_envelope dmax ri xi 1 e =
  if 1 <? rate_step (tbl rate_counter_period ri) (rate_counter e) then
    (0, 0, set_rate_counter (Z.land (rate_counter e + 1) 0x7fff) e)
  else if exponential_counter e + 1 =? tbl exponential_counter_period xi then
    (if negb (dmax =? 0) then 1 else 0, 0,
     set_exponential_counter 0 (set_rate_counter 0 e))
  else
    (0, 0, set_exponential_counter (exponential_counter e + 1)
             (set_rate_counter 0 e)).
Proof.
  intros Hri Hrc. rewrite step_envelope_unfold.
  pose proof (rate_counter_period_pos ri Hri) as HP.
  pose proof (rate_step_ge_1 (tbl rate_counter_period ri) (rate_counter e)
                ltac:(lia) Hrc) as Hrs.
  set (rs := rate_step _ _) in *.
  change (loop_fuel 1) with 2%nat. cbn [step_envelope_loop].
  change (1 =? 0) with false. cbv iota.
  destruct (Z.ltb_spec 1 rs); [reflexivity|].
  assert (rs = 1) as -> by lia. change (1 - 1) with 0.
  change (0 =? 0) with true. cbv iota. env_simpl.
  destruct (_ =? tbl exponential_counter_period xi); [|reflexivity].
  destruct (dmax =? 0); cbn [negb]; [reflexivity|].
  change (0 + 1) with 1. destruct (1 =? dmax); reflexivity.
Qed.

(** The first cycle does not reach the comparison value. *)
Lemma step_envelope_peel_idle (dmax ri xi n : Z) (e : t) :
  0 <= ri <= 15 -> 0 <= rate_counter e <= 0x7fff -> 0 <= n ->
  1 < rate_step (tbl rate_counter_period ri) (rate_counter e) ->
  step_envelope dmax ri xi (1 + n) e =
  step_envelope dmax ri xi n
    (set_rate_counter (Z.land (rate_counter e + 1) 0x7fff) e).
Proof.
  intros Hri Hrc Hn Hrs. rewrite !step_envelope_unfold.
  pose proof (rate_counter_period_pos ri Hri) as HP.
  env_simpl. rewrite rate_step_succ by lia.
  apply step_envelope_loop_peel_idle; unfold loop_fuel; lia.
Qed.

(** The first cycle reaches the comparison value; the envelope counter
    does not step. *)
Lemma step_envelope_peel_match_0 (dmax ri xi n : Z) (e : t) :
  0 <= ri <= 15 -> 0 <= rate_counter e <= 0x7fff -> 0 <= n ->
  rate_step (tbl rate_counter_period ri) (rate_counter e) = 1 ->
  (exponential_counter e + 1 =? tbl exponential_counter_period xi)
    && negb (dmax =? 0) = false ->
  step_envelope dmax ri xi (1 + n) e =
  step_envelope dmax ri xi n
    (set_exponential_counter
       (if exponential_counter e + 1 =? tbl exponential_counter_period xi
        then 0 else exponential_counter e + 1)
       (set_rate_counter 0 e)).
Proof.
  intros Hri Hrc Hn Hrs Hx. rewrite !step_envelope_unfold.
  pose proof (rate_counter_period_pos ri Hri) as HP.
  env_simpl. rewrite Hrs, rate_step_0 by lia.
  match goal with |- _ = ?R => set (rhs := R) end.
  unfold loop_fuel. cbn [step_envelope_loop].
  destruct (Z.eqb_spec (1 + n) 0); [lia|].
  destruct (Z.ltb_spec (1 + n) 1); [lia|].
  replace (1 + n - 1) with n by lia. env_simpl. subst rhs.
  destruct (_ =? tbl exponential_counter_period xi).
  - cbn [andb] in Hx. rewrite Hx.
    apply step_envelope_loop_fuel; unfold loop_fuel; lia.
  - apply step_envelope_loop_fuel; unfold loop_fuel; lia.
Qed.

(** The first cycle reaches the comparison value and steps the envelope
    counter. *)
Lemma step_envelope_peel_match_1 (dmax ri xi n : Z) (e : t) :
  0 <= ri <= 15 -> 0 <= rate_counter e <= 0x7fff -> 0 <= n ->
  rate_step (tbl rate_counter_period ri) (rate_counter e) = 1 ->
  exponential_counter e + 1 = tbl exponential_counter_period xi ->
  0 < dmax ->
  step_envelope dmax ri xi (1 + n) e =
  if 1 =? dmax then (1, n, set_exponential_counter 0 (set_rate_counter 0 e))
  else
    let '(d, t, e') :=
      step_envelope (dmax - 1) ri xi n
        (set_exponential_counter 0 (set_rate_counter 0 e)) in
    (d + 1, t, e').
Proof.
  intros Hri Hrc Hn Hrs Hx Hd. rewrite !step_envelope_unfold.
  pose proof (rate_counter_period_pos ri Hri) as HP.
  env_simpl. rewrite Hrs, rate_step_0 by lia.
  match goal with |- _ = ?R => set (rhs := R) end.
  unfold loop_fuel. cbn [step_envelope_loop].
  destruct (Z.eqb_spec (1 + n) 0); [lia|].
  destruct (Z.ltb_spec (1 + n) 1); [lia|].
  replace (1 + n - 1) with n by lia. env_simpl. subst rhs.
  rewrite Hx, Z.eqb_refl.
  destruct (Z.eqb_spec dmax 0); [lia|]. cbn [negb]. change (0 + 1) with 1.
  destruct (Z.eqb_spec 1 dmax); [reflexivity|].
  change 1 with (0 + 1) at 2.
  rewrite step_envelope_loop_shift by lia.
  assert (HP1 : 1 <= tbl rate_counter_period ri) by lia.
  rewrite (step_envelope_loop_fuel _ _ _ HP1 (Z.to_nat (1 + n))
             (loop_fuel n)) by (unfold loop_fuel; lia).
  reflexivity.
Qed.


(** *** The loops of the decay/sustain and release states *)

Lemma decay_sustain_loop_down (fuel : nat) :
  forall dt e,
    decay_sustain_loop fuel dt e = down_loop decay_sustain_params fuel dt e.
Proof.
  induction fuel as [|fuel IH]; intros dt e; cbn [decay_sustain_loop down_loop].
  - reflexivity.
  - destruct (dt =? 0); [reflexivity|].
    unfold decay_sustain_params.
    destruct (step_envelope _ _ _ _ _) as [[d t'] e']. apply IH.
Qed.

Lemma release_loop_down (fuel : nat) :
  forall dt e, release_loop fuel dt e = down_loop release_params fuel dt e.
Proof.
  induction fuel as [|fuel IH]; intros dt e; cbn [release_loop down_loop].
  - reflexivity.
  - destruct (dt =? 0); [reflexivity|].
    unfold release_params.
    destruct (step_envelope _ _ _ _ _) as [[d t'] e']. apply IH.
Qed.

Lemma set_envelope_counter_same (e : t) :
  set_envelope_counter (envelope_counter e) e = e.
Proof. destruct e; reflexivity. Qed.

Lemma set_envelope_counter_twice (a b : Z) (e : t) :
  set_envelope_counter a (set_envelope_counter b e) = set_envelope_counter a e.
Proof. reflexivity. Qed.

Lemma step_envelope_0 (dmax ri xi : Z) (e : t) :
  step_envelope dmax ri xi 0 e = (0, 0, e).
Proof. reflexivity. Qed.

Lemma step_envelope_set_envelope_counter (dmax ri xi dt v : Z) (e : t) :
  step_envelope dmax ri xi dt (set_envelope_counter v e) =
  let '(d, t, e') := step_envelope dmax ri xi dt e in
  (d, t, set_envelope_counter v e').
Proof.
  rewrite !step_envelope_unfold. env_simpl.
  apply step_envelope_loop_set_envelope_counter.
Qed.

(** All that is known of one call of [step_envelope]. *)
Lemma step_envelope_facts (dmax ri xi dt : Z) (e : t) :
  wf e -> 0 <= dmax -> 0 <= ri <= 15 -> 0 <= dt ->
  let '(de, dt', e') := step_envelope dmax ri xi dt e in
  0 <= de <= dmax /\ counters_ok e' /\ same_registers e e' /\
  0 <= dt' <= dt /\ (0 < dt -> dt' < dt).
Proof.
  intros Hw Hd Hri Hdt.
  pose proof (step_envelope_inv dmax ri xi dt e (wf_counters_ok e Hw) Hd) as A.
  pose proof (step_envelope_remaining dmax ri xi dt e Hri
                (wf_rate_counter e Hw) Hdt) as B.
  destruct (step_envelope dmax ri xi dt e) as [[de dt'] e'].
  destruct A as (A1 & A2 & A3), B as (B1 & B2 & B3).
  split; [exact A1|]. split; [exact A2|]. split; [exact A3|].
  split; [exact B1|exact B2].
Qed.

Section DownLoop.
Variable params : t -> Z * Z * Z.
Variable Q : t -> Prop.
Hypothesis SP : steady_params params Q.

(** One turn of the loop keeps [Q] and takes cycles off [delta_t]. *)
Lemma down_loop_turn (dt : Z) (e : t) :
  Q e -> 0 <= dt ->
  let '(de, dt', e') :=
    step_envelope (fst (fst (params e))) (snd (fst (params e)))
      (snd (params e)) dt e in
  Q (set_envelope_counter (envelope_counter e' - de) e') /\
  0 <= dt' <= dt /\ (0 < dt -> dt' < dt) /\
  envelope_counter e' = envelope_counter e /\
  Q e' /\ params e' = params e /\ 0 <= de <= fst (fst (params e)).
Proof.
  intros HQ Hdt.
  pose proof (sp_range _ _ SP e HQ) as [R1 R2].
  pose proof (step_envelope_facts (fst (fst (params e))) (snd (fst (params e)))
                (snd (params e)) dt e (sp_wf _ _ SP e HQ) ltac:(lia) R2 Hdt) as F.
  destruct (step_envelope _ _ _ dt e) as [[de dt'] e'].
  destruct F as (F1 & F2 & F3 & F4 & F5).
  destruct (sp_counters _ _ SP e e' HQ F2 F3) as [Q' P'].
  split.
  - apply (sp_down _ _ SP); [exact Q'|]. rewrite P'. exact F1.
  - split; [exact F4|]. split; [exact F5|]. split; [apply F3|].
    split; [exact Q'|]. split; [exact P'|exact F1].
Qed.

Lemma down_loop_fuel :
  forall f1 f2 dt e,
    Q e -> 0 <= dt -> (Z.to_nat dt < f1)%nat -> (Z.to_nat dt < f2)%nat ->
    down_loop params f1 dt e = down_loop params f2 dt e.
Proof.
  induction f1 as [|f1 IH]; intros f2 dt e HQ Hdt H1 H2; [lia|].
  destruct f2 as [|f2]; [lia|]. cbn [down_loop].
  destruct (Z.eqb_spec dt 0); [reflexivity|].
  pose proof (down_loop_turn dt e HQ Hdt) as T.
  destruct (params e) as [[dmax ri] xi]. cbn [fst snd] in T.
  destruct (step_envelope dmax ri xi dt e) as [[de dt'] e'].
  destruct T as (T1 & T2 & T3 & _).
  apply IH; try assumption; lia.
Qed.

Lemma down_loop_Q :
  forall f dt e, Q e -> 0 <= dt -> Q (down_loop params f dt e).
Proof.
  induction f as [|f IH]; intros dt e HQ Hdt; cbn [down_loop]; [exact HQ|].
  destruct (Z.eqb_spec dt 0); [exact HQ|].
  pose proof (down_loop_turn dt e HQ Hdt) as T.
  destruct (params e) as [[dmax ri] xi]. cbn [fst snd] in T.
  destruct (step_envelope dmax ri xi dt e) as [[de dt'] e'].
  destruct T as (T1 & T2 & T3 & _).
  apply IH; [assumption|lia].
Qed.

Lemma down_run_0 (e : t) : down_run params 0 e = e.
Proof. reflexivity. Qed.

Lemma down_run_unfold (dt : Z) (e : t) :
  Q e -> 0 < dt ->
  down_run params dt e =
  let '(de, dt', e') :=
    step_envelope (fst (fst (params e))) (snd (fst (params e)))
      (snd (params e)) dt e in
  down_run params dt' (set_envelope_counter (envelope_counter e' - de) e').
Proof.
  intros HQ Hdt. unfold down_run at 1. unfold loop_fuel. cbn [down_loop].
  destruct (Z.eqb_spec dt 0); [lia|].
  pose proof (down_loop_turn dt e HQ ltac:(lia)) as T.
  destruct (params e) as [[dmax ri] xi]. cbn [fst snd] in *.
  destruct (step_envelope dmax ri xi dt e) as [[de dt'] e'].
  destruct T as (T1 & T2 & T3 & _).
  apply down_loop_fuel; try assumption; unfold loop_fuel; lia.
Qed.

(** The rest of the loop after a first cycle that did not step the
    envelope counter. *)
Lemma down_run_rest (n : Z) (e1 : t) :
  Q e1 -> 0 <= n ->
  (let '(de, dt', e') :=
     step_envelope (fst (fst (params e1))) (snd (fst (params e1)))
       (snd (params e1)) n e1 in
   down_run params dt' (set_envelope_counter (envelope_counter e' - de) e')) =
  down_run params n (set_envelope_counter (envelope_counter e1 - 0) e1).
Proof.
  intros HQ Hn. rewrite Z.sub_0_r, set_envelope_counter_same.
  destruct (Z.eq_dec n 0) as [->|Hnz].
  - rewrite step_envelope_0, down_run_0, Z.sub_0_r.
    apply set_envelope_counter_same.
  - rewrite (down_run_unfold n e1 HQ) by lia. reflexivity.
Qed.

(** One cycle, then the rest. *)
Lemma down_run_peel (n : Z) (e : t) :
  Q e -> 0 <= n -> down_run params (1 + n) e = down_run params n (down_run params 1 e).
Proof.
  intros HQ Hn.
  pose proof (sp_wf _ _ SP e HQ) as Hw.
  pose proof (sp_range _ _ SP e HQ) as [R1 R2].
  pose proof (wf_rate_counter e Hw) as Hrc.
  pose proof (rate_counter_period_pos _ R2) as HP.
  rewrite (down_run_unfold (1 + n) e HQ) by lia.
  rewrite (down_run_unfold 1 e HQ) by lia.
  pose proof (sp_step _ _ SP e HQ) as Hstep.
  pose proof (sp_down _ _ SP e 1 HQ) as Hdown.
  assert (Hc : forall e1, counters_ok e1 -> same_registers e e1 ->
                 Q e1 /\ params e1 = params e)
    by (intros e1 C S; apply (sp_counters _ _ SP e e1 HQ C S)).
  destruct (params e) as [[dmax ri] xi] eqn:Hp. cbn [fst snd] in *.
  rewrite step_envelope_1 by assumption.
  pose proof (rate_step_ge_1 (tbl rate_counter_period ri) (rate_counter e)
                ltac:(lia) Hrc) as Hrs.
  assert (Hsame : forall rc x,
            same_registers e (set_exponential_counter x (set_rate_counter rc e)))
    by (intros; unfold same_registers; env_simpl; repeat split).
  assert (Hsame' : forall rc, same_registers e (set_rate_counter rc e))
    by (intros; unfold same_registers; env_simpl; repeat split).
  destruct (Z.ltb_spec 1 (rate_step (tbl rate_counter_period ri) (rate_counter e)))
    as [Hidle|Hmatch].
  - (* no match *)
    rewrite step_envelope_peel_idle by (assumption || lia).
    set (e1 := set_rate_counter (Z.land (rate_counter e + 1) 32767) e).
    destruct (Hc e1) as [Q1 P1].
    { unfold counters_ok, e1. env_simpl.
      pose proof (land_0x7fff_range (rate_counter e + 1)).
      pose proof (wf_exponential_counter e Hw). lia. }
    { apply Hsame'. }
    rewrite down_run_0. rewrite <- (down_run_rest n e1 Q1 Hn).
    rewrite P1. reflexivity.
  - assert (Hrs1 : rate_step (tbl rate_counter_period ri) (rate_counter e) = 1)
      by lia.
    destruct (Z.eqb_spec (exponential_counter e + 1)
                (tbl exponential_counter_period xi)) as [Hx|Hx].
    + destruct (Z.eqb_spec dmax 0) as [Hz|Hnz]; cbn [negb].
      * (* match, no step allowed *)
        assert (Hx0 : (exponential_counter e + 1
                         =? tbl exponential_counter_period xi)
                      && negb (dmax =? 0) = false)
          by (subst dmax; apply andb_false_r).
        rewrite (step_envelope_peel_match_0 dmax ri xi n e R2 Hrc Hn Hrs1 Hx0).
        rewrite Hx, Z.eqb_refl.
        set (e1 := set_exponential_counter 0 (set_rate_counter 0 e)).
        destruct (Hc e1) as [Q1 P1].
        { unfold counters_ok, e1. env_simpl. lia. }
        { apply Hsame. }
        rewrite down_run_0. rewrite <- (down_run_rest n e1 Q1 Hn).
        rewrite P1. reflexivity.
      * (* match and step *)
        rewrite (step_envelope_peel_match_1 dmax ri xi n e R2 Hrc Hn Hrs1 Hx
                   ltac:(lia)).
        set (e2 := set_exponential_counter 0 (set_rate_counter 0 e)).
        destruct (Hc e2) as [Q2 P2].
        { unfold counters_ok, e2. env_simpl. lia. }
        { apply Hsame. }
        rewrite down_run_0.
        destruct (Z.eqb_spec 1 dmax) as [H1|H1]; [reflexivity|].
        assert (Ec : envelope_counter e2 = envelope_counter e) by reflexivity.
        set (eC := set_envelope_counter (envelope_counter e2 - 1) e2).
        assert (QC : Q eC).
        { apply (sp_down _ _ SP e2 1 Q2). rewrite P2. cbn [fst snd]. lia. }
        assert (PC : params eC = (dmax - 1, ri, xi)).
        { pose proof (sp_step _ _ SP e2 Q2) as S2. rewrite P2 in S2.
          cbn [fst snd] in S2. apply S2. lia. }
        destruct (Z.eq_dec n 0) as [->|Hnz0].
        -- rewrite step_envelope_0, !down_run_0. rewrite Z.add_0_l. reflexivity.
        -- rewrite (down_run_unfold n eC QC) by lia. rewrite PC. cbn [fst snd].
           unfold eC at 1. rewrite step_envelope_set_envelope_counter.
           pose proof (step_envelope_facts (dmax - 1) ri xi n e2
                         (sp_wf _ _ SP e2 Q2) ltac:(lia) R2 Hn) as F.
           destruct (step_envelope (dmax - 1) ri xi n e2) as [[d t'] e'].
           destruct F as (_ & _ & (F & _) & _).
           env_simpl. f_equal. unfold set_envelope_counter. env_simpl.
           f_equal. lia.
    + (* match, the exponential counter goes on *)
      assert (Hx0 : (exponential_counter e + 1
                       =? tbl exponential_counter_period xi)
                    && negb (dmax =? 0) = false).
      { destruct (Z.eqb_spec (exponential_counter e + 1)
                    (tbl exponential_counter_period xi)); [contradiction|].
        reflexivity. }
      rewrite (step_envelope_peel_match_0 dmax ri xi n e R2 Hrc Hn Hrs1 Hx0).
      destruct (Z.eqb_spec (exponential_counter e + 1)
                  (tbl exponential_counter_period xi)); [contradiction|].
      set (e1 := set_exponential_counter (exponential_counter e + 1)
                   (set_rate_counter 0 e)).
      destruct (Hc e1) as [Q1 P1].
      { unfold counters_ok, e1. env_simpl.
        pose proof (wf_exponential_counter e Hw). lia. }
      { apply Hsame. }
      rewrite down_run_0. rewrite <- (down_run_rest n e1 Q1 Hn).
      rewrite P1. reflexivity.
Qed.

End DownLoop.


(** *** The two loops are steady *)

Lemma segment_stable (ec : Z) :
  0 <= ec <= 255 ->
  tbl exponential_counter_level (tbl exponential_counter_segment ec) < ec - 1 ->
  tbl exponential_counter_segment (ec - 1) = tbl exponential_counter_segment ec.
Proof.
  intros H.
  pose proof (forall_below_256
    (fun z => negb (tbl exponential_counter_level
                      (tbl exponential_counter_segment z) <? z - 1)
              || (tbl exponential_counter_segment (z - 1)
                  =? tbl exponential_counter_segment z))
    ltac:(vm_compute; reflexivity) ec H) as G.
  cbv beta in G. intros L. apply orb_true_iff in G. destruct G as [G|G].
  - apply negb_true_iff in G. apply Z.ltb_ge in G. lia.
  - apply Z.eqb_eq in G. exact G.
Qed.

Lemma release_params_steady : steady_params release_params wf.
Proof.
  constructor.
  - intros e H. exact H.
  - intros e e' Hw Hc Hs. split; [apply (same_registers_wf e e' Hw Hc Hs)|].
    destruct Hs as (A & B & C & D & E & F & G).
    unfold release_params. rewrite A, E. reflexivity.
  - intros e Hw. unfold release_params. cbn [fst snd].
    pose proof (segment_level_bounds _ (wf_envelope_counter e Hw)).
    pose proof (wf_release e Hw). lia.
  - intros e de Hw Hde. unfold release_params in Hde. cbn [fst snd] in Hde.
    pose proof (segment_level_bounds _ (wf_envelope_counter e Hw)).
    pose proof (wf_envelope_counter e Hw).
    apply wf_set_envelope_counter; [exact Hw|lia].
  - intros e Hw. unfold release_params. cbn [fst snd]. env_simpl. intros H.
    rewrite segment_stable by (try apply (wf_envelope_counter e Hw); lia).
    f_equal. f_equal. lia.
Qed.

Lemma decay_sustain_params_eq (e : t) :
  above_sustain e ->
  decay_sustain_params e =
  (envelope_counter e
   - Z.max (tbl exponential_counter_level
              (tbl exponential_counter_segment (envelope_counter e)))
           (tbl sustain_level (sustain e)),
   decay e, tbl exponential_counter_segment (envelope_counter e)).
Proof.
  intros [Hw Hs]. unfold decay_sustain_params.
  pose proof (segment_level_bounds _ (wf_envelope_counter e Hw)) as Hl.
  set (l := tbl exponential_counter_level _) in *.
  set (u := tbl sustain_level _) in *.
  destruct (Z.ltb_spec l u).
  - rewrite Z.max_r by lia. destruct (Z.ltb_spec (envelope_counter e - u) 0);
      [lia|reflexivity].
  - rewrite Z.max_l by lia. destruct (Z.ltb_spec (envelope_counter e - l) 0);
      [lia|reflexivity].
Qed.

Lemma decay_sustain_params_steady :
  steady_params decay_sustain_params above_sustain.
Proof.
  constructor.
  - intros e [H _]. exact H.
  - intros e e' [Hw Hs] Hc Hr.
    pose proof (same_registers_wf e e' Hw Hc Hr) as Hw'.
    destruct Hr as (A & B & C & D & E & F & G).
    split; [split; [exact Hw'|rewrite A, D; exact Hs]|].
    unfold decay_sustain_params. rewrite A, C, D. reflexivity.
  - intros e HQ. rewrite decay_sustain_params_eq by exact HQ. cbn [fst snd].
    destruct HQ as [Hw Hs].
    pose proof (segment_level_bounds _ (wf_envelope_counter e Hw)).
    pose proof (wf_decay e Hw). lia.
  - intros e de HQ Hde. rewrite decay_sustain_params_eq in Hde by exact HQ.
    cbn [fst snd] in Hde. destruct HQ as [Hw Hs].
    pose proof (segment_level_bounds _ (wf_envelope_counter e Hw)).
    pose proof (wf_envelope_counter e Hw).
    split; [apply wf_set_envelope_counter; [exact Hw|lia]|]. env_simpl. lia.
  - intros e HQ. rewrite decay_sustain_params_eq by exact HQ. cbn [fst snd].
    intros H.
    assert (HQ' : above_sustain
                    (set_envelope_counter (envelope_counter e - 1) e)).
    { destruct HQ as [Hw Hs].
      pose proof (wf_envelope_counter e Hw).
      pose proof (segment_level_bounds _ (wf_envelope_counter e Hw)).
      split; [apply wf_set_envelope_counter; [exact Hw|lia]|]. env_simpl. lia. }
    rewrite decay_sustain_params_eq by exact HQ'. env_simpl.
    destruct HQ as [Hw Hs].
    rewrite segment_stable by (try apply (wf_envelope_counter e Hw); lia).
    f_equal. f_equal. lia.
Qed.

Lemma clock_tail_release (dt : Z) (e : t) :
  state e = RELEASE -> clock_tail dt e = down_run release_params dt e.
Proof.
  intros H. unfold clock_tail, down_run. rewrite H. cbn [State_eqb].
  apply release_loop_down.
Qed.

Lemma clock_tail_decay_sustain (dt : Z) (e : t) :
  state e = DECAY_SUSTAIN ->
  clock_tail dt e = down_run decay_sustain_params dt e.
Proof.
  intros H. unfold clock_tail, down_run. rewrite H. cbn [State_eqb].
  apply decay_sustain_loop_down.
Qed.

Lemma clock_not_attack (dt : Z) (e : t) :
  state e <> ATTACK -> clock dt e = clock_tail dt e.
Proof.
  intros H. unfold clock. destruct (state e); [contradiction| |]; reflexivity.
Qed.


Lemma clock_attack_unfold (dt : Z) (e : t) :
  state e = ATTACK ->
  clock dt e =
  let '(delta_envelope, delta_t1, e1) :=
    step_envelope (0xff - envelope_counter e) (attack e) 0 dt e in
  let e2 := set_envelope_counter (envelope_counter e1 + delta_envelope) e1 in
  if negb (envelope_counter e2 =? 0xff) then e2
  else clock_tail delta_t1 (set_state DECAY_SUSTAIN e2).
Proof. intros H. unfold clock. rewrite H. reflexivity. Qed.

Lemma settled_clock (dt : Z) (e : t) :
  settled e -> 0 <= dt -> settled (clock dt e).
Proof.
  intros (Hw & Ha & Hd) Hdt.
  pose proof (clock_inv dt e Hw) as (W & _ & _ & _).
  split; [exact W|].
  destruct (state e) eqn:Hst.
  - rewrite clock_attack_unfold by exact Hst.
    pose proof (wf_envelope_counter e Hw) as Hec.
    pose proof (step_envelope_facts (0xff - envelope_counter e) (attack e) 0 dt e
                  Hw ltac:(lia) (wf_attack e Hw) Hdt) as F.
    destruct (step_envelope _ (attack e) 0 dt e) as [[de dt'] e'].
    destruct F as (F1 & F2 & F3 & F4 & F5).
    pose proof (same_registers_wf e e' Hw F2 F3) as Hw'.
    destruct F3 as (C1 & C2 & C3 & C4 & C5 & C6 & C7).
    cbv zeta. env_simpl.
    destruct (Z.eqb_spec (envelope_counter e' + de) 255) as [E|E]; cbn [negb].
    + set (eD := set_state DECAY_SUSTAIN
                   (set_envelope_counter (envelope_counter e' + de) e')).
      assert (QD : above_sustain eD).
      { split.
        - apply wf_set_state, wf_set_envelope_counter; [exact Hw'|lia].
        - unfold eD. env_simpl.
          pose proof (sustain_level_bounds (sustain e')). lia. }
      rewrite clock_tail_decay_sustain by reflexivity.
      pose proof (down_loop_Q _ _ decay_sustain_params_steady (loop_fuel dt')
                    dt' eD QD ltac:(lia)) as [_ G].
      pose proof (clock_tail_inv dt' eD (proj1 QD)) as (_ & _ & S).
      rewrite clock_tail_decay_sustain in S by reflexivity.
      fold (down_run decay_sustain_params dt' eD) in G.
      split; [intros X; rewrite S in X; discriminate|]. intros _. exact G.
    + env_simpl. rewrite C7, Hst. split; [intros _; lia|discriminate].
  - rewrite clock_not_attack by (rewrite Hst; discriminate).
    pose proof (clock_tail_inv dt e Hw) as (_ & _ & S).
    rewrite S, Hst. split; [discriminate|]. intros _.
    rewrite clock_tail_decay_sustain by exact Hst.
    apply (down_loop_Q _ _ decay_sustain_params_steady (loop_fuel dt) dt e
             (conj Hw (Hd eq_refl)) Hdt).
  - rewrite clock_not_attack by (rewrite Hst; discriminate).
    pose proof (clock_tail_inv dt e Hw) as (_ & _ & S).
    rewrite S, Hst. split; discriminate.
Qed.

(** One cycle of [clock], then the rest. *)
Lemma clock_peel (n : Z) (e : t) :
  settled e -> 0 <= n -> clock (1 + n) e = clock n (clock 1 e).
Proof.
  intros (Hw & Ha & Hd) Hn.
  destruct (state e) eqn:Hst.
  - (* attack *)
    specialize (Ha eq_refl).
    pose proof (wf_envelope_counter e Hw) as Hec.
    pose proof (wf_attack e Hw) as Hat.
    pose proof (wf_rate_counter e Hw) as Hrc.
    pose proof (rate_counter_period_pos _ Hat) as HP.
    rewrite (clock_attack_unfold (1 + n) e Hst).
    rewrite (clock_attack_unfold 1 e Hst).
    rewrite step_envelope_1 by assumption.
    pose proof (rate_step_ge_1 (tbl rate_counter_period (attack e))
                  (rate_counter e) ltac:(lia) Hrc) as Hrs.
    assert (Hsame : forall e1, same_registers e e1 ->
              set_envelope_counter (envelope_counter e1 + 0) e1 = e1 /\
              (envelope_counter e1 =? 255) = false /\
              state e1 = ATTACK /\
              0xff - envelope_counter e1 = 0xff - envelope_counter e /\
              attack e1 = attack e).
    { intros e1 (A & B & C & D & E & F & G).
      rewrite Z.add_0_r, set_envelope_counter_same, A.
      repeat split; try congruence. apply Z.eqb_neq. lia. }
    destruct (Z.ltb_spec 1 (rate_step (tbl rate_counter_period (attack e))
                              (rate_counter e))) as [Hidle|Hmatch].
    + rewrite step_envelope_peel_idle by (assumption || lia).
      set (e1 := set_rate_counter (Z.land (rate_counter e + 1) 32767) e).
      destruct (Hsame e1) as (S1 & S2 & S3 & S4 & S5).
      { unfold same_registers, e1. env_simpl. repeat split. }
      cbv zeta. rewrite S1, S2. cbn [negb].
      rewrite (clock_attack_unfold n e1 S3). rewrite S4, S5. reflexivity.
    + assert (Hrs1 : rate_step (tbl rate_counter_period (attack e))
                       (rate_counter e) = 1) by lia.
      change (tbl exponential_counter_period 0) with 1.
      destruct (Z.eqb_spec (exponential_counter e + 1) 1) as [Hx|Hx].
      * destruct (Z.eqb_spec (255 - envelope_counter e) 0); [lia|]. cbn [negb].
        assert (Hpos : 0 < 255 - envelope_counter e) by lia.
        rewrite (step_envelope_peel_match_1 (255 - envelope_counter e)
                   (attack e) 0 n e Hat Hrc Hn Hrs1 Hx Hpos).
        set (e2 := set_exponential_counter 0 (set_rate_counter 0 e)).
        assert (Ec : envelope_counter e2 = envelope_counter e) by reflexivity.
        destruct (Z.eqb_spec 1 (255 - envelope_counter e)) as [H1|H1].
        -- (* the counter reaches 0xFF *)
           cbv zeta. env_simpl. rewrite Ec.
           replace (envelope_counter e + 1) with 255 by lia.
           change (255 =? 255) with true. cbn [negb].
           rewrite clock_tail_0.
           rewrite clock_not_attack by (env_simpl; discriminate). reflexivity.
        -- cbv zeta. env_simpl. rewrite Ec.
           destruct (Z.eqb_spec (envelope_counter e + 1) 255); [lia|]. cbn [negb].
           set (eA := set_envelope_counter (envelope_counter e + 1) e2).
           rewrite (clock_attack_unfold n eA Hst).
           unfold eA at 1 2 3. env_simpl.
           replace (255 - (envelope_counter e + 1))
             with (255 - envelope_counter e - 1) by lia.
           change (attack e2) with (attack e).
           rewrite step_envelope_set_envelope_counter.
           pose proof (step_envelope_facts (255 - envelope_counter e - 1)
                         (attack e) 0 n e2) as F.
           destruct (step_envelope (255 - envelope_counter e - 1) (attack e) 0 n e2)
             as [[d t'] e'].
           assert (Hw2 : wf e2).
           { apply (same_registers_wf e e2 Hw).
             - unfold counters_ok, e2. env_simpl. lia.
             - unfold same_registers, e2. env_simpl. repeat split. }
           destruct (F Hw2 ltac:(lia) Hat Hn) as (_ & _ & (F3 & _) & _).
           cbv zeta. env_simpl. rewrite F3, Ec.
           replace (envelope_counter e + (d + 1))
             with (envelope_counter e + 1 + d) by lia.
           reflexivity.
      * assert (Hx0 : (exponential_counter e + 1 =? tbl exponential_counter_period 0)
                      && negb (255 - envelope_counter e =? 0) = false).
        { change (tbl exponential_counter_period 0) with 1.
          destruct (Z.eqb_spec (exponential_counter e + 1) 1); [contradiction|].
          reflexivity. }
        rewrite (step_envelope_peel_match_0 (255 - envelope_counter e)
                   (attack e) 0 n e Hat Hrc Hn Hrs1 Hx0).
        change (tbl exponential_counter_period 0) with 1.
        destruct (Z.eqb_spec (exponential_counter e + 1) 1); [contradiction|].
        set (e1 := set_exponential_counter (exponential_counter e + 1)
                     (set_rate_counter 0 e)).
        destruct (Hsame e1) as (S1 & S2 & S3 & S4 & S5).
        { unfold same_registers, e1. env_simpl. repeat split. }
        cbv zeta. rewrite S1, S2. cbn [negb].
        rewrite (clock_attack_unfold n e1 S3). rewrite S4, S5. reflexivity.
  - (* decay/sustain *)
    specialize (Hd eq_refl).
    assert (S1 : state (clock 1 e) = DECAY_SUSTAIN).
    { pose proof (clock_inv 1 e Hw) as (_ & _ & _ & D).
      rewrite <- Hst. apply D. rewrite Hst. discriminate. }
    rewrite (clock_not_attack n (clock 1 e)) by (rewrite S1; discriminate).
    rewrite (clock_tail_decay_sustain n (clock 1 e) S1).
    rewrite !clock_not_attack by (rewrite Hst; discriminate).
    rewrite !clock_tail_decay_sustain by exact Hst.
    apply (down_run_peel _ _ decay_sustain_params_steady n e (conj Hw Hd) Hn).
  - (* release *)
    assert (S1 : state (clock 1 e) = RELEASE).
    { pose proof (clock_inv 1 e Hw) as (_ & _ & _ & D).
      rewrite <- Hst. apply D. rewrite Hst. discriminate. }
    rewrite (clock_not_attack n (clock 1 e)) by (rewrite S1; discriminate).
    rewrite (clock_tail_release n (clock 1 e) S1).
    rewrite !clock_not_attack by (rewrite Hst; discriminate).
    rewrite !clock_tail_release by exact Hst.
    apply (down_run_peel _ _ release_params_steady n e Hw Hn).
Qed.

Lemma clock_0 (e : t) : settled e -> clock 0 e = e.
Proof.
  intros (Hw & Ha & Hd). destruct (state e) eqn:Hst.
  - rewrite clock_attack_unfold by exact Hst. rewrite step_envelope_0.
    cbv zeta. rewrite Z.add_0_r, set_envelope_counter_same.
    destruct (Z.eqb_spec (envelope_counter e) 255); [specialize (Ha eq_refl); lia|].
    reflexivity.
  - rewrite clock_not_attack by (rewrite Hst; discriminate). apply clock_tail_0.
  - rewrite clock_not_attack by (rewrite Hst; discriminate). apply clock_tail_0.
Qed.

(** The envelope generator is additive in time. *)
Lemma envelope_clock_additive (a b : Z) (e : t) :
  settled e -> 0 <= a -> 0 <= b -> clock b (clock a e) = clock (a + b) e.
Proof.
  intros Hs Ha Hb. revert e Hs.
  pattern a. apply natlike_ind; [| |exact Ha].
  - intros e Hs. rewrite clock_0 by exact Hs. reflexivity.
  - intros x Hx IH e Hs.
    replace (Z.succ x) with (1 + x) by lia.
    replace (1 + x + b) with (1 + (x + b)) by lia.
    rewrite !clock_peel by (assumption || lia).
    apply IH. apply settled_clock; [exact Hs|lia].
Qed.




End EnvelopeFacts.

(* ------------------------------------------------------------------ *)
(** ** The waveform generator *)

Module WaveformFacts.
Import WaveformGenerator WaveformOps.

Lemma shift_once_eq (sr : Z) :
  0 <= sr < 2 ^ 23 ->
  shift_once sr =
  2 * (sr mod 2 ^ 22)
  + Z.land (Z.lxor (Z.shiftr sr 22) (Z.shiftr sr 17)) 1.
Proof.
  intros H. unfold shift_once.
  set (b := Z.land (Z.lxor (Z.shiftr sr 22) (Z.shiftr sr 17)) 1).
  assert (Hx : Z.land (u32 (Z.shiftl sr 1)) 0x7fffff = 2 * (sr mod 2 ^ 22)).
  { unfold u32. rewrite Z.shiftl_mul_pow2 by lia.
    change (2 ^ 1) with 2.
    rewrite (Z.mod_small (sr * 2)) by (change (2 ^ 23) with 8388608 in H; change (2 ^ 32) with 4294967296; lia).
    change 0x7fffff with (Z.ones 23). rewrite Z.land_ones by lia.
    replace (sr * 2) with (2 * sr) by lia.
    change (2 ^ 23) with (2 * 2 ^ 22).
    apply Z.mul_mod_distr_l; lia. }
  rewrite Hx.
  rewrite <- (Z.add_lor_land (2 * (sr mod 2 ^ 22)) b).
  assert (Hz : Z.land (2 * (sr mod 2 ^ 22)) b = 0).
  { unfold b. rewrite (Z.land_comm (Z.lxor _ _) 1), Z.land_assoc.
    change 1 with (Z.ones 1) at 1. rewrite Z.land_ones by lia.
    change (2 ^ 1) with 2.
    rewrite Z.mul_comm, Z.mod_mul by lia. apply Z.land_0_l. }
  rewrite Hz. lia.
Qed.

Lemma land_1_range (x : Z) : 0 <= Z.land x 1 <= 1.
Proof.
  change 1 with (Z.ones 1) at 1 2. rewrite Z.land_ones by lia.
  change (2 ^ 1) with 2. pose proof (Z.mod_pos_bound x 2 ltac:(lia)). lia.
Qed.

Lemma shift_once_range (sr : Z) :
  0 <= sr < 2 ^ 23 -> 0 <= shift_once sr < 2 ^ 23.
Proof.
  intros H. rewrite shift_once_eq by exact H.
  pose proof (land_1_range (Z.lxor (Z.shiftr sr 22) (Z.shiftr sr 17))).
  pose proof (Z.mod_pos_bound sr (2 ^ 22) ltac:(lia)).
  change (2 ^ 23) with 8388608 in *. change (2 ^ 22) with 4194304 in *. lia.
Qed.

Lemma shift_once_nonzero (sr : Z) :
  0 < sr < 2 ^ 23 -> 0 < shift_once sr < 2 ^ 23.
Proof.
  intros H. pose proof (shift_once_range sr ltac:(lia)) as R.
  split; [|apply R].
  rewrite shift_once_eq by lia.
  pose proof (land_1_range (Z.lxor (Z.shiftr sr 22) (Z.shiftr sr 17))) as Hb.
  pose proof (Z.mod_pos_bound sr (2 ^ 22) ltac:(lia)) as Hm.
  destruct (Z.eq_dec (sr mod 2 ^ 22) 0) as [Hz|Hnz]; [|lia].
  assert (Hsr : sr = 2 ^ 22).
  { pose proof (Z.div_mod sr (2 ^ 22) ltac:(lia)) as Hd. rewrite Hz in Hd.
    assert (0 <= sr / 2 ^ 22 < 2).
    { split; [apply Z.div_pos; lia|].
      apply Z.div_lt_upper_bound; [lia|]. change (2 ^ 22 * 2) with (2 ^ 23). lia. }
    assert (sr / 2 ^ 22 = 0 \/ sr / 2 ^ 22 = 1) as [E|E] by lia;
      rewrite E in Hd; lia. }
  subst sr. vm_compute. reflexivity.
Qed.

Lemma repeat_shift_nonzero (n : nat) (sr : Z) :
  0 < sr < 2 ^ 23 -> 0 < repeat_fn shift_once n sr < 2 ^ 23.
Proof.
  revert sr. induction n as [|n IH]; intros sr H; cbn [repeat_fn].
  - exact H.
  - apply IH, shift_once_nonzero, H.
Qed.

Lemma live_apply (o : op) (w : t) :
  writes_test false o -> live w -> live (apply o w).
Proof.
  intros Ho [Ht Hs]. destruct o; cbn [apply writes_test] in *.
  - unfold clock. rewrite Ht. split; cbn [test shift_register]; [reflexivity|].
    apply repeat_shift_nonzero, Hs.
  - unfold synchronize. destruct (sync w && source_msb_rising); split; assumption.
  - split; assumption.
  - split; assumption.
  - split; assumption.
  - split; assumption.
  - unfold writeCONTROL_REG. rewrite Ho, Ht. split; cbn [test shift_register]; auto.
Qed.

Lemma live_run (os : list op) (w : t) :
  Forall (writes_test false) os -> live w -> live (run os w).
Proof.
  unfold run. revert w. induction os as [|o os IH]; intros w Hos Hw; cbn [fold_left].
  - exact Hw.
  - inversion Hos; subst. apply IH; [assumption|]. apply live_apply; assumption.
Qed.

(** C5.  A clock step of a waveform generator with [test = 0] that starts
    from a nonzero 23-bit noise register ends with a nonzero 23-bit noise
    register; hence from the reset value 0x7FFFF8, under any history of
    clock steps, synchronizations and register writes that leave the
    test bit clear, the register is never zero. *)
Theorem noise_register_never_zero (w w0 : t) (delta_t : Z) (os : list op) :
  test w = false -> 0 < shift_register w < 2 ^ 23 ->
  Forall (writes_test false) os ->
  shift_register (clock delta_t w) <> 0 /\
  0 < shift_register (clock delta_t w) < 2 ^ 23 /\
  shift_register (reset w0) = 0x7ffff8 /\
  shift_register (run os (reset w0)) <> 0 /\
  0 < shift_register (run os (reset w0)) < 2 ^ 23.
Proof.
  intros Ht Hs Hos.
  assert (L1 : live (apply (Clock delta_t) w))
    by (apply live_apply; [exact I | split; assumption]).
  assert (L2 : live (run os (reset w0))).
  { apply live_run; [assumption|]. split; [reflexivity|].
    cbn. split; reflexivity. }
  destruct L1 as [_ L1], L2 as [_ L2]. cbn [apply] in L1.
  repeat split; try lia.
Qed.

Lemma noise_register_never_zero_witness :
  shift_register (clock 1000 (mk false 0x07ffff 0x7ffff8 0xffff 0 8 false false false)) <> 0 /\
  shift_register
    (run [WriteFREQ_HI 0xff; WriteCONTROL_REG 0x81; Clock 100000; Synchronize true]
         (reset (mk true 5 0 0 0 0 true true true))) <> 0.
Proof.
  pose proof (noise_register_never_zero
    (mk false 0x07ffff 0x7ffff8 0xffff 0 8 false false false)
    (mk true 5 0 0 0 0 true true true) 1000
    [WriteFREQ_HI 0xff; WriteCONTROL_REG 0x81; Clock 100000; Synchronize true]
    eq_refl ltac:(cbn; lia)
    ltac:(repeat constructor)) as H.
  split; apply H.
Defined.

Lemma held_apply (o : op) (w : t) :
  writes_test true o -> held w -> held (apply o w).
Proof.
  intros Ho [Ht [Ha Hs]]. destruct o; cbn [apply writes_test] in *.
  - unfold clock. rewrite Ht. repeat split; auto.
  - unfold synchronize. destruct (sync w && source_msb_rising);
      repeat split; cbn [test accumulator shift_register]; auto.
  - repeat split; assumption.
  - repeat split; assumption.
  - repeat split; assumption.
  - repeat split; assumption.
  - unfold writeCONTROL_REG. rewrite Ho. repeat split.
Qed.

Lemma held_run (os : list op) (w : t) :
  Forall (writes_test true) os -> held w -> held (run os w).
Proof.
  unfold run. revert w. induction os as [|o os IH]; intros w Hos Hw; cbn [fold_left].
  - exact Hw.
  - inversion Hos; subst. apply IH; [assumption|]. apply held_apply; assumption.
Qed.

(** *** Clock steps that add up *)

(** *** Fields that clocking leaves alone *)

Lemma clock_sync (d : Z) (w : t) : sync (clock d w) = sync w.
Proof. unfold clock. destruct (test w); reflexivity. Qed.

Lemma clock_test (d : Z) (w : t) : test (clock d w) = test w.
Proof. unfold clock. destruct (test w) eqn:E; [exact E|reflexivity]. Qed.

Lemma clock_freq (d : Z) (w : t) : freq (clock d w) = freq w.
Proof. unfold clock. destruct (test w); reflexivity. Qed.

Lemma synchronize_sync (b : bool) (w : t) : sync (synchronize b w) = sync w.
Proof. unfold synchronize. destruct (sync w && b); reflexivity. Qed.

Lemma synchronize_test (b : bool) (w : t) : test (synchronize b w) = test w.
Proof. unfold synchronize. destruct (sync w && b); reflexivity. Qed.

Lemma synchronize_msb_rising (b : bool) (w : t) :
  msb_rising (synchronize b w) = msb_rising w.
Proof. unfold synchronize. destruct (sync w && b); reflexivity. Qed.

Lemma synchronize_false (w : t) : synchronize false w = w.
Proof. unfold synchronize. rewrite andb_false_r. reflexivity. Qed.

Lemma synchronize_no_sync (b : bool) (w : t) :
  sync w = false -> synchronize b w = w.
Proof. intros H. unfold synchronize. rewrite H. reflexivity. Qed.

Lemma land_0xffffff (x : Z) : Z.land x 0xffffff = x mod 2 ^ 24.
Proof. change 0xffffff with (Z.ones 24). apply Z.land_ones. lia. Qed.

Lemma u32_mod24 (x : Z) : u32 x mod 2 ^ 24 = x mod 2 ^ 24.
Proof.
  unfold u32. apply Z.mod_mod_divide. exists (2 ^ 8). reflexivity.
Qed.

Lemma clock_accumulator (delta_t : Z) (w : t) :
  test w = false ->
  accumulator (clock delta_t w) = (accumulator w + delta_t * freq w) mod 2 ^ 24.
Proof.
  intros Ht. unfold clock. rewrite Ht. cbn [accumulator].
  rewrite land_0xffffff, u32_mod24.
  rewrite Z.add_mod by lia. rewrite u32_mod24.
  rewrite <- Z.add_mod by lia. reflexivity.
Qed.

(** The accumulator is additive in time. *)
Lemma clock_accumulator_additive (a b : Z) (w : t) :
  accumulator (clock b (clock a w)) = accumulator (clock (a + b) w).
Proof.
  destruct (test w) eqn:Ht.
  - unfold clock. rewrite Ht. rewrite Ht. reflexivity.
  - rewrite !clock_accumulator by (try rewrite clock_test; exact Ht).
    rewrite clock_freq.
    rewrite Z.add_mod_idemp_l by lia. f_equal. lia.
Qed.

Lemma land_pow2_eqb (x n : Z) :
  0 <= n -> (Z.land x (2 ^ n) =? 0) = negb (Z.testbit x n).
Proof.
  intros Hn.
  assert (E : Z.land x (2 ^ n) = if Z.testbit x n then 2 ^ n else 0).
  { apply Z.bits_inj'. intros i Hi.
    rewrite Z.land_spec, Z.pow2_bits_eqb by exact Hn.
    destruct (Z.testbit x n) eqn:Hb.
    - rewrite Z.pow2_bits_eqb by exact Hn.
      destruct (Z.eqb_spec n i) as [<-|Hne].
      + rewrite Hb. reflexivity.
      + apply andb_false_r.
    - rewrite Z.bits_0.
      destruct (Z.eqb_spec n i) as [<-|Hne].
      + rewrite Hb. reflexivity.
      + apply andb_false_r. }
  rewrite E. destruct (Z.testbit x n); cbn [negb].
  - apply Z.eqb_neq. pose proof (Z.pow_pos_nonneg 2 n ltac:(lia) Hn). lia.
  - reflexivity.
Qed.

Lemma testbit_mod_2_24 (x i : Z) :
  0 <= i < 24 -> Z.testbit (x mod 2 ^ 24) i = Z.testbit x i.
Proof. intros H. apply Z.mod_pow2_bits_low. lia. Qed.

Lemma testbit_u32 (x i : Z) :
  0 <= i < 32 -> Z.testbit (u32 x) i = Z.testbit x i.
Proof. intros H. apply Z.mod_pow2_bits_low. lia. Qed.

(** Bit 19 of two values less than 2^19 apart, through their quotients
    by 2^19. *)
Lemma testbit_19_near (x y : Z) :
  0 <= x -> x <= y < x + 2 ^ 19 ->
  (y / 2 ^ 19 = x / 2 ^ 19 /\ Z.testbit y 19 = Z.testbit x 19) \/
  (y / 2 ^ 19 = x / 2 ^ 19 + 1 /\ Z.testbit y 19 = negb (Z.testbit x 19)).
Proof.
  intros Hx Hy.
  rewrite !(Z.testbit_eqb _ 19) by lia.
  assert (Hq : x / 2 ^ 19 <= y / 2 ^ 19 <= x / 2 ^ 19 + 1).
  { split; [apply Z.div_le_mono; lia|].
    replace (x / 2 ^ 19 + 1) with ((x + 1 * 2 ^ 19) / 2 ^ 19)
      by (rewrite Z.div_add; lia).
    apply Z.div_le_mono; lia. }
  destruct (Z.eq_dec (y / 2 ^ 19) (x / 2 ^ 19)) as [E|E].
  - left. rewrite E. split; reflexivity.
  - right. assert (E' : y / 2 ^ 19 = x / 2 ^ 19 + 1) by lia.
    rewrite E'. split; [reflexivity|].
    set (q := x / 2 ^ 19).
    pose proof (Z.mod_pos_bound q 2 ltac:(lia)).
    pose proof (Z.mod_pos_bound (q + 1) 2 ltac:(lia)).
    pose proof (Z.div_mod q 2 ltac:(lia)).
    pose proof (Z.div_mod (q + 1) 2 ltac:(lia)).
    destruct (Z.eqb_spec ((q + 1) mod 2) 1), (Z.eqb_spec (q mod 2) 1);
      cbn [negb]; try reflexivity; lia.
Qed.

(** A clock step that adds less than 2^19 to the accumulator. *)
Lemma clock_small (d : Z) (w : t) :
  valid w -> test w = false -> 0 <= d -> d * freq w < 2 ^ 19 ->
  clock d w =
  mk (negb (Z.testbit (accumulator w) 23)
      && Z.testbit (accumulator w + d * freq w) 23)
     ((accumulator w + d * freq w) mod 2 ^ 24)
     (if negb (Z.testbit (accumulator w) 19)
         && Z.testbit (accumulator w + d * freq w) 19
      then shift_once (shift_register w) else shift_register w)
     (freq w) (pw w) (waveform w) (test w) (ring_mod w) (sync w).
Proof.
  intros [Ha Hf] Ht Hd Hs. unfold clock, clock_shifts. rewrite Ht.
  assert (Hdf : 0 <= d * freq w) by (apply Z.mul_nonneg_nonneg; lia).
  change (2 ^ 24) with 16777216 in Ha. change (2 ^ 19) with 524288 in Hs.
  assert (U1 : u32 (d * freq w) = d * freq w)
    by (unfold u32; apply Z.mod_small; change (2 ^ 32) with 4294967296; lia).
  rewrite U1.
  assert (U2 : u32 (accumulator w + d * freq w) = accumulator w + d * freq w)
    by (unfold u32; apply Z.mod_small; change (2 ^ 32) with 4294967296; lia).
  rewrite U2.
  rewrite (Z.div_small (d * freq w) 1048576) by lia.
  rewrite Z.mul_0_r, Z.add_0_r.
  assert (U3 : u32 (accumulator w) = accumulator w)
    by (unfold u32; apply Z.mod_small; change (2 ^ 32) with 4294967296; lia).
  rewrite U3.
  change 0x800000 with (2 ^ 23). change 0x080000 with (2 ^ 19).
  rewrite !land_pow2_eqb by lia. rewrite !negb_involutive.
  change 0xffffff with (Z.ones 24). rewrite Z.land_ones by lia.
  destruct (negb (Z.testbit (accumulator w) 19)
            && Z.testbit (accumulator w + d * freq w) 19); reflexivity.
Qed.

Lemma clock_valid (d : Z) (w : t) : valid w -> valid (clock d w).
Proof.
  intros [Ha Hf]. unfold clock. destruct (test w); [split; assumption|].
  split; cbn [accumulator freq]; [|exact Hf].
  change 0xffffff with (Z.ones 24). rewrite Z.land_ones by lia.
  apply Z.mod_pos_bound. lia.
Qed.

Lemma synchronize_valid (b : bool) (w : t) : valid w -> valid (synchronize b w).
Proof.
  intros [Ha Hf]. unfold synchronize. destruct (sync w && b); [|split; assumption].
  split; cbn [accumulator freq]; [|exact Hf]. change (2 ^ 24) with 16777216. lia.
Qed.

(** Two clock steps that together add less than 2^19 to the accumulator
    make the shifts of the one step. *)
Lemma clock_small_additive (a b : Z) (w : t) :
  valid w -> 0 <= a -> 0 <= b -> (a + b) * freq w < 2 ^ 19 ->
  accumulator (clock b (clock a w)) = accumulator (clock (a + b) w) /\
  shift_register (clock b (clock a w)) = shift_register (clock (a + b) w).
Proof.
  intros Hv Ha Hb Hs. destruct (test w) eqn:Ht.
  - unfold clock. rewrite Ht, Ht. split; reflexivity.
  - pose proof Hv as [Hacc Hf].
    assert (Haf : 0 <= a * freq w) by (apply Z.mul_nonneg_nonneg; lia).
    assert (Hbf : 0 <= b * freq w) by (apply Z.mul_nonneg_nonneg; lia).
    assert (Hsum : (a + b) * freq w = a * freq w + b * freq w) by lia.
    rewrite (clock_small (a + b) w Hv Ht) by lia.
    rewrite (clock_small a w Hv Ht) by lia.
    set (wa := mk _ _ _ _ _ _ _ _ _).
    assert (Hva : valid wa).
    { split; unfold wa; cbn [accumulator freq]; [|exact Hf].
      apply Z.mod_pos_bound. lia. }
    rewrite (clock_small b wa Hva) by (unfold wa; cbn [test freq]; (exact Ht || lia)).
    unfold wa. cbn [accumulator shift_register freq].
    split.
    + rewrite Z.add_mod_idemp_l by lia. f_equal. lia.
    + (* bit 19 of the three accumulator values *)
      set (A := accumulator w) in *.
      set (B := A + a * freq w).
      set (C := A + (a + b) * freq w).
      assert (HB : Z.testbit (B mod 2 ^ 24) 19 = Z.testbit B 19)
        by (apply testbit_mod_2_24; lia).
      assert (HC : Z.testbit (B mod 2 ^ 24 + b * freq w) 19 = Z.testbit C 19).
      { rewrite <- (testbit_mod_2_24 (B mod 2 ^ 24 + b * freq w)) by lia.
        rewrite Z.add_mod_idemp_l by lia.
        rewrite testbit_mod_2_24 by lia. f_equal. unfold B, C. lia. }
      rewrite HB, HC.
      change (2 ^ 19) with 524288 in Hs.
      destruct (testbit_19_near A B) as [[Q1 T1]|[Q1 T1]];
        try (unfold B; change (2 ^ 19) with 524288; lia).
      * rewrite T1. rewrite andb_negb_l.
        destruct (negb (Z.testbit A 19) && Z.testbit C 19); reflexivity.
      * destruct (testbit_19_near B C) as [[Q2 T2]|[Q2 T2]];
          try (unfold B, C; change (2 ^ 19) with 524288; lia).
        -- rewrite T2, T1.
           destruct (Z.testbit A 19); cbn [negb andb]; reflexivity.
        -- exfalso.
           destruct (testbit_19_near A C) as [[Q3 _]|[Q3 _]];
             try (unfold C; change (2 ^ 19) with 524288; lia); lia.
Qed.

End WaveformFacts.

(* ------------------------------------------------------------------ *)
(** ** The three oscillators under the scheduler *)

Module OscillatorFacts.
Import SID SIDOps WaveformOps WaveformFacts WaveformGenerator.

(** *** [agree] *)

Lemma agree_refl (b : bool) (w : t) : agree b w w.
Proof. unfold agree. repeat split. Qed.

Lemma agree_sym (b : bool) (w w' : t) : agree b w w' -> agree b w' w.
Proof.
  intros (A & B & C & D & E & F & G & H & I).
  unfold agree. repeat split; try congruence. intros X. symmetry. auto.
Qed.

Lemma agree_trans (b : bool) (w w' w'' : t) :
  agree b w w' -> agree b w' w'' -> agree b w w''.
Proof.
  intros (A & B & C & D & E & F & G & H & I)
         (A' & B' & C' & D' & E' & F' & G' & H' & I').
  unfold agree. repeat split; try congruence.
  intros X. rewrite I, I' by exact X. reflexivity.
Qed.

Lemma clock_agree (b : bool) (d : Z) (w w' : t) :
  agree b w w' -> agree b (clock d w) (clock d w').
Proof.
  intros (A & B & C & D & E & F & G & H & I).
  unfold clock, clock_shifts. rewrite <- F.
  destruct (test w) eqn:Ht.
  - unfold agree. repeat split; auto; congruence.
  - rewrite <- A, <- B, <- C, <- D, <- E, <- G, <- H.
    unfold agree. cbn [accumulator shift_register freq pw waveform test
                       ring_mod sync msb_rising].
    repeat split; reflexivity.
Qed.

Lemma synchronize_agree (b m m' : bool) (w w' : t) :
  agree b w w' -> (sync w = true -> m = m') ->
  agree b (synchronize m w) (synchronize m' w').
Proof.
  intros (A & B & C & D & E & F & G & H & I) Hm.
  unfold synchronize. rewrite <- H.
  destruct (sync w) eqn:Hs; cbn [andb].
  - rewrite <- (Hm eq_refl). destruct m.
    + unfold agree. cbn [accumulator shift_register freq pw waveform test
                         ring_mod sync msb_rising].
      repeat split; auto; congruence.
    + unfold agree. repeat split; auto; congruence.
  - unfold agree. repeat split; auto; congruence.
Qed.

Lemma agree3_refl (w : W3) : agree3 w w.
Proof. unfold agree3. split; [|split]; apply agree_refl. Qed.

Lemma agree3_sync (w w' : W3) :
  agree3 w w' ->
  sync (fst (fst w')) = sync (fst (fst w)) /\
  sync (snd (fst w')) = sync (snd (fst w)) /\
  sync (snd w') = sync (snd w).
Proof.
  intros (A & B & C).
  destruct A as (_ & _ & _ & _ & _ & _ & _ & A & _).
  destruct B as (_ & _ & _ & _ & _ & _ & _ & B & _).
  destruct C as (_ & _ & _ & _ & _ & _ & _ & C & _).
  repeat split; congruence.
Qed.

Lemma agree3_sym (w w' : W3) : agree3 w w' -> agree3 w' w.
Proof.
  intros H. pose proof (agree3_sync w w' H) as (S1 & S2 & S3).
  destruct H as (A & B & C). unfold agree3.
  rewrite S1, S2, S3. split; [|split]; apply agree_sym; assumption.
Qed.

Lemma agree3_trans (w w' w'' : W3) :
  agree3 w w' -> agree3 w' w'' -> agree3 w w''.
Proof.
  intros H H'. pose proof (agree3_sync w w' H) as (S1 & S2 & S3).
  destruct H as (A & B & C), H' as (A' & B' & C'). unfold agree3.
  rewrite S1, S2, S3 in *.
  split; [|split]; eapply agree_trans; eassumption.
Qed.

Lemma osc_step_agree (m : Z) (w w' : W3) :
  agree3 w w' -> agree3 (osc_step m w) (osc_step m w').
Proof.
  intros H. pose proof (agree3_sync w w' H) as (S1 & S2 & S3).
  destruct w as [[w1 w2] w3], w' as [[w1' w2'] w3'].
  destruct H as (A & B & C). cbn [fst snd] in *.
  unfold osc_step, agree3. cbn [fst snd].
  rewrite !synchronize_sync, !clock_sync.
  assert (M : forall b x x', agree b x x' -> b = true ->
                msb_rising (clock m x) = msb_rising (clock m x')).
  { intros b x x' Hx Hb. apply (clock_agree b m) in Hx.
    destruct Hx as (_ & _ & _ & _ & _ & _ & _ & _ & I). apply I, Hb. }
  split; [|split].
  - apply synchronize_agree; [apply clock_agree, A|].
    rewrite clock_sync. intros X. apply (M _ _ _ C X).
  - apply synchronize_agree; [apply clock_agree, B|].
    rewrite clock_sync. intros X. apply (M _ _ _ A X).
  - apply synchronize_agree; [apply clock_agree, C|].
    rewrite clock_sync. intros X. apply (M _ _ _ B X).
Qed.

Lemma repeat_osc_step_agree (m : Z) (n : nat) :
  forall w w', agree3 w w' ->
    agree3 (repeat_fn (osc_step m) n w) (repeat_fn (osc_step m) n w').
Proof.
  induction n as [|n IH]; intros w w' H; cbn [repeat_fn]; [exact H|].
  apply IH, osc_step_agree, H.
Qed.


(** *** The MSB between two toggles *)

Lemma msb_threshold_range (w : t) :
  valid w -> accumulator w < msb_threshold w <= 2 ^ 24.
Proof.
  intros [Ha _]. unfold msb_threshold.
  rewrite (Z.testbit_eqb _ 23) by lia.
  change (2 ^ 24) with 16777216 in *. change (2 ^ 23) with 8388608.
  assert (Hq : 0 <= accumulator w / 8388608 < 2).
  { split; [apply Z.div_pos; lia|]. apply Z.div_lt_upper_bound; lia. }
  pose proof (Z.div_mod (accumulator w) 8388608 ltac:(lia)) as Hd.
  pose proof (Z.mod_pos_bound (accumulator w) 8388608 ltac:(lia)) as Hm.
  destruct (Z.eqb_spec ((accumulator w / 8388608) mod 2) 1) as [E|E].
  - lia.
  - assert (accumulator w / 8388608 = 0).
    { destruct (Z.eq_dec (accumulator w / 8388608) 0) as [Z0|Z0]; [exact Z0|].
      assert (accumulator w / 8388608 = 1) as Z1 by lia.
      rewrite Z1 in E. contradiction E. reflexivity. }
    lia.
Qed.

Lemma testbit_23_below_threshold (w : t) (x : Z) :
  valid w -> accumulator w <= x < msb_threshold w ->
  Z.testbit x 23 = Z.testbit (accumulator w) 23.
Proof.
  intros Hv Hx. pose proof (msb_threshold_range w Hv) as Ht.
  destruct Hv as [Ha _]. unfold msb_threshold in *.
  change (2 ^ 24) with 16777216 in *. change (2 ^ 23) with 8388608 in *.
  destruct (Z.testbit (accumulator w) 23) eqn:E.
  - rewrite (Z.testbit_eqb _ 23) in E by lia.
    rewrite (Z.testbit_eqb _ 23) by lia.
    change (2 ^ 23) with 8388608 in *.
    apply Z.eqb_eq in E. apply Z.eqb_eq.
    assert (accumulator w / 8388608 <> 0) by (intros Z0; rewrite Z0 in E; discriminate).
    assert (8388608 <= accumulator w).
    { destruct (Z_lt_le_dec (accumulator w) 8388608) as [L|L]; [|exact L].
      rewrite Z.div_small in H by lia. contradiction. }
    replace (x / 8388608) with 1; [reflexivity|].
    apply Z.div_unique with (r := x - 8388608); lia.
  - rewrite (Z.testbit_eqb _ 23) by lia. change (2 ^ 23) with 8388608.
    rewrite Z.div_small by lia. reflexivity.
Qed.

Lemma clock_keeps (d : Z) (w : t) :
  freq (clock d w) = freq w /\ pw (clock d w) = pw w /\
  waveform (clock d w) = waveform w /\ test (clock d w) = test w /\
  ring_mod (clock d w) = ring_mod w /\ sync (clock d w) = sync w.
Proof. unfold clock. destruct (test w) eqn:E; repeat split; auto. Qed.

Lemma clock_under_test (d : Z) (w : t) : test w = true -> clock d w = w.
Proof. intros H. unfold clock. rewrite H. reflexivity. Qed.

Lemma small_product (m f : Z) :
  0 <= m <= 8 -> 0 <= f <= 0xffff -> 0 <= m * f < 2 ^ 19.
Proof. intros Hm Hf. change (2 ^ 19) with 524288. nia. Qed.

(** No rise of the MSB before the [m]-th cycle. *)
Lemma clock_quiet (m k : Z) (src dst : t) :
  valid src -> no_stale src dst -> calm m src dst -> sync dst = true ->
  1 <= k < m -> m <= 8 ->
  msb_rising (clock k src) = false.
Proof.
  intros Hv Hn Hc Hs Hk Hm. destruct (test src) eqn:Ht.
  - rewrite clock_under_test by exact Ht. apply Hn; assumption.
  - pose proof Hv as [Ha Hf].
    pose proof (small_product k (freq src) ltac:(lia) Hf) as Hp.
    rewrite clock_small by (assumption || lia). cbn [msb_rising].
    specialize (Hc Hs).
    rewrite (testbit_23_below_threshold src (accumulator src + k * freq src))
      by (assumption || nia).
    apply andb_negb_l.
Qed.

(** One cycle and [m'] more make the step of [1 + m'] cycles. *)
Lemma clock_split_agree (b : bool) (m' : Z) (x : t) :
  valid x -> 1 <= m' -> 1 + m' <= 8 ->
  (b = true -> test x = false ->
   m' * freq x < msb_threshold x - accumulator x) ->
  agree b (clock m' (clock 1 x)) (clock (1 + m') x).
Proof.
  intros Hv Hm Hm8 Hc.
  pose proof Hv as [Ha Hf].
  pose proof (small_product (1 + m') (freq x) ltac:(lia) Hf) as Hp.
  destruct (clock_small_additive 1 m' x Hv ltac:(lia) ltac:(lia) ltac:(lia))
    as [EA ES].
  pose proof (clock_keeps m' (clock 1 x)) as (K1 & K2 & K3 & K4 & K5 & K6).
  pose proof (clock_keeps 1 x) as (L1 & L2 & L3 & L4 & L5 & L6).
  pose proof (clock_keeps (1 + m') x) as (M1 & M2 & M3 & M4 & M5 & M6).
  unfold agree. repeat split; try congruence.
  intros Hb. destruct (test x) eqn:Ht.
  - rewrite !(clock_under_test _ x) by exact Ht. reflexivity.
  - specialize (Hc Hb eq_refl).
    pose proof (msb_threshold_range x Hv) as Hthr.
    pose proof (small_product 1 (freq x) ltac:(lia) Hf) as Hp1.
    pose proof (small_product m' (freq x) ltac:(lia) Hf) as Hpm.
    rewrite (clock_small (1 + m') x) by (assumption || lia).
    rewrite (clock_small 1 x) by (assumption || lia).
    set (x1 := mk _ _ _ _ _ _ _ _ _).
    assert (Hv1 : valid x1).
    { split; unfold x1; cbn [accumulator freq]; [|exact Hf].
      apply Z.mod_pos_bound. lia. }
    rewrite (clock_small m' x1) by (unfold x1; cbn [test freq]; assumption || lia).
    unfold x1. cbn [msb_rising accumulator freq].
    assert (E1 : (accumulator x + 1 * freq x) mod 2 ^ 24
                 = accumulator x + 1 * freq x)
      by (apply Z.mod_small; nia).
    rewrite E1.
    rewrite (testbit_23_below_threshold x (accumulator x + 1 * freq x))
      by (assumption || nia).
    f_equal. f_equal. lia.
Qed.

(** *** [osc_step] keeps the oscillators steady *)

Lemma no_stale_step (m : Z) (b b' : bool) (src dst : t) :
  no_stale src dst ->
  no_stale (synchronize b (clock m src)) (synchronize b' (clock m dst)).
Proof.
  unfold no_stale. rewrite !synchronize_sync, !synchronize_test,
    !synchronize_msb_rising, !clock_sync, !clock_test.
  intros H Hs Ht. rewrite clock_under_test by exact Ht. auto.
Qed.

Lemma steady3_osc_step (m : Z) (w : W3) : steady3 w -> steady3 (osc_step m w).
Proof.
  destruct w as [[w1 w2] w3]. unfold steady3, osc_step. cbn [fst snd].
  intros ((V1 & V2 & V3) & N1 & N2 & N3).
  repeat split; try (apply no_stale_step; assumption);
    apply synchronize_valid, clock_valid; assumption.
Qed.

Lemma steady3_repeat (m : Z) (n : nat) :
  forall w, steady3 w -> steady3 (repeat_fn (osc_step m) n w).
Proof.
  induction n as [|n IH]; intros w H; cbn [repeat_fn]; [exact H|].
  apply IH, steady3_osc_step, H.
Qed.


(** *** One step of [m] cycles is [m] steps of one cycle *)

Lemma calm_pred (m : Z) (src dst : t) :
  valid src -> 2 <= m -> m <= 8 -> calm m src dst ->
  calm (m - 1) (clock 1 src) (clock 1 dst).
Proof.
  intros Hv Hm Hm8 Hc. unfold calm in *.
  rewrite clock_sync. intros Hs. specialize (Hc Hs).
  pose proof Hv as [Ha Hf]. pose proof (msb_threshold_range src Hv) as Ht.
  destruct (test src) eqn:Et.
  - rewrite clock_under_test by exact Et. nia.
  - pose proof (small_product 1 (freq src) ltac:(lia) Hf) as Hp.
    rewrite (clock_small 1 src) by (assumption || lia).
    unfold msb_threshold in *. cbn [accumulator freq].
    assert (E1 : (accumulator src + 1 * freq src) mod 2 ^ 24
                 = accumulator src + 1 * freq src)
      by (apply Z.mod_small; nia).
    rewrite E1.
    rewrite (testbit_23_below_threshold src (accumulator src + 1 * freq src))
      by (assumption || unfold msb_threshold; nia).
    nia.
Qed.

Lemma osc_step_1_quiet (m : Z) (w : W3) :
  steady3 w -> 2 <= m -> m <= 8 -> calm3 m w -> osc_step 1 w = clock3 1 w.
Proof.
  destruct w as [[w1 w2] w3]. unfold steady3, calm3, osc_step, clock3.
  cbn [fst snd].
  intros ((V1 & V2 & V3) & N1 & N2 & N3) Hm Hm8 (C1 & C2 & C3).
  assert (Q : forall src dst, valid src -> no_stale src dst -> calm m src dst ->
            synchronize (msb_rising (clock 1 src)) (clock 1 dst) = clock 1 dst).
  { intros src dst V N C. destruct (sync dst) eqn:Hs.
    - rewrite (clock_quiet m 1 src dst) by (assumption || lia).
      apply synchronize_false.
    - apply synchronize_no_sync. rewrite clock_sync. exact Hs. }
  rewrite (Q w3 w1), (Q w1 w2), (Q w2 w3) by assumption. reflexivity.
Qed.

Lemma calm3_pred (m : Z) (w : W3) :
  steady3 w -> 2 <= m -> m <= 8 -> calm3 m w -> calm3 (m - 1) (clock3 1 w).
Proof.
  destruct w as [[w1 w2] w3]. unfold steady3, calm3, clock3. cbn [fst snd].
  intros ((V1 & V2 & V3) & _) Hm Hm8 (C1 & C2 & C3).
  split; [|split]; apply calm_pred; assumption.
Qed.

Lemma osc_step_split (m : Z) (w : W3) :
  steady3 w -> 2 <= m -> m <= 8 -> calm3 m w ->
  agree3 (osc_step (m - 1) (clock3 1 w)) (osc_step m w).
Proof.
  destruct w as [[w1 w2] w3]. unfold steady3, calm3, clock3, osc_step, agree3.
  cbn [fst snd].
  intros ((V1 & V2 & V3) & _) Hm Hm8 (C1 & C2 & C3).
  rewrite !synchronize_sync, !clock_sync.
  assert (S : forall b x, valid x ->
            (b = true -> (m - 1) * freq x < msb_threshold x - accumulator x) ->
            agree b (clock (m - 1) (clock 1 x)) (clock m x)).
  { intros b x V C. replace m with (1 + (m - 1)) at 2 by lia.
    apply clock_split_agree; try assumption; try lia. intros Hb _. auto. }
  assert (M : forall x, valid x ->
            (m - 1) * freq x < msb_threshold x - accumulator x ->
            msb_rising (clock (m - 1) (clock 1 x)) = msb_rising (clock m x)).
  { intros x V C. destruct (S true x V (fun _ => C))
      as (_ & _ & _ & _ & _ & _ & _ & _ & I). apply I. reflexivity. }
  split; [|split].
  - apply synchronize_agree; [apply S; assumption|].
    rewrite !clock_sync. intros X. apply M; auto.
  - apply synchronize_agree; [apply S; assumption|].
    rewrite !clock_sync. intros X. apply M; auto.
  - apply synchronize_agree; [apply S; assumption|].
    rewrite !clock_sync. intros X. apply M; auto.
Qed.

Lemma osc_step_cycles (k : nat) :
  forall w, steady3 w -> Z.of_nat (S k) <= 8 -> calm3 (Z.of_nat (S k)) w ->
    agree3 (repeat_fn (osc_step 1) (S k) w) (osc_step (Z.of_nat (S k)) w).
Proof.
  induction k as [|k IH]; intros w Hs Hm Hc.
  - cbn [repeat_fn]. apply agree3_refl.
  - change (repeat_fn (osc_step 1) (S (S k)) w)
      with (repeat_fn (osc_step 1) (S k) (osc_step 1 w)).
    set (m := Z.of_nat (S (S k))) in *.
    assert (Hm2 : 2 <= m) by (unfold m; lia).
    assert (Em : Z.of_nat (S k) = m - 1) by (unfold m; lia).
    pose proof (steady3_osc_step 1 w Hs) as Hs1.
    rewrite (osc_step_1_quiet m w Hs Hm2 Hm Hc) in *.
    pose proof (calm3_pred m w Hs Hm2 Hm Hc) as Hc1.
    rewrite <- Em in Hc1.
    specialize (IH (clock3 1 w) Hs1 ltac:(lia) Hc1).
    eapply agree3_trans; [exact IH|].
    rewrite Em. apply osc_step_split; assumption.
Qed.


(** *** The scheduler of [SID::clock] *)

Lemma calm_mono (m r : Z) (src dst : t) :
  valid src -> m <= r -> calm r src dst -> calm m src dst.
Proof. intros [_ Hf] Hm Hc Hs. specialize (Hc Hs). nia. Qed.

Lemma next_msb_toggle_spec (wave dest : t) (x : Z) :
  valid wave -> 1 <= x ->
  1 <= next_msb_toggle wave dest x <= x /\
  calm (next_msb_toggle wave dest x) wave dest.
Proof.
  intros Hv Hx. pose proof Hv as [Ha Hf].
  pose proof (msb_threshold_range wave Hv) as Ht.
  unfold next_msb_toggle, calm.
  destruct (Z.eqb_spec (freq wave) 0) as [Hz|Hnz]; cbn [negb andb].
  - split; [lia|]. intros _. rewrite Hz. lia.
  - destruct (sync dest || ring_mod dest) eqn:Hd; cbn [negb].
    2:{ split; [lia|]. intros Hs. rewrite Hs in Hd. discriminate. }
    assert (Hland : (Z.land (accumulator wave) 0x800000 =? 0)
                    = negb (Z.testbit (accumulator wave) 23))
      by (apply (land_pow2_eqb _ 23); lia).
    rewrite Hland, negb_involutive.
    change (if Z.testbit (accumulator wave) 23 then 16777216 else 8388608)
      with (msb_threshold wave).
    set (D := msb_threshold wave - accumulator wave) in *.
    assert (HD : 1 <= D <= 2 ^ 24) by (unfold D; lia).
    assert (UD : u32 D = D)
      by (unfold u32; apply Z.mod_small; change (2 ^ 24) with 16777216 in HD;
          change (2 ^ 32) with 4294967296; lia).
    rewrite UD.
    set (f := freq wave) in *. assert (Hfp : 0 < f) by lia.
    pose proof (Z.div_mod D f ltac:(lia)) as Hdm.
    pose proof (Z.mod_pos_bound D f Hfp) as Hmb.
    assert (Hq : 0 <= D / f) by (apply Z.div_pos; lia).
    set (T := if negb (D mod f =? 0) then D / f + 1 else D / f).
    assert (HT : 1 <= T /\ (T - 1) * f < D).
    { unfold T. destruct (Z.eqb_spec (D mod f) 0) as [E|E]; cbn [negb].
      - rewrite E in Hdm. split; [|nia].
        destruct (Z.eq_dec (D / f) 0) as [Z0|Z0]; [rewrite Z0 in Hdm; lia|lia].
      - split; [lia|]. nia. }
    destruct HT as [HT1 HT2].
    destruct (Z.ltb_spec T x).
    + split; [lia|]. intros _. exact HT2.
    + split; [lia|]. intros _. nia.
Qed.

Lemma osc_delta_t_min_spec (w : W3) (d : Z) :
  steady3 w -> 1 <= d ->
  1 <= osc_delta_t_min (fst (fst w)) (snd (fst w)) (snd w) d <= d /\
  calm3 (osc_delta_t_min (fst (fst w)) (snd (fst w)) (snd w) d) w.
Proof.
  destruct w as [[w1 w2] w3]. cbn [fst snd].
  intros ((V1 & V2 & V3) & _) Hd. unfold osc_delta_t_min, calm3. cbn [fst snd].
  pose proof (next_msb_toggle_spec w1 w2 d V1 Hd) as [R1 C1].
  set (r1 := next_msb_toggle w1 w2 d) in *.
  pose proof (next_msb_toggle_spec w2 w3 r1 V2 ltac:(lia)) as [R2 C2].
  set (r2 := next_msb_toggle w2 w3 r1) in *.
  pose proof (next_msb_toggle_spec w3 w1 r2 V3 ltac:(lia)) as [R3 C3].
  set (r3 := next_msb_toggle w3 w1 r2) in *.
  split; [lia|]. split; [|split].
  - apply (calm_mono r3 r1); [assumption|lia|assumption].
  - apply (calm_mono r3 r2); [assumption|lia|assumption].
  - exact C3.
Qed.

Lemma osc_loop_unfold (fuel : nat) (d : Z) (w : W3) :
  osc_loop (S fuel) d w =
  if d >? 0 then
    osc_loop fuel
      (d - osc_delta_t_min (fst (fst w)) (snd (fst w)) (snd w) d)
      (osc_step (osc_delta_t_min (fst (fst w)) (snd (fst w)) (snd w) d) w)
  else w.
Proof. destruct w as [[w1 w2] w3]. reflexivity. Qed.

(** A window of at most 8 cycles is as many single cycles. *)
Lemma osc_loop_cycles (fuel : nat) :
  forall d w, steady3 w -> 0 <= d <= 8 -> (Z.to_nat d < fuel)%nat ->
    agree3 (osc_loop fuel d w) (repeat_fn (osc_step 1) (Z.to_nat d) w) /\
    steady3 (osc_loop fuel d w).
Proof.
  induction fuel as [|fuel IH]; intros d w Hs Hd Hf; [lia|].
  rewrite osc_loop_unfold.
  destruct (Z.gtb_spec d 0) as [Hpos|Hz].
  - pose proof (osc_delta_t_min_spec w d Hs ltac:(lia)) as [Hm Hc].
    set (m := osc_delta_t_min _ _ _ d) in *.
    pose proof (steady3_osc_step m w Hs) as Hs'.
    destruct (IH (d - m) (osc_step m w) Hs' ltac:(lia) ltac:(lia)) as [A B].
    split; [|exact B].
    eapply agree3_trans; [exact A|].
    assert (Em : m = Z.of_nat (S (Z.to_nat m - 1))) by lia.
    pose proof (osc_step_cycles (Z.to_nat m - 1) w Hs ltac:(lia)
                  ltac:(rewrite <- Em; exact Hc)) as C.
    rewrite <- Em in C.
    replace (Z.to_nat d) with (S (Z.to_nat m - 1) + Z.to_nat (d - m))%nat by lia.
    rewrite repeat_fn_add.
    apply repeat_osc_step_agree, agree3_sym, C.
  - assert (d = 0) as -> by lia. split; [apply agree3_refl|exact Hs].
Qed.

Lemma waves_loop_cycles (fuel : nat) :
  forall dt dflt w,
    steady3 w -> 0 <= dt -> 1 <= dflt <= 8 -> (Z.to_nat dt < fuel)%nat ->
    agree3 (waves_loop fuel dt dflt w)
           (repeat_fn (osc_step 1) (Z.to_nat dt) w) /\
    steady3 (waves_loop fuel dt dflt w).
Proof.
  induction fuel as [|fuel IH]; intros dt dflt w Hs Hdt Hfl Hf; [lia|].
  cbn [waves_loop].
  destruct (Z.gtb_spec dt 0) as [Hpos|Hz].
  - set (d1 := if dt <? dflt then dt else dflt).
    assert (Hd1 : 1 <= d1 <= 8 /\ d1 <= dt)
      by (unfold d1; destruct (Z.ltb_spec dt dflt); lia).
    destruct (osc_loop_cycles (S (Z.to_nat d1)) d1 w Hs ltac:(lia) ltac:(lia))
      as [A B].
    destruct (IH (dt - d1) d1 (osc_loop (S (Z.to_nat d1)) d1 w) B ltac:(lia)
                ltac:(lia) ltac:(lia)) as [C D].
    split; [|exact D].
    eapply agree3_trans; [exact C|].
    replace (Z.to_nat dt) with (Z.to_nat d1 + Z.to_nat (dt - d1))%nat by lia.
    rewrite repeat_fn_add. apply repeat_osc_step_agree, A.
  - assert (dt = 0) as -> by lia. split; [apply agree3_refl|exact Hs].
Qed.

Lemma waves_clock_cycles (dt : Z) (w : W3) :
  steady3 w -> 0 <= dt ->
  agree3 (waves_clock false dt w) (repeat_fn (osc_step 1) (Z.to_nat dt) w) /\
  steady3 (waves_clock false dt w).
Proof.
  intros Hs Hdt. unfold waves_clock.
  destruct (Z.eqb_spec dt 0) as [->|Hnz].
  - split; [apply agree3_refl|exact Hs].
  - apply waves_loop_cycles; try assumption; lia.
Qed.

(** With the filter not bypassed, the oscillators are additive in
    time. *)
Lemma waves_clock_additive (a b : Z) (w : W3) :
  steady3 w -> 0 <= a -> 0 <= b ->
  agree3 (waves_clock false b (waves_clock false a w))
         (waves_clock false (a + b) w).
Proof.
  intros Hs Ha Hb.
  destruct (waves_clock_cycles a w Hs Ha) as [A1 A2].
  destruct (waves_clock_cycles b _ A2 Hb) as [B1 _].
  destruct (waves_clock_cycles (a + b) w Hs ltac:(lia)) as [C1 _].
  eapply agree3_trans; [exact B1|].
  eapply agree3_trans; [|apply agree3_sym; exact C1].
  replace (Z.to_nat (a + b)) with (Z.to_nat a + Z.to_nat b)%nat by lia.
  rewrite repeat_fn_add. apply repeat_osc_step_agree, A1.
Qed.

End OscillatorFacts.

(* ------------------------------------------------------------------ *)
(** ** The scheduler *)

Module SIDFacts.
Import SID SIDOps.

Section Preserved.
Variables P1 P2 P3 : WaveformGenerator.t -> Prop.
Hypothesis H1 : clock_stable P1.
Hypothesis H2 : clock_stable P2.
Hypothesis H3 : clock_stable P3.

Lemma osc_loop_preserves (fuel : nat) :
  forall d w, all3 P1 P2 P3 w -> all3 P1 P2 P3 (osc_loop fuel d w).
Proof.
  induction fuel as [|fuel IH]; intros d w Hw; cbn [osc_loop]; [exact Hw|].
  destruct (d >? 0); [|exact Hw].
  destruct w as [[w1 w2] w3]. destruct Hw as [A [B C]]. cbn [fst snd] in *.
  apply IH. repeat split; cbn [fst snd].
  - apply H1, H1, A.
  - apply H2, H2, B.
  - apply H3, H3, C.
Qed.

Lemma waves_loop_preserves (fuel : nat) :
  forall d dflt w, all3 P1 P2 P3 w -> all3 P1 P2 P3 (waves_loop fuel d dflt w).
Proof.
  induction fuel as [|fuel IH]; intros d dflt w Hw; cbn [waves_loop]; [exact Hw|].
  destruct (d >? 0); [|exact Hw].
  apply IH, osc_loop_preserves, Hw.
Qed.

Lemma waves_clock_preserves (b : bool) (d : Z) w :
  all3 P1 P2 P3 w -> all3 P1 P2 P3 (waves_clock b d w).
Proof.
  intros Hw. unfold waves_clock. destruct (d =? 0); [exact Hw|].
  apply waves_loop_preserves, Hw.
Qed.

End Preserved.

Section Projections.
Variable Filter_clock : Z -> Z -> Z -> Z -> Filter.t -> Filter.t.
Variable Voice_output : WaveformGenerator.t -> Voice.t -> Z.

Lemma clock_window_envelopes (d : Z) (s : t) :
  envelopes (clock_window Filter_clock Voice_output d s) =
  map3 (EnvelopeGenerator.clock d) (envelopes s).
Proof.
  unfold clock_window, envelopes, map3.
  destruct (osc_loop _ _ _) as [[w1 w2] w3]. reflexivity.
Qed.

Lemma clock_window_waves (d : Z) (s : t) :
  waves (clock_window Filter_clock Voice_output d s) =
  osc_loop (S (Z.to_nat d)) d (waves s).
Proof.
  unfold clock_window, waves.
  destruct (osc_loop _ _ _) as [[w1 w2] w3]. reflexivity.
Qed.

Lemma clock_loop_envelopes (fuel : nat) :
  forall d dflt s,
    envelopes (clock_loop Filter_clock Voice_output fuel d dflt s) =
    map3 (envelope_loop fuel d dflt) (envelopes s).
Proof.
  induction fuel as [|fuel IH]; intros d dflt s; cbn [clock_loop envelope_loop].
  - unfold map3, envelopes. reflexivity.
  - destruct (d >? 0).
    + rewrite IH, clock_window_envelopes. reflexivity.
    + unfold map3, envelopes. reflexivity.
Qed.

Lemma clock_loop_waves (fuel : nat) :
  forall d dflt s,
    waves (clock_loop Filter_clock Voice_output fuel d dflt s) =
    waves_loop fuel d dflt (waves s).
Proof.
  induction fuel as [|fuel IH]; intros d dflt s; cbn [clock_loop waves_loop].
  - reflexivity.
  - destruct (d >? 0).
    + rewrite IH, clock_window_waves. reflexivity.
    + reflexivity.
Qed.

Lemma clock_envelopes (d : Z) (s : t) :
  envelopes (clock Filter_clock Voice_output d s) =
  map3 (envelope_clock (Filter.bypass (filter s)) d) (envelopes s).
Proof.
  unfold clock, envelope_clock, map3. destruct (d =? 0).
  - reflexivity.
  - rewrite clock_loop_envelopes. reflexivity.
Qed.

Lemma clock_waves (d : Z) (s : t) :
  waves (clock Filter_clock Voice_output d s) =
  waves_clock (Filter.bypass (filter s)) d (waves s).
Proof.
  unfold clock, waves_clock. destruct (d =? 0).
  - reflexivity.
  - apply clock_loop_waves.
Qed.

End Projections.

(** C6.  A CONTROL write with the test bit set zeroes the accumulator and
    the noise register, and they stay zero under every clock step,
    synchronization and register write that keeps the test bit set, also
    when the generator is clocked by [SID::clock]; the envelope
    generators are clocked by [SID::clock] as ever, whatever the state of
    the oscillators.  The CONTROL write that clears the test bit sets the
    noise register to 0x7FFFF8. *)
Theorem test_bit_holds_oscillator
  (Filter_clock : Z -> Z -> Z -> Z -> Filter.t -> Filter.t)
  (Voice_output : WaveformGenerator.t -> Voice.t -> Z)
  (v v' : Z) (os : list WaveformOps.op) (w : WaveformGenerator.t)
  (s : t) (delta_t : Z) :
  negb (Z.land v 0x08 =? 0) = true ->
  Forall (WaveformOps.writes_test true) os ->
  Z.land v' 0x08 = 0 ->
  let w1 := WaveformOps.run os (WaveformGenerator.writeCONTROL_REG v w) in
  let s1 := clock Filter_clock Voice_output delta_t s in
  WaveformGenerator.test w1 = true /\
  WaveformGenerator.accumulator w1 = 0 /\
  WaveformGenerator.shift_register w1 = 0 /\
  WaveformGenerator.test (WaveformGenerator.writeCONTROL_REG v' w1) = false /\
  WaveformGenerator.shift_register
    (WaveformGenerator.writeCONTROL_REG v' w1) = 0x7ffff8 /\
  (WaveformOps.held (Voice.wave (voice1 s)) ->
   WaveformOps.held (Voice.wave (voice1 s1))) /\
  (WaveformOps.held (Voice.wave (voice2 s)) ->
   WaveformOps.held (Voice.wave (voice2 s1))) /\
  (WaveformOps.held (Voice.wave (voice3 s)) ->
   WaveformOps.held (Voice.wave (voice3 s1))) /\
  envelopes s1 =
  map3 (envelope_clock (Filter.bypass (filter s)) delta_t) (envelopes s).
Proof.
  intros Hv Hos Hv' w1 s1.
  assert (Hh : WaveformOps.held w1).
  { apply WaveformFacts.held_run; [exact Hos|].
    unfold WaveformGenerator.writeCONTROL_REG. rewrite Hv. repeat split. }
  destruct Hh as [Ht [Ha Hs]].
  assert (Hst : clock_stable WaveformOps.held).
  { split; intros x y Hy.
    - apply (WaveformFacts.held_apply (WaveformOps.Clock x) y I Hy).
    - apply (WaveformFacts.held_apply (WaveformOps.Synchronize x) y I Hy). }
  assert (Htr : clock_stable (fun _ => True)) by (split; intros; exact I).
  assert (Hw : waves s1 =
               waves_clock (Filter.bypass (filter s)) delta_t (waves s))
    by apply clock_waves.
  split; [exact Ht|]. split; [exact Ha|]. split; [exact Hs|].
  split; [|split].
  - unfold WaveformGenerator.writeCONTROL_REG. rewrite Hv'. reflexivity.
  - unfold WaveformGenerator.writeCONTROL_REG. rewrite Hv', Ht. reflexivity.
  - split; [|split; [|split]].
    + intros H.
      pose proof (waves_clock_preserves _ _ _ Hst Htr Htr
                    (Filter.bypass (filter s)) delta_t (waves s)
                    (conj H (conj I I))) as G.
      rewrite <- Hw in G. apply G.
    + intros H.
      pose proof (waves_clock_preserves _ _ _ Htr Hst Htr
                    (Filter.bypass (filter s)) delta_t (waves s)
                    (conj I (conj H I))) as G.
      rewrite <- Hw in G. apply G.
    + intros H.
      pose proof (waves_clock_preserves _ _ _ Htr Htr Hst
                    (Filter.bypass (filter s)) delta_t (waves s)
                    (conj I (conj I H))) as G.
      rewrite <- Hw in G. apply G.
    + apply clock_envelopes.
Qed.

Lemma test_bit_holds_oscillator_witness :
  WaveformGenerator.accumulator
    (WaveformOps.run
       [WaveformOps.Clock 100; WaveformOps.WriteFREQ_HI 0x10;
        WaveformOps.WriteCONTROL_REG 0x88; WaveformOps.Synchronize true]
       (WaveformGenerator.writeCONTROL_REG 0x08
          (WaveformGenerator.mk false 0x123456 0x7ffff8 0x1000 0 2 false
             false false))) = 0 /\
  WaveformGenerator.shift_register
    (WaveformGenerator.writeCONTROL_REG 0x00
       (WaveformOps.run
          [WaveformOps.Clock 100; WaveformOps.WriteFREQ_HI 0x10;
           WaveformOps.WriteCONTROL_REG 0x88; WaveformOps.Synchronize true]
          (WaveformGenerator.writeCONTROL_REG 0x08
             (WaveformGenerator.mk false 0x123456 0x7ffff8 0x1000 0 2 false
                false false)))) = 0x7ffff8.
Proof.
  pose proof (test_bit_holds_oscillator
    (fun _ _ _ _ f => f) (fun _ _ => 0) 0x08 0x00
    [WaveformOps.Clock 100; WaveformOps.WriteFREQ_HI 0x10;
     WaveformOps.WriteCONTROL_REG 0x88; WaveformOps.Synchronize true]
    (WaveformGenerator.mk false 0x123456 0x7ffff8 0x1000 0 2 false false false)
    (reset (mk (Voice.mk (WaveformGenerator.mk false 0 0 0 0 0 false false false)
                         EnvelopeOps.power_on)
               (Voice.mk (WaveformGenerator.mk false 0 0 0 0 0 false false false)
                         EnvelopeOps.power_on)
               (Voice.mk (WaveformGenerator.mk false 0 0 0 0 0 false false false)
                         EnvelopeOps.power_on)
               (Filter.mk false 0 0 0)))
    20 eq_refl ltac:(repeat constructor) eq_refl) as H.
  cbv zeta in H. destruct H as (_ & A & _ & _ & B & _).
  split; [exact A | exact B].
Defined.

(** C7.  After any [reset()] every waveform generator has a zero
    accumulator, the noise register 0x7FFFF8, [freq = 0], [pw = 0] and
    the test, ring modulation and sync flags cleared; every envelope
    generator has its counters at zero and the gate cleared; the states
    of the filter and of the external filter are zero. *)
Theorem reset_state (s : t) (x : ExternalFilter.t) :
  ResetState.Voice_after_reset (voice1 (reset s)) /\
  ResetState.Voice_after_reset (voice2 (reset s)) /\
  ResetState.Voice_after_reset (voice3 (reset s)) /\
  Filter.Vhp (filter (reset s)) = 0 /\
  Filter.Vbp (filter (reset s)) = 0 /\
  Filter.Vlp (filter (reset s)) = 0 /\
  ExternalFilter.vlp (ExternalFilter.reset x) = 0 /\
  ExternalFilter.vhp (ExternalFilter.reset x) = 0.
Proof.
  unfold ResetState.Voice_after_reset, reset, Voice.reset,
    WaveformGenerator.reset, EnvelopeGenerator.reset, Filter.reset,
    ExternalFilter.reset.
  cbn. repeat split.
Qed.

(** The waveform selector is not among the registers [reset] assigns. *)
Lemma reset_keeps_waveform (s : t) :
  WaveformGenerator.waveform (Voice.wave (voice1 (reset s))) =
  WaveformGenerator.waveform (Voice.wave (voice1 s)).
Proof. reflexivity. Qed.

End SIDFacts.

(* ------------------------------------------------------------------ *)
(** ** The external filter and the output scaling *)

Module ExternalFilterFacts.
Import ExternalFilter ExternalFilterOps.

Lemma to_short_range (x : Z) : -32768 <= to_short x <= 32767.
Proof.
  unfold to_short. pose proof (Z.mod_pos_bound (x + 32768) 65536 ltac:(lia)). lia.
Qed.

Lemma to_short_small (x : Z) : -32768 <= x <= 32767 -> to_short x = x.
Proof. intros H. unfold to_short. rewrite Z.mod_small by lia. lia. Qed.

Lemma to_short_congr (x : Z) : (to_short x - x) mod 65536 = 0.
Proof.
  unfold to_short.
  rewrite (Z.mod_eq (x + 32768) 65536) by lia.
  replace (x + 32768 - 65536 * ((x + 32768) / 65536) - 32768 - x)
    with ((- ((x + 32768) / 65536)) * 65536) by lia.
  apply Z.mod_mul. lia.
Qed.

Lemma clamp16_range (x : Z) : -32768 <= clamp16 x <= 32767.
Proof. unfold clamp16. lia. Qed.

Lemma shiftr_shiftl_11 (vi : Z) : Z.shiftr (Z.shiftl vi 11 - 0) 11 = vi.
Proof.
  rewrite Z.sub_0_r, Z.shiftr_shiftl_l by lia. apply Z.shiftl_0_r.
Qed.

(** C8, as stated, fails: after 90 cycles at input -32768 and 100 cycles
    at input 32767 the filter holds [(vlp - vhp) >> 11 = 32780]; [output]
    returns -32756, the low 16 bits, where saturation would give 32767. *)
Lemma output_not_clamped :
  reachable swing /\
  Z.shiftr (vlp swing - vhp swing) 11 = 32780 /\
  output swing = -32756 /\
  clamp16 (Z.shiftr (vlp swing - vhp swing) 11) = 32767 /\
  output swing <> clamp16 (Z.shiftr (vlp swing - vhp swing) 11).
Proof.
  split.
  - unfold swing, power_on.
    apply reach_clock; [lia | unfold is_short; lia |].
    apply reach_clock; [lia | unfold is_short; lia |].
    apply reach_enable_filter, reach_reset.
  - vm_compute. repeat split; discriminate.
Qed.

(** C8, amended.  [output] returns [(vlp - vhp) >> 11] converted to
    [short]: a value of the signed 16-bit range congruent to it modulo
    2^16.  When [(vlp - vhp) >> 11] lies in the signed 16-bit range the
    result is that value, which is also what saturation gives. *)
Theorem output_truncates_to_short (f : t) :
  -32768 <= output f <= 32767 /\
  (output f - Z.shiftr (vlp f - vhp f) 11) mod 65536 = 0 /\
  (-32768 <= Z.shiftr (vlp f - vhp f) 11 <= 32767 ->
   output f = Z.shiftr (vlp f - vhp f) 11 /\
   output f = clamp16 (Z.shiftr (vlp f - vhp f) 11)).
Proof.
  unfold output. split; [apply to_short_range|]. split; [apply to_short_congr|].
  intros H. rewrite to_short_small by lia. unfold clamp16. lia.
Qed.

Lemma output_truncates_to_short_witness :
  output (mk true 4096000 2048) = 1999 /\
  output (mk true 4096000 2048) = clamp16 1999.
Proof.
  apply (output_truncates_to_short (mk true 4096000 2048)).
  vm_compute. split; discriminate.
Defined.

(** *** Clock steps that add up *)

Lemma step_enabled (c : Coefficients) (vi : Z) (f : t) :
  enabled (step c vi f) = enabled f.
Proof. reflexivity. Qed.

Lemma repeat_step_enabled (c : Coefficients) (vi : Z) (n : nat) :
  forall f, enabled (repeat_fn (step c vi) n f) = enabled f.
Proof.
  induction n as [|n IH]; intros f; cbn [repeat_fn]; [reflexivity|].
  rewrite IH. reflexivity.
Qed.

Lemma clock1_enabled (vi : Z) (f : t) : enabled (clock1 vi f) = enabled f.
Proof. unfold clock1. destruct (enabled f) eqn:E; cbn [negb]; [exact E|reflexivity]. Qed.

Lemma repeat_clock1_enabled (vi : Z) (n : nat) :
  forall f, enabled (repeat_fn (clock1 vi) n f) = enabled f.
Proof.
  induction n as [|n IH]; intros f; cbn [repeat_fn]; [reflexivity|].
  rewrite IH. apply clock1_enabled.
Qed.

(** The loop of [clock]: [delta_t / MAX_CYCLES] steps of [MAX_CYCLES]
    cycles, then [delta_t mod MAX_CYCLES] single cycles. *)
Lemma clock_loop_eq (vi : Z) (fuel : nat) :
  forall delta_t f,
    0 <= delta_t -> (Z.to_nat delta_t < fuel)%nat ->
    clock_loop fuel delta_t vi f =
    repeat_fn (clock1 vi) (Z.to_nat (delta_t mod MAX_CYCLES))
      (repeat_fn (step tmax vi) (Z.to_nat (delta_t / MAX_CYCLES)) f).
Proof.
  unfold MAX_CYCLES.
  induction fuel as [|fuel IH]; intros dt f Hdt Hf; [lia|].
  cbn [clock_loop]. unfold MAX_CYCLES.
  destruct (Z.eqb_spec dt 0) as [->|Hnz]; [reflexivity|].
  destruct (Z.ltb_spec dt 10) as [Hlt|Hge].
  - rewrite Z.mod_small, Z.div_small by lia. reflexivity.
  - rewrite IH by lia.
    replace dt with (dt - 10 + 1 * 10) at 3 4 by lia.
    rewrite Z.mod_add, Z.div_add by lia.
    rewrite Z2Nat.inj_add by (try apply Z.div_pos; lia).
    rewrite Nat.add_comm. cbn [Z.to_nat Pos.to_nat Pos.iter_op Nat.add repeat_fn].
    reflexivity.
Qed.

Lemma clock_eq (delta_t vi : Z) (f : t) :
  enabled f = true -> 0 <= delta_t ->
  clock delta_t vi f =
  repeat_fn (clock1 vi) (Z.to_nat (delta_t mod MAX_CYCLES))
    (repeat_fn (step tmax vi) (Z.to_nat (delta_t / MAX_CYCLES)) f).
Proof.
  intros He Hdt. unfold clock. rewrite He. cbn [negb].
  apply clock_loop_eq; lia.
Qed.

Lemma clock_enabled (delta_t vi : Z) (f : t) :
  0 <= delta_t -> enabled (clock delta_t vi f) = enabled f.
Proof.
  intros Hdt. destruct (enabled f) eqn:He.
  - rewrite clock_eq by assumption.
    rewrite repeat_clock1_enabled, repeat_step_enabled. exact He.
  - unfold clock. rewrite He. reflexivity.
Qed.

Lemma extfilt_clock_additive (a b vi : Z) (f : t) :
  0 <= a -> 0 <= b ->
  enabled f = false \/ a mod MAX_CYCLES = 0 \/ a + b < MAX_CYCLES ->
  clock b vi (clock a vi f) = clock (a + b) vi f.
Proof.
  intros Ha Hb H. destruct (enabled f) eqn:He.
  - assert (He' : enabled (clock a vi f) = true)
      by (rewrite clock_enabled by lia; exact He).
    destruct H as [H|[H|H]]; [discriminate| |].
    + rewrite (clock_eq b vi (clock a vi f) He' Hb).
      rewrite (clock_eq (a + b) vi f He ltac:(lia)), (clock_eq a vi f He Ha).
      unfold MAX_CYCLES in *. rewrite H. cbn [Z.to_nat repeat_fn].
      assert (Ea : a = 10 * (a / 10)).
      { pose proof (Z.div_mod a 10 ltac:(lia)). lia. }
      assert (E1 : (a + b) mod 10 = b mod 10).
      { rewrite Ea, Z.add_comm, Z.mul_comm, Z.mod_add by lia. reflexivity. }
      assert (E2 : (a + b) / 10 = a / 10 + b / 10).
      { rewrite Ea at 1. rewrite Z.add_comm, Z.mul_comm, Z.div_add by lia. lia. }
      rewrite E1, E2.
      rewrite Z2Nat.inj_add by (apply Z.div_pos; lia).
      rewrite repeat_fn_add. reflexivity.
    + rewrite (clock_eq b vi (clock a vi f) He' Hb).
      rewrite (clock_eq (a + b) vi f He ltac:(lia)), (clock_eq a vi f He Ha).
      unfold MAX_CYCLES in *.
      rewrite !Z.mod_small, !Z.div_small by lia. cbn [Z.to_nat repeat_fn].
      rewrite Z2Nat.inj_add by lia. rewrite repeat_fn_add. reflexivity.
  - unfold clock. rewrite He. cbn [negb enabled]. reflexivity.
Qed.

(** Ten single cycles are not one step of [MAX_CYCLES] cycles. *)
Lemma extfilt_clock_not_additive :
  clock 5 1 (clock 5 1 power_on) <> clock 10 1 power_on.
Proof. vm_compute. discriminate. Qed.

(** C9.  When the external filter is disabled, [clock] with input [vi],
    for any [delta_t] (zero included) and in its one-cycle form, sets
    [vlp = vi << 11] and [vhp = 0], and [output] then returns [vi]. *)
Theorem disabled_filter_passes_input (f : t) (delta_t vi : Z) :
  enabled f = false -> is_short vi ->
  vlp (clock delta_t vi f) = Z.shiftl vi 11 /\
  vhp (clock delta_t vi f) = 0 /\
  output (clock delta_t vi f) = vi /\
  vlp (clock1 vi f) = Z.shiftl vi 11 /\
  vhp (clock1 vi f) = 0 /\
  output (clock1 vi f) = vi.
Proof.
  intros He Hvi. unfold clock, clock1, output. rewrite He. cbn [negb vlp vhp].
  rewrite shiftr_shiftl_11, to_short_small by exact Hvi.
  repeat split.
Qed.

Lemma disabled_filter_passes_input_witness :
  output (clock 0 (-12345) (mk false 77 (-5))) = -12345.
Proof.
  apply (disabled_filter_passes_input (mk false 77 (-5)) 0 (-12345)).
  - reflexivity.
  - unfold is_short. lia.
Defined.

End ExternalFilterFacts.

(** ** Additivity of [SID::clock] *)

Module AdditivityFacts.
Import SID SIDOps Scenario.

Section WithFilter.
Variable Filter_clock : Z -> Z -> Z -> Z -> Filter.t -> Filter.t.
Variable Voice_output : WaveformGenerator.t -> Voice.t -> Z.
Hypothesis KB : keeps_bypass Filter_clock.

Lemma clock_loop_bypass (fuel : nat) :
  forall d dflt s,
    Filter.bypass (filter (clock_loop Filter_clock Voice_output fuel d dflt s))
    = Filter.bypass (filter s).
Proof.
  induction fuel as [|fuel IH]; intros d dflt s; cbn [clock_loop]; [reflexivity|].
  destruct (d >? 0); [|reflexivity]. rewrite IH.
  unfold clock_window. destruct (osc_loop _ _ _) as [[w1 w2] w3].
  cbn [filter]. apply KB.
Qed.

Lemma clock_bypass (d : Z) (s : t) :
  Filter.bypass (filter (clock Filter_clock Voice_output d s))
  = Filter.bypass (filter s).
Proof.
  unfold clock. destruct (d =? 0); [reflexivity|]. apply clock_loop_bypass.
Qed.

End WithFilter.

(** The windows of [SID::clock] add up to one call of the envelope
    generator's [clock]. *)
Lemma envelope_loop_clock (fuel : nat) :
  forall dt dflt e,
    EnvelopeOps.settled e -> 0 <= dt -> 1 <= dflt -> (Z.to_nat dt < fuel)%nat ->
    envelope_loop fuel dt dflt e = EnvelopeGenerator.clock dt e.
Proof.
  induction fuel as [|fuel IH]; intros dt dflt e Hs Hdt Hfl Hf; [lia|].
  cbn [envelope_loop]. destruct (Z.gtb_spec dt 0) as [Hpos|Hz].
  - set (d1 := if dt <? dflt then dt else dflt).
    assert (Hd1 : 1 <= d1 <= dt) by (unfold d1; destruct (Z.ltb_spec dt dflt); lia).
    rewrite IH; try lia.
    + rewrite EnvelopeFacts.envelope_clock_additive by (assumption || lia).
      f_equal. lia.
    + apply EnvelopeFacts.settled_clock; [exact Hs|lia].
  - assert (dt = 0) as -> by lia. symmetry. apply EnvelopeFacts.clock_0, Hs.
Qed.

Lemma envelope_clock_clock (bypass : bool) (dt : Z) (e : EnvelopeGenerator.t) :
  EnvelopeOps.settled e -> 0 <= dt ->
  envelope_clock bypass dt e = EnvelopeGenerator.clock dt e.
Proof.
  intros Hs Hdt. unfold envelope_clock.
  destruct (Z.eqb_spec dt 0) as [->|Hnz].
  - symmetry. apply EnvelopeFacts.clock_0, Hs.
  - apply envelope_loop_clock; try assumption; try lia.
    destruct bypass; lia.
Qed.

Lemma clock_envelope1
  (Filter_clock : Z -> Z -> Z -> Z -> Filter.t -> Filter.t)
  (Voice_output : WaveformGenerator.t -> Voice.t -> Z) (d : Z) (s : t) :
  Voice.envelope (voice1 (clock Filter_clock Voice_output d s)) =
  envelope_clock (Filter.bypass (filter s)) d (Voice.envelope (voice1 s)).
Proof.
  pose proof (SIDFacts.clock_envelopes Filter_clock Voice_output d s) as H.
  apply (f_equal (fun e => fst (fst e))) in H. exact H.
Qed.

Lemma envelope_on_voice1 (f : Voice.t -> Voice.t) (s : t) :
  Voice.envelope (voice1 (on_voice1 f s)) = Voice.envelope (f (voice1 s)).
Proof. reflexivity. Qed.

Lemma filter_on_voice1 (f : Voice.t -> Voice.t) (s : t) :
  filter (on_voice1 f s) = filter s.
Proof. reflexivity. Qed.

Lemma envelope_on_envelope
  (g : EnvelopeGenerator.t -> EnvelopeGenerator.t) (v : Voice.t) :
  Voice.envelope (on_envelope g v) = g (Voice.envelope v).
Proof. reflexivity. Qed.

Lemma envelope_writeCONTROL_REG (c : Z) (v : Voice.t) :
  Voice.envelope (Voice.writeCONTROL_REG c v) =
  EnvelopeGenerator.writeCONTROL_REG c (Voice.envelope v).
Proof. reflexivity. Qed.

(** The voice of the scenario: in ATTACK with the counter at 0xFF. *)
Lemma retriggered_envelope
  (Filter_clock : Z -> Z -> Z -> Z -> Filter.t -> Filter.t)
  (Voice_output : WaveformGenerator.t -> Voice.t -> Z) :
  Voice.envelope (voice1 (retriggered Filter_clock Voice_output)) =
  EnvelopeGenerator.mk 5 0 255 0 0 0 0 true EnvelopeGenerator.ATTACK.
Proof.
  unfold retriggered.
  rewrite envelope_on_voice1, envelope_on_envelope.
  rewrite envelope_on_voice1, envelope_writeCONTROL_REG.
  rewrite envelope_on_voice1, envelope_writeCONTROL_REG.
  rewrite clock_envelope1.
  vm_compute. reflexivity.
Qed.

Lemma retriggered_bypass
  (Filter_clock : Z -> Z -> Z -> Z -> Filter.t -> Filter.t)
  (Voice_output : WaveformGenerator.t -> Voice.t -> Z) :
  keeps_bypass Filter_clock ->
  Filter.bypass (filter (retriggered Filter_clock Voice_output)) = false.
Proof.
  intros KB. unfold retriggered. rewrite !filter_on_voice1.
  rewrite (clock_bypass Filter_clock Voice_output KB). reflexivity.
Qed.

Lemma waves_on_voice1 (f : Voice.t -> Voice.t) (s : t) :
  waves (on_voice1 f s)
  = (Voice.wave (f (voice1 s)), snd (fst (waves s)), snd (waves s)).
Proof. reflexivity. Qed.

Lemma waves_on_voice2 (f : Voice.t -> Voice.t) (s : t) :
  waves (on_voice2 f s)
  = (fst (fst (waves s)), Voice.wave (f (voice2 s)), snd (waves s)).
Proof. reflexivity. Qed.

Lemma wave_writeCONTROL_REG (c : Z) (v : Voice.t) :
  Voice.wave (Voice.writeCONTROL_REG c v) =
  WaveformGenerator.writeCONTROL_REG c (Voice.wave v).
Proof. reflexivity. Qed.

Lemma wave_voice1 (s : t) : Voice.wave (voice1 s) = fst (fst (waves s)).
Proof. reflexivity. Qed.

Lemma wave_voice2 (s : t) : Voice.wave (voice2 s) = snd (fst (waves s)).
Proof. reflexivity. Qed.

Lemma voice2_on_voice1 (f : Voice.t -> Voice.t) (s : t) :
  voice2 (on_voice1 f s) = voice2 s.
Proof. reflexivity. Qed.

Lemma stale_waves
  (Filter_clock : Z -> Z -> Z -> Z -> Filter.t -> Filter.t)
  (Voice_output : WaveformGenerator.t -> Voice.t -> Z) :
  waves (stale Filter_clock Voice_output) =
  (WaveformGenerator.mk true 0 0 0x8000 0 0 true false false,
   WaveformGenerator.mk false 512000 0x7ffff8 2000 0 0 false false true,
   WaveformGenerator.mk false 0 0x7ffff8 0 0 0 false false false).
Proof.
  unfold stale.
  rewrite waves_on_voice2, voice2_on_voice1, waves_on_voice1.
  rewrite !wave_writeCONTROL_REG, wave_voice1, wave_voice2.
  rewrite SIDFacts.clock_waves.
  vm_compute. reflexivity.
Qed.

Lemma filter_on_voice2 (f : Voice.t -> Voice.t) (s : t) :
  filter (on_voice2 f s) = filter s.
Proof. reflexivity. Qed.

Lemma stale_bypass
  (Filter_clock : Z -> Z -> Z -> Z -> Filter.t -> Filter.t)
  (Voice_output : WaveformGenerator.t -> Voice.t -> Z) :
  keeps_bypass Filter_clock ->
  Filter.bypass (filter (stale Filter_clock Voice_output)) = false.
Proof.
  intros KB. unfold stale. rewrite filter_on_voice2, !filter_on_voice1.
  rewrite (clock_bypass Filter_clock Voice_output KB). reflexivity.
Qed.

(** With the filter in use, additivity of the oscillators needs the
    condition on [msb_rising]: an oscillator put under test just after
    its MSB rose keeps the flag, and its sync destination is then reset
    by every call of [synchronize], that is once per call window. *)
Lemma stale_msb_rising_not_additive
  (Filter_clock : Z -> Z -> Z -> Z -> Filter.t -> Filter.t)
  (Voice_output : WaveformGenerator.t -> Voice.t -> Z) :
  keeps_bypass Filter_clock ->
  WaveformGenerator.shift_register
    (snd (fst (waves (clock Filter_clock Voice_output 7
                        (clock Filter_clock Voice_output 1
                           (stale Filter_clock Voice_output))))))
  <> WaveformGenerator.shift_register
       (snd (fst (waves (clock Filter_clock Voice_output 8
                           (stale Filter_clock Voice_output))))).
Proof.
  intros KB. rewrite !SIDFacts.clock_waves.
  rewrite (clock_bypass Filter_clock Voice_output KB).
  rewrite (stale_bypass Filter_clock Voice_output KB), stale_waves.
  vm_compute. discriminate.
Qed.

(** With the filter bypassed a call is one window, and
    [WaveformGenerator::clock] counts the rises of bit 19 from the two
    ends of the window only: from the accumulator 0xFFFF0, 9 cycles at
    frequency 0xFFFF cross 0x180000 and shift nothing. *)
Lemma bypassed_oscillator_not_additive
  (Filter_clock : Z -> Z -> Z -> Z -> Filter.t -> Filter.t)
  (Voice_output : WaveformGenerator.t -> Voice.t -> Z) :
  keeps_bypass Filter_clock ->
  WaveformGenerator.shift_register
    (fst (fst (waves (clock Filter_clock Voice_output 9
                        (clock Filter_clock Voice_output 16 bypassed)))))
  <> WaveformGenerator.shift_register
       (fst (fst (waves (clock Filter_clock Voice_output 25 bypassed)))).
Proof.
  intros KB. rewrite !SIDFacts.clock_waves.
  rewrite (clock_bypass Filter_clock Voice_output KB).
  vm_compute. discriminate.
Qed.

(** C1, as stated, fails.  The external filter takes whole steps of
    [MAX_CYCLES] cycles with coefficients of their own: 5 + 5 cycles at
    input 1 leave [vlp = 1279], 10 cycles leave 1280.  And whatever the
    filter does, [SID::clock] is not additive on the envelope generator
    of a voice retriggered at 0xFF ([clock(1); clock(100)] and
    [clock(101)] leave different envelope counters), nor on the noise
    register of the sync destination of an oscillator under test with
    [msb_rising] left set, nor on the noise register of an oscillator
    when the filter is bypassed. *)
Lemma clock_not_additive :
  ExternalFilter.clock 5 1 (ExternalFilter.clock 5 1 ExternalFilterOps.power_on)
  <> ExternalFilter.clock 10 1 ExternalFilterOps.power_on /\
  ~ (exists Filter_clock Voice_output,
       keeps_bypass Filter_clock /\
       EnvelopeGenerator.envelope_counter
         (Voice.envelope
            (voice1 (clock Filter_clock Voice_output 100
                       (clock Filter_clock Voice_output 1
                          (retriggered Filter_clock Voice_output)))))
       = EnvelopeGenerator.envelope_counter
           (Voice.envelope
              (voice1 (clock Filter_clock Voice_output 101
                         (retriggered Filter_clock Voice_output))))) /\
  ~ (exists Filter_clock Voice_output,
       keeps_bypass Filter_clock /\
       WaveformGenerator.shift_register
         (snd (fst (waves (clock Filter_clock Voice_output 7
                             (clock Filter_clock Voice_output 1
                                (stale Filter_clock Voice_output))))))
       = WaveformGenerator.shift_register
           (snd (fst (waves (clock Filter_clock Voice_output 8
                               (stale Filter_clock Voice_output)))))) /\
  ~ (exists Filter_clock Voice_output,
       keeps_bypass Filter_clock /\
       WaveformGenerator.shift_register
         (fst (fst (waves (clock Filter_clock Voice_output 9
                             (clock Filter_clock Voice_output 16 bypassed)))))
       = WaveformGenerator.shift_register
           (fst (fst (waves (clock Filter_clock Voice_output 25 bypassed))))).
Proof.
  split; [apply ExternalFilterFacts.extfilt_clock_not_additive|].
  split; [|split].
  - intros (FC & VO & KB & H).
    rewrite !clock_envelope1 in H.
    rewrite (clock_bypass FC VO KB) in H.
    rewrite (retriggered_bypass FC VO KB) in H.
    rewrite retriggered_envelope in H.
    vm_compute in H. discriminate H.
  - intros (FC & VO & KB & H).
    exact (stale_msb_rising_not_additive FC VO KB H).
  - intros (FC & VO & KB & H).
    exact (bypassed_oscillator_not_additive FC VO KB H).
Qed.

(** C1, amended.  On a SID whose envelope generators are where clocking
    takes them (not in ATTACK at 0xFF, not in DECAY_SUSTAIN below the
    sustain level), [clock(a); clock(b)] leaves the envelope counters,
    rate counters and exponential counters that [clock(a + b)] leaves,
    whatever the filter does (as long as it keeps its bypass flag).  If
    moreover the filter is not bypassed, the oscillators' registers are
    in range and no oscillator under test offers a set [msb_rising] to a
    sync destination, the two leave the same accumulators and noise
    shift registers.  The external filter gives
    [clock(a, vi); clock(b, vi) = clock(a + b, vi)] when it is disabled,
    when [a] is a multiple of [MAX_CYCLES] or when
    [a + b < MAX_CYCLES]. *)
Theorem clock_additive_where_cycle_exact
  (Filter_clock : Z -> Z -> Z -> Z -> Filter.t -> Filter.t)
  (Voice_output : WaveformGenerator.t -> Voice.t -> Z)
  (a b : Z) (s : t) (x : ExternalFilter.t) (vi : Z) :
  keeps_bypass Filter_clock ->
  0 <= a -> 0 <= b ->
  EnvelopeOps.settled (Voice.envelope (voice1 s)) ->
  EnvelopeOps.settled (Voice.envelope (voice2 s)) ->
  EnvelopeOps.settled (Voice.envelope (voice3 s)) ->
  let s_ab := clock Filter_clock Voice_output b
                (clock Filter_clock Voice_output a s) in
  let s_sum := clock Filter_clock Voice_output (a + b) s in
  envelopes s_ab = envelopes s_sum /\
  (Filter.bypass (filter s) = false -> steady3 (waves s) ->
   agree3 (waves s_ab) (waves s_sum)) /\
  (ExternalFilter.enabled x = false \/ a mod ExternalFilter.MAX_CYCLES = 0
   \/ a + b < ExternalFilter.MAX_CYCLES ->
   ExternalFilter.clock b vi (ExternalFilter.clock a vi x)
   = ExternalFilter.clock (a + b) vi x).
Proof.
  intros KB Ha Hb S1 S2 S3 s_ab s_sum. unfold s_ab, s_sum.
  split; [|split].
  - rewrite !SIDFacts.clock_envelopes.
    rewrite (clock_bypass Filter_clock Voice_output KB).
    unfold map3, envelopes. cbn [fst snd].
    assert (E : forall e, EnvelopeOps.settled e ->
              envelope_clock (Filter.bypass (filter s)) b
                (envelope_clock (Filter.bypass (filter s)) a e)
              = envelope_clock (Filter.bypass (filter s)) (a + b) e).
    { intros e He.
      rewrite (envelope_clock_clock _ a e He Ha).
      rewrite (envelope_clock_clock _ b _
                 (EnvelopeFacts.settled_clock a e He Ha) Hb).
      rewrite (envelope_clock_clock _ (a + b) e He) by lia.
      apply EnvelopeFacts.envelope_clock_additive; assumption. }
    rewrite !E by assumption. reflexivity.
  - intros HB Hst.
    rewrite !SIDFacts.clock_waves.
    rewrite (clock_bypass Filter_clock Voice_output KB), HB.
    apply OscillatorFacts.waves_clock_additive; assumption.
  - intros Hx. apply ExternalFilterFacts.extfilt_clock_additive; assumption.
Qed.

Lemma clock_additive_where_cycle_exact_witness :
  envelopes
    (clock (fun _ _ _ _ f => f) (fun _ _ => 0) 21
       (clock (fun _ _ _ _ f => f) (fun _ _ => 0) 13
          (on_voice1 (Voice.writeCONTROL_REG 0x21) power_on)))
  = envelopes
      (clock (fun _ _ _ _ f => f) (fun _ _ => 0) (13 + 21)
         (on_voice1 (Voice.writeCONTROL_REG 0x21) power_on)) /\
  agree3
    (waves
       (clock (fun _ _ _ _ f => f) (fun _ _ => 0) 21
          (clock (fun _ _ _ _ f => f) (fun _ _ => 0) 13
             (on_voice1 (Voice.writeCONTROL_REG 0x21) power_on))))
    (waves
       (clock (fun _ _ _ _ f => f) (fun _ _ => 0) (13 + 21)
          (on_voice1 (Voice.writeCONTROL_REG 0x21) power_on))) /\
  ExternalFilter.clock 21 100
    (ExternalFilter.clock 13 100 (ExternalFilter.mk false 0 0))
  = ExternalFilter.clock (13 + 21) 100 (ExternalFilter.mk false 0 0).
Proof.
  assert (W : EnvelopeOps.wf EnvelopeOps.power_on)
    by (constructor; cbn; lia).
  assert (S0 : EnvelopeOps.settled EnvelopeOps.power_on).
  { split; [exact W|]. split; intros X; discriminate X. }
  assert (S1 : EnvelopeOps.settled
                 (EnvelopeGenerator.writeCONTROL_REG 0x21 EnvelopeOps.power_on)).
  { split; [constructor; cbn; lia|].
    split; [intros _; cbn; lia|intros X; discriminate X]. }
  pose proof (clock_additive_where_cycle_exact
                (fun _ _ _ _ f => f) (fun _ _ => 0) 13 21
                (on_voice1 (Voice.writeCONTROL_REG 0x21) power_on)
                (ExternalFilter.mk false 0 0) 100
                (fun _ _ _ _ _ => eq_refl) ltac:(lia) ltac:(lia) S1 S0 S0) as H.
  cbv zeta in H. destruct H as (A & C & B).
  split; [exact A|]. split; [|apply B; left; reflexivity].
  apply C; [reflexivity|].
  unfold steady3, WaveformOps.valid, no_stale. cbn.
  repeat split; try lia; intros X; discriminate X.
Defined.

End AdditivityFacts.

Module SIDOutputFacts.

(** C10.  [SID::output()] returns what [SID::output(15)] returns: the
    range used by [output(bits)] is [2 << bits], which is 65536 at
    [bits = 15]; both divide the negated filter output by
    [4095*255*3*15*2/65536 = 1434].  At [bits = 16] the divisor is 717 and
    the results differ. *)
Theorem output_is_output_15
  (Filter_output : Filter.t -> Z) (s : SID.t) :
  SID.output Filter_output s = SID.output_bits Filter_output 15 s /\
  Z.shiftl 2 15 = 65536 /\
  SID.output Filter_output s = Z.quot (- Filter_output (SID.filter s)) 1434 /\
  SID.output_bits Filter_output 16 s =
    Z.quot (- Filter_output (SID.filter s)) 717 /\
  SID.output (fun _ => -1434) s <> SID.output_bits (fun _ => -1434) 16 s.
Proof.
  unfold SID.output, SID.output_bits.
  repeat split. vm_compute. discriminate.
Qed.

End SIDOutputFacts.

(* ------------------------------------------------------------------ *)
(** ** The waveform outputs *)

Module WaveformOutputFacts.
Import WaveformGenerator WaveformOps WaveformOutput.

Lemma land_0xfff (x : Z) : Z.land x 0xfff = x mod 2 ^ 12.
Proof. change 0xfff with (Z.ones 12). apply Z.land_ones. lia. Qed.

Lemma land_0xfff_range (x : Z) : 0 <= Z.land x 0xfff <= 0xfff.
Proof.
  rewrite land_0xfff. pose proof (Z.mod_pos_bound x (2 ^ 12) ltac:(lia)). lia.
Qed.

Lemma land_pow2 (x n : Z) :
  0 <= n -> Z.land x (2 ^ n) = if Z.testbit x n then 2 ^ n else 0.
Proof.
  intros Hn. apply Z.bits_inj'. intros i Hi.
  rewrite Z.land_spec, Z.pow2_bits_eqb by exact Hn.
  destruct (Z.eqb_spec n i) as [->|Hne].
  - rewrite andb_true_r. destruct (Z.testbit x i) eqn:Hb.
    + rewrite Z.pow2_bits_true by exact Hi. reflexivity.
    + rewrite Z.bits_0. reflexivity.
  - rewrite andb_false_r. destruct (Z.testbit x n).
    + rewrite Z.pow2_bits_false by lia. reflexivity.
    + rewrite Z.bits_0. reflexivity.
Qed.

Lemma land_bit (x n m : Z) :
  0 <= n -> m = 2 ^ n -> Z.land x m = if Z.testbit x n then m else 0.
Proof. intros Hn ->. apply land_pow2, Hn. Qed.

(** The noise output, one term per tap. *)
Lemma outputN____taps (source w : t) :
  outputN___ source w =
  (if Z.testbit (shift_register w) 22 then 2 ^ 11 else 0)
  + (if Z.testbit (shift_register w) 20 then 2 ^ 10 else 0)
  + (if Z.testbit (shift_register w) 16 then 2 ^ 9 else 0)
  + (if Z.testbit (shift_register w) 13 then 2 ^ 8 else 0)
  + (if Z.testbit (shift_register w) 11 then 2 ^ 7 else 0)
  + (if Z.testbit (shift_register w) 7 then 2 ^ 6 else 0)
  + (if Z.testbit (shift_register w) 4 then 2 ^ 5 else 0)
  + (if Z.testbit (shift_register w) 2 then 2 ^ 4 else 0).
Proof.
  unfold outputN___. cbv zeta.
  rewrite (land_bit (shift_register w) 22 0x400000),
    (land_bit (shift_register w) 20 0x100000),
    (land_bit (shift_register w) 16 0x010000),
    (land_bit (shift_register w) 13 0x002000),
    (land_bit (shift_register w) 11 0x000800),
    (land_bit (shift_register w) 7 0x000080),
    (land_bit (shift_register w) 4 0x000010),
    (land_bit (shift_register w) 2 0x000004) by (lia || reflexivity).
  destruct (Z.testbit (shift_register w) 22), (Z.testbit (shift_register w) 20),
    (Z.testbit (shift_register w) 16), (Z.testbit (shift_register w) 13),
    (Z.testbit (shift_register w) 11), (Z.testbit (shift_register w) 7),
    (Z.testbit (shift_register w) 4), (Z.testbit (shift_register w) 2);
    reflexivity.
Qed.

Lemma outputN____range (source w : t) :
  0 <= outputN___ source w <= 0xff0.
Proof.
  rewrite outputN____taps.
  destruct (Z.testbit (shift_register w) 22), (Z.testbit (shift_register w) 20),
    (Z.testbit (shift_register w) 16), (Z.testbit (shift_register w) 13),
    (Z.testbit (shift_register w) 11), (Z.testbit (shift_register w) 7),
    (Z.testbit (shift_register w) 4), (Z.testbit (shift_register w) 2);
    cbn; lia.
Qed.

Lemma output_P___cases (source w : t) :
  output_P__ source w = 0xfff \/ output_P__ source w = 0.
Proof. unfold output_P__. destruct (_ >=? _); [left|right]; reflexivity. Qed.

Lemma sample_and_pulse_range (x : Z) (source w : t) :
  0 <= Z.land x (output_P__ source w) <= 0xfff.
Proof.
  destruct (output_P___cases source w) as [-> | ->].
  - apply land_0xfff_range.
  - rewrite Z.land_0_r. lia.
Qed.

Lemma sample_shift_range (s : Z -> Z) (i : Z) :
  is_sample_table s -> 0 <= Z.shiftl (s i) 4 <= 0xfff.
Proof.
  intros Hs. specialize (Hs i). rewrite Z.shiftl_mul_pow2 by lia.
  change (2 ^ 4) with 16. lia.
Qed.

Lemma output__S__range (source w : t) :
  0 <= accumulator w < 2 ^ 24 -> 0 <= output__S_ source w <= 0xfff.
Proof.
  intros H. unfold output__S_. rewrite Z.shiftr_div_pow2 by lia.
  change (2 ^ 24) with (4096 * 2 ^ 12) in H.
  pose proof (Z.div_pos (accumulator w) (2 ^ 12) ltac:(lia) ltac:(lia)).
  assert (accumulator w / 2 ^ 12 < 4096)
    by (apply Z.div_lt_upper_bound; lia).
  lia.
Qed.

Lemma below_16 (n : Z) :
  0 <= n <= 15 -> In (Z.to_nat n) (seq 0 16).
Proof. intros H. apply in_seq. lia. Qed.

Section Range.
Variables sample__ST sample_P_T sample_PS_ sample_PST : Z -> Z.
Hypothesis H_ST : is_sample_table sample__ST.

Lemma output_range (source w : t) :
  0 <= accumulator w < 2 ^ 24 ->
  0 <= output sample__ST sample_P_T sample_PS_ sample_PST source w <= 0xfff.
Proof.
  intros Ha. unfold output.
  set (n := Z.to_nat (waveform w)).
  do 16 (destruct n as [|n];
         [cbn [nth output_function];
          first [ apply land_0xfff_range
                | apply (output__S__range source w Ha)
                | apply sample_and_pulse_range
                | apply (sample_shift_range _ _ H_ST)
                | pose proof (outputN____range source w); lia
                | destruct (output_P___cases source w) as [-> | ->]; lia
                | unfold output____, outputN__T, outputN_S_, outputN_ST,
                    outputNP__, outputNP_T, outputNPS_, outputNPST; lia ]|]).
  cbn [nth output_function]. destruct n; unfold output____; lia.
Qed.

End Range.

(** The complement of the accumulator, seen through the 12-bit window. *)
Lemma triangle_fold (acc : Z) :
  0 <= acc < 2 ^ 24 ->
  Z.land (Z.shiftr (u32 (Z.lnot acc)) 11) 0xfff
  = 0xfff - Z.land (Z.shiftr acc 11) 0xfff.
Proof.
  intros H. rewrite !land_0xfff, !Z.shiftr_div_pow2 by lia.
  unfold u32. replace (Z.lnot acc) with (- acc - 1) by (unfold Z.lnot; lia).
  change (2 ^ 24) with 16777216 in H.
  change (2 ^ 32) with 4294967296. change (2 ^ 11) with 2048.
  change (2 ^ 12) with 4096.
  assert (E : (- acc - 1) mod 4294967296 = 4294967295 - acc).
  { symmetry. apply (Z.mod_unique _ _ (-1)); lia. }
  rewrite E.
  assert (Q : (4294967295 - acc) / 2048 = 2097151 - acc / 2048).
  { symmetry. apply (Z.div_unique _ _ _ (2047 - acc mod 2048)).
    - pose proof (Z.mod_pos_bound acc 2048 ltac:(lia)). lia.
    - pose proof (Z.div_mod acc 2048 ltac:(lia)). lia. }
  rewrite Q.
  symmetry. apply (Z.mod_unique _ _ (511 - acc / 2048 / 4096)).
  - pose proof (Z.mod_pos_bound (acc / 2048) 4096 ltac:(lia)). lia.
  - pose proof (Z.div_mod (acc / 2048) 4096 ltac:(lia)). lia.
Qed.

Lemma testbit_23 (acc : Z) :
  0 <= acc < 2 ^ 24 -> Z.testbit acc 23 = (2 ^ 23 <=? acc).
Proof.
  intros H. rewrite Z.testbit_eqb by lia.
  change (2 ^ 24) with 16777216 in H. change (2 ^ 23) with 8388608.
  destruct (Z.leb_spec 8388608 acc) as [L|L].
  - assert (acc / 8388608 = 1) as ->
      by (symmetry; apply (Z.div_unique _ _ _ (acc - 8388608)); lia).
    reflexivity.
  - rewrite Z.div_small by lia. reflexivity.
Qed.

(** The triangle in closed form: the 12 bits above bit 10, complemented
    when the MSB (or, under ring modulation, the MSB EOR the MSB of the
    sync source) is set. *)
Lemma output___T_eq (source w : t) :
  0 <= accumulator w < 2 ^ 24 ->
  output___T source w =
  if xorb (Z.testbit (accumulator w) 23)
          (ring_mod w && Z.testbit (accumulator source) 23)
  then 0xfff - (accumulator w / 2 ^ 11) mod 2 ^ 12
  else (accumulator w / 2 ^ 11) mod 2 ^ 12.
Proof.
  intros H. unfold output___T. cbv zeta.
  assert (M : forall x, negb (Z.land x 0x800000 =? 0) = Z.testbit x 23).
  { intros x. change 0x800000 with (2 ^ 23).
    rewrite (WaveformFacts.land_pow2_eqb x 23) by lia.
    apply negb_involutive. }
  rewrite M.
  assert (B : Z.testbit (if ring_mod w
                         then Z.lxor (accumulator w) (accumulator source)
                         else accumulator w) 23
              = xorb (Z.testbit (accumulator w) 23)
                     (ring_mod w && Z.testbit (accumulator source) 23)).
  { destruct (ring_mod w); cbn [andb].
    - apply Z.lxor_spec.
    - rewrite xorb_false_r. reflexivity. }
  rewrite B. destruct (xorb _ _).
  - rewrite triangle_fold by exact H.
    rewrite land_0xfff, Z.shiftr_div_pow2 by lia. reflexivity.
  - rewrite land_0xfff, Z.shiftr_div_pow2 by lia. reflexivity.
Qed.

Lemma triangle_window_low (acc : Z) :
  0 <= acc < 2 ^ 23 -> (acc / 2 ^ 11) mod 2 ^ 12 = acc / 2 ^ 11.
Proof.
  intros H. apply Z.mod_small. split.
  - apply Z.div_pos; lia.
  - apply Z.div_lt_upper_bound; [lia|].
    change (2 ^ 11 * 2 ^ 12) with (2 ^ 23). lia.
Qed.

Lemma triangle_window_high (acc : Z) :
  2 ^ 23 <= acc < 2 ^ 24 ->
  (acc / 2 ^ 11) mod 2 ^ 12 = (acc - 2 ^ 23) / 2 ^ 11.
Proof.
  intros H.
  replace acc with ((acc - 2 ^ 23) + 1 * 2 ^ 12 * 2 ^ 11) at 1
    by (change (2 ^ 23) with (1 * 2 ^ 12 * 2 ^ 11); lia).
  rewrite Z.div_add by lia.
  rewrite <- Z.add_mod_idemp_r, Z.mod_same, Z.add_0_r by lia.
  apply triangle_window_low.
  change (2 ^ 24) with (2 ^ 23 + 2 ^ 23) in H. lia.
Qed.

(** X1.  Every one of the sixteen waveform selections gives a 12-bit
    output, and [readOSC] a byte, whatever the (8-bit) sample tables
    hold, the pulse width and the noise register. *)
Theorem waveform_output_is_12_bit
  (sample__ST sample_P_T sample_PS_ sample_PST : Z -> Z) (source w : t) :
  is_sample_table sample__ST ->
  0 <= waveform w <= 15 ->
  0 <= accumulator w < 2 ^ 24 ->
  0 <= output sample__ST sample_P_T sample_PS_ sample_PST source w <= 0xfff /\
  0 <= readOSC sample__ST sample_P_T sample_PS_ sample_PST source w <= 0xff.
Proof.
  intros HS _ Ha.
  pose proof (output_range sample__ST sample_P_T sample_PS_ sample_PST HS
                source w Ha) as H.
  split; [exact H|]. unfold readOSC. rewrite Z.shiftr_div_pow2 by lia.
  change (2 ^ 4) with 16. split.
  - apply Z.div_pos; lia.
  - assert (output sample__ST sample_P_T sample_PS_ sample_PST source w / 16
            < 256) by (apply Z.div_lt_upper_bound; lia).
    lia.
Qed.

Lemma waveform_output_is_12_bit_witness :
  0 <= output (fun _ => 0xff) (fun _ => 0xff) (fun _ => 0xff) (fun _ => 0xff)
         (mk false 0 0 0 0 0 false false false)
         (mk false 0xffffff 0x7fffff 0 0 3 false true false) <= 0xfff.
Proof.
  apply (waveform_output_is_12_bit (fun _ => 0xff) (fun _ => 0xff)
           (fun _ => 0xff) (fun _ => 0xff)
           (mk false 0 0 0 0 0 false false false)
           (mk false 0xffffff 0x7fffff 0 0 3 false true false)).
  - intros i. lia.
  - cbn. lia.
  - cbn. lia.
Defined.

(** X2.  Without ring modulation the triangle rises through the first
    half of the accumulator's range, one step every 2^11, and falls
    through the second half: two accumulators mirrored about the middle
    give the same output. *)
Theorem triangle_rises_then_falls (source w w' : t) :
  ring_mod w = false -> ring_mod w' = false ->
  0 <= accumulator w < 2 ^ 24 ->
  accumulator w' = 2 ^ 24 - 1 - accumulator w ->
  (accumulator w < 2 ^ 23 ->
   output___T source w = accumulator w / 2 ^ 11) /\
  (2 ^ 23 <= accumulator w ->
   output___T source w = 0xfff - (accumulator w - 2 ^ 23) / 2 ^ 11) /\
  output___T source w' = output___T source w.
Proof.
  intros Hr Hr' Ha Hm.
  assert (Ha' : 0 <= accumulator w' < 2 ^ 24) by lia.
  assert (L : accumulator w < 2 ^ 23 ->
              output___T source w = accumulator w / 2 ^ 11).
  { intros Hl. rewrite output___T_eq, Hr, testbit_23 by exact Ha.
    destruct (Z.leb_spec (2 ^ 23) (accumulator w)) as [X|_]; [lia|].
    cbn [andb xorb]. apply triangle_window_low. lia. }
  assert (U : 2 ^ 23 <= accumulator w ->
              output___T source w
              = 0xfff - (accumulator w - 2 ^ 23) / 2 ^ 11).
  { intros Hu. rewrite output___T_eq, Hr, testbit_23 by exact Ha.
    destruct (Z.leb_spec (2 ^ 23) (accumulator w)) as [_|X]; [|lia].
    cbn [andb xorb]. rewrite triangle_window_high by lia. reflexivity. }
  split; [exact L|]. split; [exact U|].
  rewrite (output___T_eq source w'), Hr', testbit_23 by exact Ha'.
  cbn [andb]. rewrite xorb_false_r.
  change (2 ^ 24) with (2 ^ 23 + 2 ^ 23) in *.
  destruct (Z.leb_spec (2 ^ 23) (accumulator w')) as [G|G].
  - rewrite L by lia. rewrite triangle_window_high
      by (change (2 ^ 24) with (2 ^ 23 + 2 ^ 23); lia).
    rewrite Hm.
    replace (2 ^ 23 + 2 ^ 23 - 1 - accumulator w - 2 ^ 23)
      with (2 ^ 23 - 1 - accumulator w) by lia.
    change (2 ^ 23) with (4096 * 2 ^ 11).
    change (2 ^ 23) with (4096 * 2 ^ 11) in G, Ha, Hm.
    assert (Q : (4096 * 2 ^ 11 - 1 - accumulator w) / 2 ^ 11
                = 4095 - accumulator w / 2 ^ 11).
    { symmetry.
      apply (Z.div_unique _ _ _ (2 ^ 11 - 1 - accumulator w mod 2 ^ 11)).
      - pose proof (Z.mod_pos_bound (accumulator w) (2 ^ 11) ltac:(lia)). lia.
      - pose proof (Z.div_mod (accumulator w) (2 ^ 11) ltac:(lia)). lia. }
    rewrite Q. lia.
  - rewrite U by lia. rewrite triangle_window_low by lia.
    rewrite Hm.
    change (2 ^ 23) with (4096 * 2 ^ 11).
    change (2 ^ 23) with (4096 * 2 ^ 11) in G, Ha, Hm.
    replace (accumulator w - 4096 * 2 ^ 11)
      with (4096 * 2 ^ 11 - 1 - accumulator w' ) by lia.
    assert (Q : (4096 * 2 ^ 11 - 1 - accumulator w') / 2 ^ 11
                = 4095 - accumulator w' / 2 ^ 11).
    { symmetry.
      apply (Z.div_unique _ _ _ (2 ^ 11 - 1 - accumulator w' mod 2 ^ 11)).
      - pose proof (Z.mod_pos_bound (accumulator w') (2 ^ 11) ltac:(lia)). lia.
      - pose proof (Z.div_mod (accumulator w') (2 ^ 11) ltac:(lia)). lia. }
    rewrite Q, <- Hm. lia.
Qed.

Lemma triangle_rises_then_falls_witness :
  output___T (mk false 0 0 0 0 0 false false false)
    (mk false (2 ^ 24 - 1 - 0x123456) 0 0 0 1 false false false)
  = output___T (mk false 0 0 0 0 0 false false false)
      (mk false 0x123456 0 0 0 1 false false false).
Proof.
  apply (triangle_rises_then_falls (mk false 0 0 0 0 0 false false false)
           (mk false 0x123456 0 0 0 1 false false false)
           (mk false (2 ^ 24 - 1 - 0x123456) 0 0 0 1 false false false)
           eq_refl eq_refl ltac:(cbn; lia) eq_refl).
Defined.

(** X3.  Ring modulation replaces the MSB that folds the triangle by
    the MSB EOR the MSB of the sync source: when the source's MSB is set
    the output is the complement (in 12 bits) of the plain triangle,
    otherwise it is the plain triangle. *)
Theorem ring_modulation_inverts_triangle (source w w0 : t) :
  ring_mod w = true -> ring_mod w0 = false ->
  accumulator w0 = accumulator w ->
  0 <= accumulator w < 2 ^ 24 ->
  output___T source w =
  if Z.testbit (accumulator source) 23
  then 0xfff - output___T source w0
  else output___T source w0.
Proof.
  intros Hr Hr0 He Ha.
  rewrite (output___T_eq source w), (output___T_eq source w0), Hr, Hr0, He
    by (rewrite ?He; exact Ha).
  cbn [andb]. rewrite xorb_false_r.
  destruct (Z.testbit (accumulator source) 23),
    (Z.testbit (accumulator w) 23); cbn [xorb]; lia.
Qed.

Lemma ring_modulation_inverts_triangle_witness :
  output___T (mk false 0x800000 0 0 0 0 false false false)
    (mk false 0x123456 0 0 0 1 false true false)
  = 0xfff - output___T (mk false 0x800000 0 0 0 0 false false false)
              (mk false 0x123456 0 0 0 1 false false false).
Proof.
  apply (ring_modulation_inverts_triangle
           (mk false 0x800000 0 0 0 0 false false false)
           (mk false 0x123456 0 0 0 1 false true false)
           (mk false 0x123456 0 0 0 1 false false false)
           eq_refl eq_refl eq_refl ltac:(cbn; lia)).
Defined.

(** X4.  With the noise waveform selected, [readOSC] returns the bits
    22, 20, 16, 13, 11, 7, 4 and 2 of the shift register, from bit 7 down
    to bit 0, and the waveform output has its low four bits clear. *)
Theorem noise_output_taps
  (sample__ST sample_P_T sample_PS_ sample_PST : Z -> Z) (source w : t)
  (k : Z) :
  waveform w = 8 -> 0 <= k <= 7 ->
  Z.testbit (readOSC sample__ST sample_P_T sample_PS_ sample_PST source w) k
  = Z.testbit (shift_register w) (tbl noise_taps k) /\
  output sample__ST sample_P_T sample_PS_ sample_PST source w
  = 16 * readOSC sample__ST sample_P_T sample_PS_ sample_PST source w.
Proof.
  intros Hw Hk. unfold readOSC, output. rewrite Hw.
  change (nth (Z.to_nat 8) (output_function sample__ST sample_P_T sample_PS_
                              sample_PST) output____ source w)
    with (outputN___ source w).
  split.
  - unfold outputN___. cbv zeta.
    assert (K : k = 0 \/ k = 1 \/ k = 2 \/ k = 3 \/ k = 4 \/ k = 5 \/ k = 6
                \/ k = 7) by lia.
    rewrite Z.shiftr_spec by lia. rewrite !Z.lor_spec.
    rewrite !Z.shiftr_spec, !Z.shiftl_spec by lia.
    rewrite !Z.land_spec.
    destruct K as [-> | [-> | [-> | [-> | [-> | [-> | [-> | ->]]]]]]];
      match goal with
      | |- context [tbl noise_taps ?i] =>
        let v := eval vm_compute in (tbl noise_taps i) in
        change (tbl noise_taps i) with v
      end;
      repeat match goal with
      | |- context [Z.testbit (shift_register w) ?i] =>
        lazymatch i with
        | Zpos _ => fail
        | Zneg _ => fail
        | Z0 => fail
        | _ => let v := eval vm_compute in i in change i with v
        end
      end;
      repeat match goal with
      | |- context [Z.testbit (Zpos ?p) ?i] =>
        let v := eval vm_compute in (Z.testbit (Zpos p) i) in
        change (Z.testbit (Zpos p) i) with v
      end;
      rewrite ?andb_false_r, ?andb_true_r, ?orb_false_r, ?orb_false_l;
      reflexivity.
  - rewrite outputN____taps.
    destruct (Z.testbit (shift_register w) 22),
      (Z.testbit (shift_register w) 20), (Z.testbit (shift_register w) 16),
      (Z.testbit (shift_register w) 13), (Z.testbit (shift_register w) 11),
      (Z.testbit (shift_register w) 7), (Z.testbit (shift_register w) 4),
      (Z.testbit (shift_register w) 2); reflexivity.
Qed.

Lemma noise_output_taps_witness :
  Z.testbit (readOSC (fun _ => 0) (fun _ => 0) (fun _ => 0) (fun _ => 0)
               (mk false 0 0 0 0 0 false false false)
               (mk false 0 0x7ffff8 0 0 8 false false false)) 7
  = Z.testbit 0x7ffff8 22.
Proof.
  apply (noise_output_taps (fun _ => 0) (fun _ => 0) (fun _ => 0) (fun _ => 0)
           (mk false 0 0 0 0 0 false false false)
           (mk false 0 0x7ffff8 0 0 8 false false false) 7
           eq_refl ltac:(lia)).
Defined.

End WaveformOutputFacts.

(* ------------------------------------------------------------------ *)
(** ** The frequency and pulse width registers *)

Module RegisterFacts.
Import WaveformGenerator WaveformOps.

Lemma land_0xff (x : Z) : Z.land x 0xff = x mod 256.
Proof. change 0xff with (Z.ones 8). apply Z.land_ones. lia. Qed.

(** A byte shifted into the high half of a register, through a mask of
    [n] bits. *)
Lemma land_shiftl_8 (h n : Z) :
  0 <= n ->
  Z.land (Z.shiftl h 8) (Z.shiftl (Z.ones n) 8) = 256 * (h mod 2 ^ n).
Proof.
  intros Hn. rewrite <- Z.shiftl_land, Z.land_ones by exact Hn.
  rewrite Z.shiftl_mul_pow2 by lia. change (2 ^ 8) with 256. lia.
Qed.

Lemma lor_halves (a b : Z) :
  Z.lor (256 * a) (b mod 256) = 256 * a + b mod 256.
Proof.
  rewrite <- (Z.add_lor_land (256 * a) (b mod 256)).
  assert (Hz : Z.land (256 * a) (b mod 256) = 0).
  { rewrite <- land_0xff.
    rewrite (Z.land_comm b), Z.land_assoc, land_0xff.
    rewrite Z.mul_comm, Z.mod_mul by lia. apply Z.land_0_l. }
  rewrite Hz. lia.
Qed.

Lemma freq_halves (f hi lo : Z) :
  Z.lor (Z.land (Z.shiftl hi 8) 0xff00)
        (Z.land (Z.lor (Z.land f 0xff00) (Z.land lo 0x00ff)) 0x00ff)
  = 256 * (hi mod 256) + lo mod 256.
Proof.
  rewrite Z.land_lor_distr_l, <- !Z.land_assoc.
  change (Z.land 0xff00 0x00ff) with 0. change (Z.land 0x00ff 0x00ff) with 0xff.
  rewrite Z.land_0_r, Z.lor_0_l.
  change 0xff00 with (Z.shiftl (Z.ones 8) 8).
  rewrite land_shiftl_8, land_0xff by lia. apply lor_halves.
Qed.

Lemma freq_halves' (f hi lo : Z) :
  Z.lor (Z.land (Z.lor (Z.land (Z.shiftl hi 8) 0xff00) (Z.land f 0x00ff))
                0xff00)
        (Z.land lo 0x00ff)
  = 256 * (hi mod 256) + lo mod 256.
Proof.
  rewrite Z.land_lor_distr_l, <- !Z.land_assoc.
  change (Z.land 0x00ff 0xff00) with 0. change (Z.land 0xff00 0xff00) with 0xff00.
  rewrite Z.land_0_r, Z.lor_0_r.
  change 0xff00 with (Z.shiftl (Z.ones 8) 8).
  rewrite land_shiftl_8, land_0xff by lia. apply lor_halves.
Qed.

Lemma pw_halves (f hi lo : Z) :
  Z.lor (Z.land (Z.shiftl hi 8) 0xf00)
        (Z.land (Z.lor (Z.land f 0xf00) (Z.land lo 0x0ff)) 0x0ff)
  = 256 * (hi mod 16) + lo mod 256.
Proof.
  rewrite Z.land_lor_distr_l, <- !Z.land_assoc.
  change (Z.land 0xf00 0x0ff) with 0. change (Z.land 0x0ff 0x0ff) with 0xff.
  rewrite Z.land_0_r, Z.lor_0_l.
  change 0xf00 with (Z.shiftl (Z.ones 4) 8).
  rewrite land_shiftl_8, land_0xff by lia. apply lor_halves.
Qed.

Lemma pw_halves' (f hi lo : Z) :
  Z.lor (Z.land (Z.lor (Z.land (Z.shiftl hi 8) 0xf00) (Z.land f 0x0ff)) 0xf00)
        (Z.land lo 0x0ff)
  = 256 * (hi mod 16) + lo mod 256.
Proof.
  rewrite Z.land_lor_distr_l, <- !Z.land_assoc.
  change (Z.land 0x0ff 0xf00) with 0. change (Z.land 0xf00 0xf00) with 0xf00.
  rewrite Z.land_0_r, Z.lor_0_r.
  change 0xf00 with (Z.shiftl (Z.ones 4) 8).
  rewrite land_shiftl_8, land_0xff by lia. apply lor_halves.
Qed.

(** X5.  The two FREQ writes compose, in either order, to the 16-bit
    value with the given high and low bytes, whatever the register held
    and whatever lies above bit 7 of the written values. *)
Theorem freq_is_written_by_halves (lo hi : Z) (w : t) :
  freq (writeFREQ_HI hi (writeFREQ_LO lo w)) = 256 * (hi mod 256) + lo mod 256 /\
  freq (writeFREQ_LO lo (writeFREQ_HI hi w)) = 256 * (hi mod 256) + lo mod 256 /\
  0 <= freq (writeFREQ_HI hi (writeFREQ_LO lo w)) <= 0xffff.
Proof.
  assert (A : freq (writeFREQ_HI hi (writeFREQ_LO lo w))
              = 256 * (hi mod 256) + lo mod 256)
    by (cbn [freq writeFREQ_HI writeFREQ_LO]; apply freq_halves).
  split; [exact A|]. split.
  - cbn [freq writeFREQ_HI writeFREQ_LO]. apply freq_halves'.
  - rewrite A.
    pose proof (Z.mod_pos_bound hi 256 ltac:(lia)).
    pose proof (Z.mod_pos_bound lo 256 ltac:(lia)). lia.
Qed.

(** X6.  The two PW writes compose, in either order, to the 12-bit
    value made of the low four bits of the high byte and the low byte. *)
Theorem pw_is_written_by_halves (lo hi : Z) (w : t) :
  pw (writePW_HI hi (writePW_LO lo w)) = 256 * (hi mod 16) + lo mod 256 /\
  pw (writePW_LO lo (writePW_HI hi w)) = 256 * (hi mod 16) + lo mod 256 /\
  0 <= pw (writePW_HI hi (writePW_LO lo w)) <= 0xfff.
Proof.
  assert (A : pw (writePW_HI hi (writePW_LO lo w))
              = 256 * (hi mod 16) + lo mod 256)
    by (cbn [pw writePW_HI writePW_LO]; apply pw_halves).
  split; [exact A|]. split.
  - cbn [pw writePW_HI writePW_LO]. apply pw_halves'.
  - rewrite A.
    pose proof (Z.mod_pos_bound hi 16 ltac:(lia)).
    pose proof (Z.mod_pos_bound lo 256 ltac:(lia)). lia.
Qed.

End RegisterFacts.

(* ------------------------------------------------------------------ *)
(** ** The noise register *)

Module NoiseFacts.
Import WaveformGenerator WaveformOps.

Lemma feedback_bit (sr : Z) :
  Z.land (Z.lxor (Z.shiftr sr 22) (Z.shiftr sr 17)) 1
  = Z.b2z (xorb (Z.testbit sr 22) (Z.testbit sr 17)).
Proof.
  change 1 with (Z.ones 1). rewrite Z.land_ones by lia.
  change (2 ^ 1) with 2. rewrite <- Z.bit0_mod.
  rewrite Z.lxor_spec, !Z.shiftr_spec by lia. reflexivity.
Qed.

Lemma split_bit_22 (sr : Z) :
  0 <= sr < 2 ^ 23 ->
  sr = 2 ^ 22 * Z.b2z (Z.testbit sr 22) + sr mod 2 ^ 22.
Proof.
  intros H. rewrite Z.testbit_eqb by lia.
  change (2 ^ 23) with 8388608 in H. change (2 ^ 22) with 4194304.
  pose proof (Z.div_mod sr 4194304 ltac:(lia)) as D.
  pose proof (Z.mod_pos_bound sr 4194304 ltac:(lia)) as B.
  assert (Q : sr / 4194304 = 0 \/ sr / 4194304 = 1) by lia.
  destruct Q as [Q|Q]; rewrite Q in *.
  - change (Z.b2z (0 mod 2 =? 1)) with 0. lia.
  - change (Z.b2z (1 mod 2 =? 1)) with 1. lia.
Qed.

(** One shift of the noise register loses nothing: the register it came
    from can be read back. *)
Lemma shift_once_inj (a b : Z) :
  0 <= a < 2 ^ 23 -> 0 <= b < 2 ^ 23 ->
  shift_once a = shift_once b -> a = b.
Proof.
  intros Ha Hb E.
  rewrite !WaveformFacts.shift_once_eq, !feedback_bit in E by assumption.
  assert (R : forall c : bool, 0 <= Z.b2z c <= 1)
    by (intros [|]; cbn; lia).
  pose proof (R (xorb (Z.testbit a 22) (Z.testbit a 17))) as Ba.
  pose proof (R (xorb (Z.testbit b 22) (Z.testbit b 17))) as Bb.
  assert (M : a mod 2 ^ 22 = b mod 2 ^ 22) by lia.
  assert (X : xorb (Z.testbit a 22) (Z.testbit a 17)
              = xorb (Z.testbit b 22) (Z.testbit b 17)).
  { apply Z.b2z_inj. lia. }
  assert (L : Z.testbit a 17 = Z.testbit b 17).
  { rewrite <- (Z.mod_pow2_bits_low a 22 17), <- (Z.mod_pow2_bits_low b 22 17)
      by lia. rewrite M. reflexivity. }
  assert (T : Z.testbit a 22 = Z.testbit b 22).
  { rewrite L in X. destruct (Z.testbit a 22), (Z.testbit b 22),
      (Z.testbit b 17); cbn in X; congruence. }
  rewrite (split_bit_22 a Ha), (split_bit_22 b Hb), T, M. reflexivity.
Qed.

Lemma repeat_shift_range (n : nat) :
  forall sr, 0 <= sr < 2 ^ 23 ->
    0 <= repeat_fn shift_once n sr < 2 ^ 23.
Proof.
  induction n as [|n IH]; intros sr H; cbn [repeat_fn]; [exact H|].
  apply IH, WaveformFacts.shift_once_range, H.
Qed.

Lemma repeat_shift_inj (n : nat) :
  forall a b, 0 <= a < 2 ^ 23 -> 0 <= b < 2 ^ 23 ->
    repeat_fn shift_once n a = repeat_fn shift_once n b -> a = b.
Proof.
  induction n as [|n IH]; intros a b Ha Hb E; cbn [repeat_fn] in E; [exact E|].
  apply shift_once_inj; try assumption.
  apply IH; try assumption; apply WaveformFacts.shift_once_range; assumption.
Qed.

(** X7.  The noise register never merges two histories: clocking two
    generators that agree in the accumulator, the frequency and the
    test bit but hold different 23-bit noise registers leaves the
    registers different, however many shifts the call makes. *)
Theorem noise_register_shift_is_injective (delta_t : Z) (w w' : t) :
  0 <= shift_register w < 2 ^ 23 -> 0 <= shift_register w' < 2 ^ 23 ->
  accumulator w' = accumulator w -> freq w' = freq w -> test w' = test w ->
  shift_register w <> shift_register w' ->
  shift_register (clock delta_t w) <> shift_register (clock delta_t w').
Proof.
  intros H H' Ea Ef Et N E. apply N. unfold clock in E. rewrite Et in E.
  destruct (test w); [exact E|]. cbn [shift_register] in E.
  assert (S : clock_shifts delta_t w' = clock_shifts delta_t w)
    by (unfold clock_shifts; rewrite Ea, Ef; reflexivity).
  rewrite S in E. eapply repeat_shift_inj; eassumption.
Qed.

Lemma noise_register_shift_is_injective_witness :
  shift_register (clock 100 (mk false 0 0x7ffff8 0xffff 0 8 false false false))
  <> shift_register
       (clock 100 (mk false 0 0x7ffff9 0xffff 0 8 false false false)).
Proof.
  apply (noise_register_shift_is_injective 100
           (mk false 0 0x7ffff8 0xffff 0 8 false false false)
           (mk false 0 0x7ffff9 0xffff 0 8 false false false)
           ltac:(cbn; lia) ltac:(cbn; lia) eq_refl eq_refl eq_refl
           ltac:(cbn; lia)).
Defined.

End NoiseFacts.

(* ------------------------------------------------------------------ *)
(** ** Cycle exactness of the oscillators and of the envelopes *)

Module CycleFacts.
Import SID SIDOps WaveformOps.

(** X8.  A call of [clock] adds [delta_t * freq] to the accumulator
    modulo 2^24 (the 32-bit wrap of the product does not show), and
    leaves the registers and the control bits alone; with the test bit
    set it does nothing at all. *)
Theorem accumulator_advances_by_freq (delta_t : Z) (w : WaveformGenerator.t) :
  (WaveformGenerator.test w = false ->
   WaveformGenerator.accumulator (WaveformGenerator.clock delta_t w)
   = (WaveformGenerator.accumulator w + delta_t * WaveformGenerator.freq w)
       mod 2 ^ 24) /\
  (WaveformGenerator.test w = true -> WaveformGenerator.clock delta_t w = w) /\
  WaveformGenerator.freq (WaveformGenerator.clock delta_t w)
  = WaveformGenerator.freq w /\
  WaveformGenerator.pw (WaveformGenerator.clock delta_t w)
  = WaveformGenerator.pw w /\
  WaveformGenerator.waveform (WaveformGenerator.clock delta_t w)
  = WaveformGenerator.waveform w /\
  WaveformGenerator.test (WaveformGenerator.clock delta_t w)
  = WaveformGenerator.test w /\
  WaveformGenerator.ring_mod (WaveformGenerator.clock delta_t w)
  = WaveformGenerator.ring_mod w /\
  WaveformGenerator.sync (WaveformGenerator.clock delta_t w)
  = WaveformGenerator.sync w.
Proof.
  split; [apply WaveformFacts.clock_accumulator|].
  split; [intros Ht; unfold WaveformGenerator.clock; rewrite Ht; reflexivity|].
  unfold WaveformGenerator.clock.
  destruct (WaveformGenerator.test w) eqn:Ht; cbn; rewrite ?Ht; auto 10.
Qed.

(** X9.  A call that adds less than 2^19 to the accumulator (any single
    cycle does) shifts the noise register once if bit 19 of the
    accumulator goes from 0 to 1 and not at all otherwise, and sets
    [msb_rising] exactly when bit 23 goes from 0 to 1. *)
Theorem noise_is_clocked_by_bit_19 (delta_t : Z) (w : WaveformGenerator.t) :
  valid w -> WaveformGenerator.test w = false ->
  0 <= delta_t -> delta_t * WaveformGenerator.freq w < 2 ^ 19 ->
  WaveformGenerator.shift_register (WaveformGenerator.clock delta_t w)
  = (if negb (Z.testbit (WaveformGenerator.accumulator w) 19)
        && Z.testbit (WaveformGenerator.accumulator w
                      + delta_t * WaveformGenerator.freq w) 19
     then WaveformGenerator.shift_once (WaveformGenerator.shift_register w)
     else WaveformGenerator.shift_register w) /\
  WaveformGenerator.msb_rising (WaveformGenerator.clock delta_t w)
  = negb (Z.testbit (WaveformGenerator.accumulator w) 23)
    && Z.testbit (WaveformGenerator.accumulator w
                  + delta_t * WaveformGenerator.freq w) 23.
Proof.
  intros Hv Ht Hd Hs.
  rewrite (WaveformFacts.clock_small delta_t w Hv Ht Hd Hs).
  split; reflexivity.
Qed.

Lemma noise_is_clocked_by_bit_19_witness :
  WaveformGenerator.shift_register
    (WaveformGenerator.clock 1
       (WaveformGenerator.mk false 0x07ffff 0x7ffff8 0xffff 0 8 false false
          false))
  = WaveformGenerator.shift_once 0x7ffff8.
Proof.
  apply (noise_is_clocked_by_bit_19 1
           (WaveformGenerator.mk false 0x07ffff 0x7ffff8 0xffff 0 8 false
              false false)
           ltac:(split; cbn; lia) eq_refl ltac:(lia) ltac:(cbn; lia)).
Defined.

Section WithFilter.
Variable Filter_clock : Z -> Z -> Z -> Z -> Filter.t -> Filter.t.
Variable Voice_output : WaveformGenerator.t -> Voice.t -> Z.

(** X10.  With the filter in use, [SID::clock(delta_t)] leaves the three
    oscillators as [delta_t] rounds of one cycle each would (clock the
    three, then synchronize the three), although it clocks them in
    steps of up to eight cycles; [msb_rising] of an oscillator may
    differ where no sync destination reads it. *)
Theorem oscillators_are_cycle_exact (delta_t : Z) (s : t) :
  Filter.bypass (filter s) = false -> steady3 (waves s) -> 0 <= delta_t ->
  agree3 (waves (clock Filter_clock Voice_output delta_t s))
         (repeat_fn (osc_step 1) (Z.to_nat delta_t) (waves s)).
Proof.
  intros Hb Hs Hd. rewrite SIDFacts.clock_waves, Hb.
  apply OscillatorFacts.waves_clock_cycles; assumption.
Qed.

End WithFilter.

Lemma oscillators_are_cycle_exact_witness :
  agree3
    (waves (clock (fun _ _ _ _ f => f) (fun _ _ => 0) 20
              (Scenario.on_voice1
                 (Scenario.on_wave (WaveformGenerator.writeFREQ_HI 0x80))
                 Scenario.power_on)))
    (repeat_fn (osc_step 1) (Z.to_nat 20)
       (waves (Scenario.on_voice1
                 (Scenario.on_wave (WaveformGenerator.writeFREQ_HI 0x80))
                 Scenario.power_on))).
Proof.
  apply (oscillators_are_cycle_exact (fun _ _ _ _ f => f) (fun _ _ => 0) 20
           (Scenario.on_voice1
              (Scenario.on_wave (WaveformGenerator.writeFREQ_HI 0x80))
              Scenario.power_on) eq_refl).
  - unfold steady3, WaveformOps.valid, no_stale. cbn.
    repeat split; try lia; intros X; discriminate X.
  - lia.
Defined.


Lemma envelope_clock_cycles (n : nat) :
  forall e, EnvelopeOps.settled e ->
    EnvelopeGenerator.clock (Z.of_nat n) e
    = repeat_fn (EnvelopeGenerator.clock 1) n e.
Proof.
  induction n as [|n IH]; intros e He.
  - apply EnvelopeFacts.clock_0, He.
  - replace (Z.of_nat (S n)) with (1 + Z.of_nat n) by lia.
    rewrite EnvelopeFacts.clock_peel by (assumption || lia).
    cbn [repeat_fn]. apply IH. apply EnvelopeFacts.settled_clock; [exact He|lia].
Qed.

(** X11.  [EnvelopeGenerator::clock(delta_t)] is exact to the cycle: on
    a generator that is not in ATTACK at 0xFF nor in DECAY_SUSTAIN below
    the sustain level, it leaves what [delta_t] calls of [clock(1)]
    leave, and [SID::clock(delta_t)] leaves the same in each voice,
    whatever its windows and its filter. *)
Theorem envelopes_are_cycle_exact
  (Filter_clock : Z -> Z -> Z -> Z -> Filter.t -> Filter.t)
  (Voice_output : WaveformGenerator.t -> Voice.t -> Z)
  (delta_t : Z) (s : t) :
  0 <= delta_t ->
  EnvelopeOps.settled (Voice.envelope (voice1 s)) ->
  EnvelopeOps.settled (Voice.envelope (voice2 s)) ->
  EnvelopeOps.settled (Voice.envelope (voice3 s)) ->
  EnvelopeGenerator.clock delta_t (Voice.envelope (voice1 s))
  = repeat_fn (EnvelopeGenerator.clock 1) (Z.to_nat delta_t)
      (Voice.envelope (voice1 s)) /\
  envelopes (clock Filter_clock Voice_output delta_t s)
  = map3 (repeat_fn (EnvelopeGenerator.clock 1) (Z.to_nat delta_t))
      (envelopes s).
Proof.
  intros Hd S1 S2 S3.
  assert (C : forall e, EnvelopeOps.settled e ->
            EnvelopeGenerator.clock delta_t e
            = repeat_fn (EnvelopeGenerator.clock 1) (Z.to_nat delta_t) e).
  { intros e He. rewrite <- (envelope_clock_cycles _ e He).
    rewrite Z2Nat.id by exact Hd. reflexivity. }
  split; [apply C, S1|].
  rewrite SIDFacts.clock_envelopes. unfold map3, envelopes. cbn [fst snd].
  rewrite !AdditivityFacts.envelope_clock_clock by assumption.
  rewrite !C by assumption. reflexivity.
Qed.

Lemma envelopes_are_cycle_exact_witness :
  envelopes
    (clock (fun _ _ _ _ f => f) (fun _ _ => 0) 50
       (Scenario.on_voice1 (Voice.writeCONTROL_REG 0x01) Scenario.power_on))
  = map3 (repeat_fn (EnvelopeGenerator.clock 1) (Z.to_nat 50))
      (envelopes
         (Scenario.on_voice1 (Voice.writeCONTROL_REG 0x01) Scenario.power_on)).
Proof.
  assert (S0 : EnvelopeOps.settled EnvelopeOps.power_on).
  { split; [constructor; cbn; lia|]. split; intros X; discriminate X. }
  assert (S1 : EnvelopeOps.settled
                 (EnvelopeGenerator.writeCONTROL_REG 0x01 EnvelopeOps.power_on)).
  { split; [constructor; cbn; lia|].
    split; [intros _; cbn; lia|intros X; discriminate X]. }
  apply (envelopes_are_cycle_exact (fun _ _ _ _ f => f) (fun _ _ => 0) 50
           (Scenario.on_voice1 (Voice.writeCONTROL_REG 0x01) Scenario.power_on)
           ltac:(lia) S1 S0 S0).
Defined.

End CycleFacts.

(* ------------------------------------------------------------------ *)
(** ** The envelope generator: exponential counter, sustain, attack *)

Module EnvelopeMoreFacts.
Import EnvelopeGenerator EnvelopeOps EnvelopeInvariants EnvelopeFacts.

Lemma period_at_range (ec : Z) :
  0 <= ec <= 255 -> 1 <= exponential_period_at ec <= 30.
Proof.
  intros H.
  pose proof (forall_below_256
    (fun z => (1 <=? exponential_period_at z)
              && (exponential_period_at z <=? 30))
    ltac:(vm_compute; reflexivity) ec H) as G.
  cbv beta in G. apply andb_true_iff in G. destruct G as [G1 G2].
  apply Z.leb_le in G1, G2. lia.
Qed.

Lemma period_at_step (z : Z) :
  0 <= z <= 255 ->
  exponential_period_at z <= exponential_period_at (z - 1).
Proof.
  intros H.
  pose proof (forall_below_256
    (fun z => exponential_period_at z <=? exponential_period_at (z - 1))
    ltac:(vm_compute; reflexivity) z H) as G.
  cbv beta in G. apply Z.leb_le in G. exact G.
Qed.

Lemma period_at_mono (a b : Z) :
  0 <= a <= b -> b <= 255 ->
  exponential_period_at b <= exponential_period_at a.
Proof.
  intros Ha Hb.
  assert (G : forall n : nat, (Z.of_nat n <= b - a) ->
              exponential_period_at (a + Z.of_nat n)
              <= exponential_period_at a).
  { induction n as [|n IH]; intros Hn.
    - rewrite Z.add_0_r. lia.
    - pose proof (period_at_step (a + Z.of_nat (S n)) ltac:(lia)) as S1.
      replace (a + Z.of_nat (S n) - 1) with (a + Z.of_nat n) in S1 by lia.
      specialize (IH ltac:(lia)). lia. }
  specialize (G (Z.to_nat (b - a)) ltac:(lia)).
  replace (a + Z.of_nat (Z.to_nat (b - a))) with b in G by lia. exact G.
Qed.

Lemma step_envelope_loop_exp (P X dmax : Z) (fuel : nat) :
  1 <= X ->
  forall rs de dt e,
    0 <= exponential_counter e < X ->
    let '(_, _, e') := step_envelope_loop fuel P X dmax rs de dt e in
    0 <= exponential_counter e' < X.
Proof.
  intros HX.
  induction fuel as [|fuel IH]; intros rs de dt e He; cbn [step_envelope_loop].
  - exact He.
  - destruct (dt =? 0); [exact He|].
    destruct (dt <? rs); [env_simpl; exact He|].
    env_simpl.
    destruct (Z.eqb_spec (exponential_counter e + 1) X) as [Heq|Hne].
    + destruct (negb (dmax =? 0)).
      * destruct (de + 1 =? dmax); [env_simpl; lia|].
        apply IH. env_simpl. lia.
      * apply IH. env_simpl. lia.
    + apply IH. env_simpl. lia.
Qed.

Lemma step_envelope_exp (dmax ri xi dt : Z) (e : t) :
  1 <= tbl exponential_counter_period xi ->
  0 <= exponential_counter e < tbl exponential_counter_period xi ->
  let '(_, _, e') := step_envelope dmax ri xi dt e in
  0 <= exponential_counter e' < tbl exponential_counter_period xi.
Proof.
  intros HX He. unfold step_envelope.
  apply step_envelope_loop_exp; assumption.
Qed.

(** The invariant of the two loops that count down. *)
Lemma down_turn_exp (dmax ri dt : Z) (e : t) :
  wf e -> 0 <= dmax <= envelope_counter e ->
  0 <= exponential_counter e < exponential_period_at (envelope_counter e) ->
  let '(de, _, e') :=
    step_envelope dmax ri (tbl exponential_counter_segment (envelope_counter e))
      dt e in
  let e2 := set_envelope_counter (envelope_counter e' - de) e' in
  wf e2 /\ state e2 = state e /\
  0 <= exponential_counter e2 < exponential_period_at (envelope_counter e2).
Proof.
  intros Hw Hd He.
  pose proof (wf_envelope_counter e Hw) as Hec.
  pose proof (period_at_range (envelope_counter e) Hec) as HX.
  pose proof (step_envelope_inv dmax ri
    (tbl exponential_counter_segment (envelope_counter e)) dt e
    (wf_counters_ok e Hw) ltac:(lia)) as H.
  pose proof (step_envelope_exp dmax ri
    (tbl exponential_counter_segment (envelope_counter e)) dt e
    ltac:(unfold exponential_period_at in HX; lia) He) as G.
  destruct (step_envelope dmax ri _ dt e) as [[de' dt'] e'].
  destruct H as (A & B & C).
  pose proof (same_registers_wf e e' Hw B C) as Hw'.
  destruct C as (C1 & C2 & C3 & C4 & C5 & C6 & C7).
  cbv zeta. env_simpl.
  split; [apply wf_set_envelope_counter; [exact Hw'|lia]|].
  split; [exact C7|].
  pose proof (period_at_mono (envelope_counter e' - de') (envelope_counter e)
                ltac:(lia) ltac:(lia)).
  fold (exponential_period_at (envelope_counter e)) in G. lia.
Qed.

Lemma decay_sustain_loop_exp (fuel : nat) :
  forall dt e, wf e ->
    0 <= exponential_counter e < exponential_period_at (envelope_counter e) ->
    let e' := decay_sustain_loop fuel dt e in
    0 <= exponential_counter e' < exponential_period_at (envelope_counter e').
Proof.
  induction fuel as [|fuel IH]; intros dt e Hw He; cbn [decay_sustain_loop].
  - exact He.
  - destruct (dt =? 0); [exact He|].
    set (segment := tbl exponential_counter_segment (envelope_counter e)).
    set (min_level0 := tbl exponential_counter_level segment).
    set (min_level := if min_level0 <? tbl sustain_level (sustain e)
                      then tbl sustain_level (sustain e) else min_level0).
    set (dmax := if envelope_counter e - min_level <? 0
                 then envelope_counter e else envelope_counter e - min_level).
    pose proof (wf_envelope_counter e Hw) as Hec.
    pose proof (segment_level_bounds (envelope_counter e) Hec) as Hl.
    fold segment in Hl. fold min_level0 in Hl.
    pose proof (sustain_level_bounds (sustain e)) as Hs.
    assert (Hml : 0 <= min_level)
      by (unfold min_level; destruct (min_level0 <? _); lia).
    assert (Hd : 0 <= dmax <= envelope_counter e)
      by (unfold dmax; destruct (Z.ltb_spec (envelope_counter e - min_level) 0); lia).
    pose proof (down_turn_exp dmax (decay e) dt e Hw Hd He) as H.
    fold segment in H.
    destruct (step_envelope dmax (decay e) segment dt e) as [[de' dt'] e'].
    cbv zeta in H. destruct H as (A & B & C).
    apply IH; assumption.
Qed.

Lemma release_loop_exp (fuel : nat) :
  forall dt e, wf e ->
    0 <= exponential_counter e < exponential_period_at (envelope_counter e) ->
    let e' := release_loop fuel dt e in
    0 <= exponential_counter e' < exponential_period_at (envelope_counter e').
Proof.
  induction fuel as [|fuel IH]; intros dt e Hw He; cbn [release_loop].
  - exact He.
  - destruct (dt =? 0); [exact He|].
    set (segment := tbl exponential_counter_segment (envelope_counter e)).
    set (min_level := tbl exponential_counter_level segment).
    pose proof (wf_envelope_counter e Hw) as Hec.
    pose proof (segment_level_bounds (envelope_counter e) Hec) as Hl.
    fold segment in Hl. fold min_level in Hl.
    pose proof (down_turn_exp (envelope_counter e - min_level) (release e) dt e
                  Hw ltac:(lia) He) as H.
    fold segment in H.
    destruct (step_envelope _ (release e) segment dt e) as [[de' dt'] e'].
    cbv zeta in H. destruct H as (A & B & C).
    apply IH; assumption.
Qed.

Lemma clock_tail_exp (dt : Z) (e : t) :
  wf e ->
  0 <= exponential_counter e < exponential_period_at (envelope_counter e) ->
  0 <= exponential_counter (clock_tail dt e)
    < exponential_period_at (envelope_counter (clock_tail dt e)).
Proof.
  intros Hw He. unfold clock_tail.
  destruct (State_eqb (state e) DECAY_SUSTAIN).
  - apply decay_sustain_loop_exp; assumption.
  - apply release_loop_exp; assumption.
Qed.

Lemma clock_exp (dt : Z) (e : t) :
  wf e -> exponential_counter_ok e -> exponential_counter_ok (clock dt e).
Proof.
  intros Hw [He Ha]. unfold exponential_counter_ok.
  pose proof (clock_inv dt e Hw) as (Wc & _ & _ & Hns).
  destruct (state e) eqn:Hst.
  - (* ATTACK *)
    specialize (Ha eq_refl).
    unfold clock. rewrite Hst. cbn [State_eqb].
    pose proof (wf_envelope_counter e Hw) as Hec.
    pose proof (step_envelope_inv (0xff - envelope_counter e) (attack e) 0 dt e
                  (wf_counters_ok e Hw) ltac:(lia)) as H.
    pose proof (step_envelope_exp (0xff - envelope_counter e) (attack e) 0 dt e
                  ltac:(vm_compute; discriminate)
                  ltac:(change (tbl exponential_counter_period 0) with 1; lia))
      as G.
    destruct (step_envelope _ (attack e) 0 dt e) as [[de' dt'] e'].
    change (tbl exponential_counter_period 0) with 1 in G.
    destruct H as (A & B & C).
    pose proof (same_registers_wf e e' Hw B C) as Hw'.
    destruct C as (C1 & C2 & C3 & C4 & C5 & C6 & C7).
    assert (Hw2 : wf (set_envelope_counter (envelope_counter e' + de') e'))
      by (apply wf_set_envelope_counter; [exact Hw'|lia]).
    env_simpl.
    destruct (Z.eqb_spec (envelope_counter e' + de') 255) as [Heq|Hne];
      cbn [negb].
    + pose proof (clock_tail_inv dt'
        (set_state DECAY_SUSTAIN
           (set_envelope_counter (envelope_counter e' + de') e'))
        (wf_set_state _ _ Hw2)) as (T1 & T2 & T3).
      split.
      * apply clock_tail_exp; [apply wf_set_state, Hw2|]. env_simpl.
        pose proof (period_at_range (envelope_counter e' + de') ltac:(lia)).
        lia.
      * intros X. rewrite T3 in X. env_simpl. discriminate X.
    + env_simpl. split; [|intros _; lia].
      pose proof (period_at_range (envelope_counter e' + de') ltac:(lia)).
      lia.
  - rewrite clock_not_attack by (rewrite Hst; discriminate).
    split; [apply clock_tail_exp; assumption|].
    intros X. pose proof (clock_tail_inv dt e Hw) as (_ & _ & T3).
    rewrite T3, Hst in X. discriminate X.
  - rewrite clock_not_attack by (rewrite Hst; discriminate).
    split; [apply clock_tail_exp; assumption|].
    intros X. pose proof (clock_tail_inv dt e Hw) as (_ & _ & T3).
    rewrite T3, Hst in X. discriminate X.
Qed.

Lemma reachable_exponential_counter_ok (e : t) :
  reachable e -> exponential_counter_ok e.
Proof.
  induction 1 as [e | v e H IH | v e H IH | v e H IH | dt e Hdt H IH].
  - split; [vm_compute; split; [discriminate|reflexivity]|reflexivity].
  - pose proof (reachable_wf e H) as Hw.
    pose proof (period_at_range (envelope_counter e) (wf_envelope_counter e Hw)).
    destruct IH as [I1 I2]. unfold writeCONTROL_REG, exponential_counter_ok.
    destruct (negb (gate e) && _); [|destruct (gate e && _)]; env_simpl.
    + split; [lia|reflexivity].
    + split; [lia|reflexivity].
    + split; assumption.
  - exact IH.
  - exact IH.
  - apply clock_exp; [apply reachable_wf, H|exact IH].
Qed.

(** X12.  The exponential counter has no delay bug: in every state the
    generator can reach, it is below the period it is compared with (at
    most 30), so the test for equality in [step_envelope] is never
    passed by; during the attack it is zero. *)
Theorem exponential_counter_never_misses (e : t) :
  reachable e ->
  0 <= exponential_counter e
    < tbl exponential_counter_period
        (tbl exponential_counter_segment (envelope_counter e)) /\
  tbl exponential_counter_period
    (tbl exponential_counter_segment (envelope_counter e)) <= 30 /\
  (state e = ATTACK -> exponential_counter e = 0).
Proof.
  intros H. destruct (reachable_exponential_counter_ok e H) as [A B].
  pose proof (period_at_range (envelope_counter e)
                (wf_envelope_counter e (reachable_wf e H))) as R.
  unfold exponential_period_at in *. repeat split; try lia. exact B.
Qed.

Lemma exponential_counter_never_misses_witness :
  exponential_counter
    (clock 40000 (writeCONTROL_REG 0x00
       (clock 3000 (writeCONTROL_REG 0x01 power_on)))) < 30.
Proof.
  assert (R : reachable
                (clock 40000 (writeCONTROL_REG 0x00
                   (clock 3000 (writeCONTROL_REG 0x01 power_on))))).
  { apply reach_clock; [lia|]. apply reach_CONTROL_REG.
    apply reach_clock; [lia|]. apply reach_CONTROL_REG. apply reach_reset. }
  pose proof (exponential_counter_never_misses _ R) as (A & B & _).
  eapply Z.lt_le_trans; [apply A|exact B].
Defined.

(** *** What [clock] leaves alone *)

Lemma step_envelope_loop_registers (P X dmax : Z) (fuel : nat) :
  forall rs de dt e,
    same_registers e (snd (step_envelope_loop fuel P X dmax rs de dt e)).
Proof.
  assert (R : forall e, same_registers e e)
    by (intros e; unfold same_registers; repeat split).
  assert (T : forall a b e e',
            same_registers (set_exponential_counter a (set_rate_counter b e)) e'
            -> same_registers e e')
    by (intros a b e e' H; exact H).
  induction fuel as [|fuel IH]; intros rs de dt e; cbn [step_envelope_loop].
  - apply R.
  - destruct (dt =? 0); [apply R|].
    destruct (dt <? rs);
      [cbn [snd]; unfold same_registers; env_simpl; repeat split|].
    destruct (_ =? X).
    + destruct (negb (dmax =? 0)).
      * destruct (de + 1 =? dmax);
          [cbn [snd]; unfold same_registers; env_simpl; repeat split|].
        eapply T, IH.
      * eapply T, IH.
    + eapply T, IH.
Qed.

Lemma same_registers_trans (a b c : t) :
  same_registers a b -> same_registers b c -> same_registers a c.
Proof.
  unfold same_registers.
  intros (A1 & A2 & A3 & A4 & A5 & A6 & A7) (B1 & B2 & B3 & B4 & B5 & B6 & B7).
  repeat split; congruence.
Qed.

Lemma same_registers_host (e e' : t) :
  same_registers e e' -> host_registers e' = host_registers e.
Proof.
  intros (_ & A2 & A3 & A4 & A5 & A6 & _). unfold host_registers. congruence.
Qed.

Lemma decay_sustain_loop_registers (fuel : nat) :
  forall dt e, host_registers (decay_sustain_loop fuel dt e) = host_registers e.
Proof.
  induction fuel as [|fuel IH]; intros dt e; cbn [decay_sustain_loop];
    [reflexivity|].
  destruct (dt =? 0); [reflexivity|].
  match goal with
  | |- context [step_envelope ?a ?b ?c ?d ?x] =>
    pose proof (step_envelope_loop_registers
                  (tbl rate_counter_period b) (tbl exponential_counter_period c)
                  a (loop_fuel d)
                  (if rate_counter x <? tbl rate_counter_period b
                   then tbl rate_counter_period b - rate_counter x
                   else 0x8000 + tbl rate_counter_period b - rate_counter x)
                  0 d x) as H;
    change (step_envelope_loop _ _ _ _ _ _ _ _)
      with (step_envelope a b c d x) in H;
    destruct (step_envelope a b c d x) as [[de' dt'] e']
  end.
  cbn [snd] in H. rewrite IH. apply same_registers_host in H.
  rewrite <- H. reflexivity.
Qed.

Lemma release_loop_registers (fuel : nat) :
  forall dt e, host_registers (release_loop fuel dt e) = host_registers e.
Proof.
  induction fuel as [|fuel IH]; intros dt e; cbn [release_loop];
    [reflexivity|].
  destruct (dt =? 0); [reflexivity|].
  match goal with
  | |- context [step_envelope ?a ?b ?c ?d ?x] =>
    pose proof (step_envelope_loop_registers
                  (tbl rate_counter_period b) (tbl exponential_counter_period c)
                  a (loop_fuel d)
                  (if rate_counter x <? tbl rate_counter_period b
                   then tbl rate_counter_period b - rate_counter x
                   else 0x8000 + tbl rate_counter_period b - rate_counter x)
                  0 d x) as H;
    change (step_envelope_loop _ _ _ _ _ _ _ _)
      with (step_envelope a b c d x) in H;
    destruct (step_envelope a b c d x) as [[de' dt'] e']
  end.
  cbn [snd] in H. rewrite IH. apply same_registers_host in H.
  rewrite <- H. reflexivity.
Qed.

Lemma clock_registers (dt : Z) (e : t) :
  host_registers (clock dt e) = host_registers e.
Proof.
  assert (Tl : forall d x, host_registers (clock_tail d x) = host_registers x).
  { intros d x. unfold clock_tail. destruct (State_eqb (state x) DECAY_SUSTAIN).
    - apply decay_sustain_loop_registers.
    - apply release_loop_registers. }
  unfold clock. destruct (State_eqb (state e) ATTACK); [|apply Tl].
  match goal with
  | |- context [step_envelope ?a ?b ?c ?d ?x] =>
    pose proof (step_envelope_loop_registers
                  (tbl rate_counter_period b) (tbl exponential_counter_period c)
                  a (loop_fuel d)
                  (if rate_counter x <? tbl rate_counter_period b
                   then tbl rate_counter_period b - rate_counter x
                   else 0x8000 + tbl rate_counter_period b - rate_counter x)
                  0 d x) as H;
    change (step_envelope_loop _ _ _ _ _ _ _ _)
      with (step_envelope a b c d x) in H;
    destruct (step_envelope a b c d x) as [[de' dt'] e']
  end.
  cbn [snd] in H. apply same_registers_host in H. cbv zeta.
  destruct (negb _); [rewrite <- H; reflexivity|].
  rewrite Tl. rewrite <- H. reflexivity.
Qed.

(** X13.  In DECAY_SUSTAIN, from a counter at or above the sustain
    level, [clock] never raises the counter and never takes it below the
    sustain level, and stays in DECAY_SUSTAIN: a counter at the sustain
    level is held, for any number of cycles, until a register write. *)
Theorem decay_stops_at_sustain_level (e : t) (delta_t : Z) :
  wf e -> state e = DECAY_SUSTAIN ->
  tbl sustain_level (sustain e) <= envelope_counter e -> 0 <= delta_t ->
  state (clock delta_t e) = DECAY_SUSTAIN /\
  tbl sustain_level (sustain e) <= envelope_counter (clock delta_t e)
    <= envelope_counter e /\
  (envelope_counter e = tbl sustain_level (sustain e) ->
   envelope_counter (clock delta_t e) = envelope_counter e).
Proof.
  intros Hw Hst Hl Hd.
  assert (S : settled e).
  { split; [exact Hw|]. split; [rewrite Hst; discriminate|intros _; exact Hl]. }
  pose proof (settled_clock delta_t e S Hd) as (_ & _ & S3).
  pose proof (clock_inv delta_t e Hw) as (_ & _ & _ & C).
  destruct (C ltac:(rewrite Hst; discriminate)) as [C1 C2].
  rewrite Hst in C1. specialize (S3 C1).
  pose proof (clock_registers delta_t e) as R.
  unfold host_registers in R.
  assert (Rs : sustain (clock delta_t e) = sustain e) by congruence.
  rewrite Rs in S3. repeat split; try assumption; lia.
Qed.

Lemma decay_stops_at_sustain_level_witness :
  envelope_counter (clock 100000 (mk 5 3 0x88 0 2 8 0 true DECAY_SUSTAIN))
  = 0x88.
Proof.
  apply (decay_stops_at_sustain_level (mk 5 3 0x88 0 2 8 0 true DECAY_SUSTAIN)
           100000 ltac:(constructor; cbn; lia) eq_refl
           ltac:(vm_compute; discriminate) ltac:(lia)).
  reflexivity.
Defined.

(** *** The attack, cycle by cycle *)

(** Before the rate counter meets its comparison value nothing but the
    rate counter moves. *)
Lemma clock_before_match (dt : Z) (e : t) :
  wf e -> state e = ATTACK -> envelope_counter e < 0xff ->
  0 <= dt < rate_step (tbl rate_counter_period (attack e)) (rate_counter e) ->
  clock dt e = set_rate_counter (Z.land (rate_counter e + dt) 0x7fff) e.
Proof.
  intros Hw Hst Hec Hdt. rewrite clock_attack_unfold by exact Hst.
  rewrite step_envelope_unfold. unfold loop_fuel. cbn [step_envelope_loop].
  destruct (Z.eqb_spec dt 0) as [->|Hnz].
  - cbv zeta. rewrite !Z.add_0_r, set_envelope_counter_same.
    destruct (Z.eqb_spec (envelope_counter e) 255); [lia|]. cbn [negb].
    rewrite land_0x7fff_small by apply (wf_rate_counter e Hw).
    rewrite set_rate_counter_same. reflexivity.
  - destruct (Z.ltb_spec dt (rate_step (tbl rate_counter_period (attack e))
                               (rate_counter e))); [|lia].
    cbv zeta. env_simpl. rewrite Z.add_0_r.
    destruct (Z.eqb_spec (envelope_counter e) 255); [lia|]. cbn [negb].
    unfold set_envelope_counter, set_rate_counter. env_simpl. reflexivity.
Qed.

(** The cycle on which the rate counter meets its comparison value. *)
Lemma clock_on_match (e : t) :
  wf e -> state e = ATTACK -> envelope_counter e < 0xff ->
  exponential_counter e = 0 ->
  rate_step (tbl rate_counter_period (attack e)) (rate_counter e) = 1 ->
  clock 1 e =
  mk 0 0 (envelope_counter e + 1) (attack e) (decay e) (sustain e) (release e)
     (gate e) (if envelope_counter e + 1 =? 0xff then DECAY_SUSTAIN else ATTACK).
Proof.
  intros Hw Hst Hec Hx Hrs. rewrite clock_attack_unfold by exact Hst.
  rewrite step_envelope_1 by (apply Hw).
  rewrite Hrs, Hx. change (1 <? 1) with false.
  change (0 + 1 =? tbl exponential_counter_period 0) with true. cbv iota.
  destruct (Z.eqb_spec (255 - envelope_counter e) 0); [lia|]. cbn [negb].
  cbv zeta. env_simpl.
  destruct (Z.eqb_spec (envelope_counter e + 1) 255) as [E|E]; cbn [negb].
  - rewrite clock_tail_0. unfold set_state, set_envelope_counter,
      set_exponential_counter, set_rate_counter. env_simpl. reflexivity.
  - unfold set_envelope_counter, set_exponential_counter, set_rate_counter.
    env_simpl. rewrite Hst. reflexivity.
Qed.

Lemma rate_step_low (P rc : Z) : rc < P -> rate_step P rc = P - rc.
Proof.
  intros H. unfold rate_step.
  destruct (Z.ltb_spec rc P); [reflexivity|lia].
Qed.

Lemma rate_step_high (P rc : Z) : P <= rc -> rate_step P rc = 0x8000 + P - rc.
Proof.
  intros H. unfold rate_step.
  destruct (Z.ltb_spec rc P); [lia|reflexivity].
Qed.

(** The attack while the counter stays below 0xFF. *)
Lemma attack_progress (dt : Z) (e : t) :
  wf e -> state e = ATTACK -> exponential_counter e = 0 ->
  rate_counter e < tbl rate_counter_period (attack e) -> 0 <= dt ->
  envelope_counter e
  + (dt + rate_counter e) / tbl rate_counter_period (attack e) < 0xff ->
  clock dt e =
  mk ((rate_counter e + dt) mod tbl rate_counter_period (attack e)) 0
     (envelope_counter e
      + (dt + rate_counter e) / tbl rate_counter_period (attack e))
     (attack e) (decay e) (sustain e) (release e) (gate e) ATTACK.
Proof.
  intros Hw Hst Hx Hrc Hdt Hn.
  pose proof (rate_counter_period_pos (attack e) (wf_attack e Hw)) as HP.
  pose proof (wf_rate_counter e Hw) as Hr.
  pose proof (wf_envelope_counter e Hw) as Hec.
  set (P := tbl rate_counter_period (attack e)) in *.
  rewrite clock_attack_unfold by exact Hst.
  rewrite step_envelope_unfold. fold P.
  rewrite rate_step_low by exact Hrc.
  change (tbl exponential_counter_period 0) with 1.
  assert (Q : dt + P - (P - rate_counter e) = dt + rate_counter e) by lia.
  rewrite (step_envelope_loop_attack P (0xff - envelope_counter e));
    try (unfold loop_fuel); try lia.
  2: { rewrite Q. lia. }
  rewrite Q. cbv zeta. env_simpl.
  destruct (Z.eqb_spec (envelope_counter e + (0 + (dt + rate_counter e) / P)) 255);
    [lia|]. cbn [negb].
  unfold set_envelope_counter, set_rate_counter. env_simpl.
  rewrite Hx, Hst. f_equal; try lia.
  destruct (Z.ltb_spec dt (P - rate_counter e)).
  - rewrite Z.mod_small by lia. reflexivity.
  - replace (rate_counter e + dt)
      with (dt - (P - rate_counter e) + 1 * P) by lia.
    rewrite Z.mod_add by lia. reflexivity.
Qed.

(** X14.  The length of the attack.  A generator in ATTACK below 0xFF
    whose rate counter is below the comparison value of its attack rate
    reaches 0xFF after exactly
    [(0xFF - envelope_counter) * rate_period - rate_counter] cycles and is
    then in DECAY_SUSTAIN with both counters at zero; before that it is
    in ATTACK, one step up every [rate_period] cycles. *)
Theorem attack_reaches_peak (e : t) :
  reachable e -> state e = ATTACK -> envelope_counter e < 0xff ->
  rate_counter e < tbl rate_counter_period (attack e) ->
  1 <= cycles_to_peak e /\
  (forall delta_t, 0 <= delta_t < cycles_to_peak e ->
     state (clock delta_t e) = ATTACK /\
     envelope_counter (clock delta_t e)
     = envelope_counter e
       + (delta_t + rate_counter e) / tbl rate_counter_period (attack e) /\
     envelope_counter (clock delta_t e) < 0xff) /\
  clock (cycles_to_peak e) e =
  mk 0 0 0xff (attack e) (decay e) (sustain e) (release e) (gate e)
     DECAY_SUSTAIN.
Proof.
  intros Hr Hst Hec Hrc.
  pose proof (reachable_wf e Hr) as Hw.
  destruct (reachable_exponential_counter_ok e Hr) as [_ Hx].
  specialize (Hx Hst).
  pose proof (rate_counter_period_pos (attack e) (wf_attack e Hw)) as HP.
  pose proof (wf_rate_counter e Hw) as Hrr.
  pose proof (wf_envelope_counter e Hw) as Hee.
  unfold cycles_to_peak.
  set (P := tbl rate_counter_period (attack e)) in *.
  set (T := (255 - envelope_counter e) * P - rate_counter e).
  assert (HT : 1 <= T) by (unfold T; nia).
  assert (Below : forall dt, 0 <= dt < T ->
            envelope_counter e + (dt + rate_counter e) / P < 255).
  { intros dt Hdt.
    assert ((dt + rate_counter e) / P < 255 - envelope_counter e).
    { apply Z.div_lt_upper_bound; [lia|]. unfold T in Hdt. nia. }
    lia. }
  split; [exact HT|]. split.
  - intros dt Hdt. specialize (Below dt Hdt).
    rewrite (attack_progress dt e Hw Hst Hx Hrc ltac:(lia) Below).
    env_simpl. repeat split. exact Below.
  - replace T with ((T - 1) + 1) by lia.
    rewrite <- envelope_clock_additive; try lia.
    2: { split; [exact Hw|]. split; [intros _; lia|rewrite Hst; discriminate]. }
    rewrite (attack_progress (T - 1) e Hw Hst Hx Hrc ltac:(lia)
               (Below (T - 1) ltac:(lia))).
    fold P.
    assert (D : (T - 1 + rate_counter e) / P = 254 - envelope_counter e).
    { symmetry. apply (Z.div_unique _ _ _ (P - 1)); [lia|]. unfold T. lia. }
    assert (M : (rate_counter e + (T - 1)) mod P = P - 1).
    { symmetry. apply (Z.mod_unique _ _ (254 - envelope_counter e)); [lia|].
      unfold T. lia. }
    rewrite D, M.
    replace (envelope_counter e + (254 - envelope_counter e)) with 254 by lia.
    rewrite clock_on_match; env_simpl; try reflexivity; try lia.
    + constructor; env_simpl; try apply Hw; lia.
    + fold P. rewrite rate_step_low by lia. lia.
Qed.

Lemma attack_reaches_peak_witness :
  clock (cycles_to_peak (writeCONTROL_REG 0x01 (writeATTACK_DECAY 0x20 power_on)))
    (writeCONTROL_REG 0x01 (writeATTACK_DECAY 0x20 power_on))
  = mk 0 0 0xff 2 0 0 0 true DECAY_SUSTAIN.
Proof.
  assert (R : reachable (writeCONTROL_REG 0x01 (writeATTACK_DECAY 0x20 power_on))).
  { apply reach_CONTROL_REG, reach_ATTACK_DECAY, reach_reset. }
  apply (attack_reaches_peak _ R eq_refl ltac:(cbn; lia)
           ltac:(vm_compute; reflexivity)).
Defined.

(** X15.  The ADSR delay bug.  When the comparison value of the attack
    rate is at or below the rate counter (the rate was lowered under
    it), the rate counter has to wrap at 0x8000 first: for
    [0x8000 + rate_period - rate_counter] cycles only the rate counter
    moves, and the envelope counter takes its step on the last of
    them. *)
Theorem adsr_delay_bug (e : t) :
  reachable e -> state e = ATTACK -> envelope_counter e < 0xff ->
  tbl rate_counter_period (attack e) <= rate_counter e ->
  let delay := 0x8000 + tbl rate_counter_period (attack e) - rate_counter e in
  (forall delta_t, 0 <= delta_t < delay ->
     clock delta_t e
     = set_rate_counter ((rate_counter e + delta_t) mod 0x8000) e) /\
  envelope_counter (clock delay e) = envelope_counter e + 1 /\
  rate_counter (clock delay e) = 0.
Proof.
  intros Hr Hst Hec Hrc delay.
  pose proof (reachable_wf e Hr) as Hw.
  destruct (reachable_exponential_counter_ok e Hr) as [_ Hx].
  specialize (Hx Hst).
  pose proof (rate_counter_period_pos (attack e) (wf_attack e Hw)) as HP.
  pose proof (wf_rate_counter e Hw) as Hrr.
  set (P := tbl rate_counter_period (attack e)) in *.
  assert (Before : forall dt, 0 <= dt < delay ->
            clock dt e = set_rate_counter ((rate_counter e + dt) mod 0x8000) e).
  { intros dt Hdt. rewrite clock_before_match; try assumption.
    - rewrite land_0x7fff_mod. reflexivity.
    - fold P. rewrite rate_step_high by exact Hrc. exact Hdt. }
  split; [exact Before|].
  assert (Hd : 1 <= delay) by (unfold delay; lia).
  replace delay with ((delay - 1) + 1) by lia.
  rewrite <- envelope_clock_additive; try lia.
  2: { split; [exact Hw|]. split; [intros _; lia|rewrite Hst; discriminate]. }
  rewrite (Before (delay - 1)) by lia.
  assert (M : (rate_counter e + (delay - 1)) mod 0x8000 = P - 1).
  { symmetry. apply (Z.mod_unique _ _ 1); [lia|]. unfold delay. lia. }
  rewrite M.
  rewrite clock_on_match; env_simpl;
    [ split; reflexivity
    | constructor; env_simpl; try apply Hw; lia
    | assumption | lia | assumption
    | fold P; rewrite rate_step_low by lia; lia ].
Qed.

Lemma adsr_delay_bug_witness :
  envelope_counter
    (clock (0x8000 + 9 - 1000)
       (writeATTACK_DECAY 0x00
          (clock 1000 (writeCONTROL_REG 0x01 (writeATTACK_DECAY 0xF0 power_on)))))
  = 0 + 1.
Proof.
  assert (R : reachable
                (writeATTACK_DECAY 0x00
                   (clock 1000 (writeCONTROL_REG 0x01
                                  (writeATTACK_DECAY 0xF0 power_on))))).
  { apply reach_ATTACK_DECAY. apply reach_clock; [lia|].
    apply reach_CONTROL_REG, reach_ATTACK_DECAY, reach_reset. }
  apply (adsr_delay_bug _ R ltac:(vm_compute; reflexivity)
           ltac:(vm_compute; reflexivity) ltac:(vm_compute; discriminate)).
Defined.

End EnvelopeMoreFacts.

(* ------------------------------------------------------------------ *)
(** ** The envelope generator: decay and release *)

Module DeclineFacts.
Import EnvelopeGenerator EnvelopeOps EnvelopeInvariants EnvelopeFacts
  EnvelopeMoreFacts DeclineOps.

(** One cycle of [step_envelope] seen from the loops that count down. *)
Lemma down_cycle (params : t -> Z * Z * Z) (e : t) :
  wf e -> 0 <= snd (fst (params e)) <= 15 ->
  down_run params 1 e =
  if 1 <? rate_step (tbl rate_counter_period (snd (fst (params e))))
            (rate_counter e)
  then set_rate_counter (Z.land (rate_counter e + 1) 0x7fff) e
  else if exponential_counter e + 1
          =? tbl exponential_counter_period (snd (params e))
  then
    set_envelope_counter
      (envelope_counter e - (if fst (fst (params e)) =? 0 then 0 else 1))
      (set_exponential_counter 0 (set_rate_counter 0 e))
  else set_exponential_counter (exponential_counter e + 1)
         (set_rate_counter 0 e).
Proof.
  intros Hw Hri. unfold down_run, loop_fuel. change (Z.to_nat 1) with 1%nat.
  cbn [down_loop]. change (1 =? 0) with false. cbv iota.
  destruct (params e) as [[dmax ri] xi]. cbn [fst snd] in *.
  rewrite step_envelope_1 by (try apply Hw; assumption).
  destruct (1 <? rate_step _ _).
  - change (0 =? 0) with true. cbv iota. env_simpl.
    rewrite Z.sub_0_r.
    unfold set_envelope_counter, set_rate_counter. env_simpl. reflexivity.
  - destruct (exponential_counter e + 1 =? _).
    + change (0 =? 0) with true. cbv iota. env_simpl.
      destruct (dmax =? 0); cbn [negb]; reflexivity.
    + change (0 =? 0) with true. cbv iota. env_simpl.
      rewrite Z.sub_0_r.
      unfold set_envelope_counter, set_exponential_counter, set_rate_counter.
      env_simpl. reflexivity.
Qed.

Lemma clock_decline (dt : Z) (e : t) :
  state e <> ATTACK ->
  clock dt e =
  down_run (if State_eqb (state e) DECAY_SUSTAIN
            then decay_sustain_params else release_params) dt e.
Proof.
  intros Hst. rewrite clock_not_attack by exact Hst.
  destruct (state e) eqn:E; [contradiction| |]; cbn [State_eqb].
  - apply clock_tail_decay_sustain, E.
  - apply clock_tail_release, E.
Qed.

(** One cycle of the decline. *)
Lemma decline_cycle (e : t) :
  wf e -> state e <> ATTACK ->
  clock 1 e =
  if 1 <? rate_step (tbl rate_counter_period (decline_rate e))
            (rate_counter e)
  then set_rate_counter (Z.land (rate_counter e + 1) 0x7fff) e
  else if exponential_counter e + 1
          =? exponential_period_at (envelope_counter e)
  then
    set_envelope_counter
      (envelope_counter e - (if decline_max e =? 0 then 0 else 1))
      (set_exponential_counter 0 (set_rate_counter 0 e))
  else set_exponential_counter (exponential_counter e + 1)
         (set_rate_counter 0 e).
Proof.
  intros Hw Hst. rewrite clock_decline by exact Hst.
  unfold decline_rate, decline_max, exponential_period_at.
  destruct (state e) eqn:E; [contradiction| |]; cbn [State_eqb].
  - rewrite down_cycle by (try exact Hw; cbn [decay_sustain_params fst snd];
                           apply Hw). reflexivity.
  - rewrite down_cycle by (try exact Hw; cbn [release_params fst snd];
                           apply Hw). reflexivity.
Qed.

Lemma segment_const (ec z : Z) :
  0 <= ec <= 255 ->
  tbl exponential_counter_level (tbl exponential_counter_segment ec) < z <= ec ->
  tbl exponential_counter_segment z = tbl exponential_counter_segment ec.
Proof.
  intros Hec Hz.
  assert (G : forall n : nat,
            tbl exponential_counter_level (tbl exponential_counter_segment ec)
              < ec - Z.of_nat n ->
            tbl exponential_counter_segment (ec - Z.of_nat n)
            = tbl exponential_counter_segment ec).
  { induction n as [|n IH]; intros Hn.
    - rewrite Z.sub_0_r. reflexivity.
    - specialize (IH ltac:(lia)).
      pose proof (segment_level_bounds ec Hec) as Hl.
      pose proof (segment_stable (ec - Z.of_nat n) ltac:(lia)) as St.
      rewrite IH in St. specialize (St ltac:(lia)).
      replace (ec - Z.of_nat (S n)) with (ec - Z.of_nat n - 1) by lia.
      exact St. }
  specialize (G (Z.to_nat (ec - z))).
  replace (ec - Z.of_nat (Z.to_nat (ec - z))) with z in G by lia.
  apply G. lia.
Qed.

(** Counting cycles in two stages: [n mod P], then [(n / P) mod X]. *)
Lemma two_stage_succ (P X n : Z) :
  1 <= P -> 1 <= X -> 0 <= n ->
  (n mod P + 1 < P ->
   (n + 1) mod P = n mod P + 1 /\ (n + 1) / P = n / P /\
   (n + 1) / (P * X) = n / (P * X)) /\
  (n mod P + 1 = P ->
   (n + 1) mod P = 0 /\ (n + 1) / P = n / P + 1 /\
   ((n / P) mod X + 1 < X ->
    (n / P + 1) mod X = (n / P) mod X + 1 /\
    (n + 1) / (P * X) = n / (P * X)) /\
   ((n / P) mod X + 1 = X ->
    (n / P + 1) mod X = 0 /\ (n + 1) / (P * X) = n / (P * X) + 1)).
Proof.
  intros HP HX Hn.
  rewrite <- !Z.div_div by lia.
  pose proof (Z.div_mod n P ltac:(lia)) as D1.
  pose proof (Z.mod_pos_bound n P ltac:(lia)) as B1.
  pose proof (Z.div_mod (n / P) X ltac:(lia)) as D2.
  pose proof (Z.mod_pos_bound (n / P) X ltac:(lia)) as B2.
  assert (K : 0 <= n / P) by (apply Z.div_pos; lia).
  split.
  - intros L.
    assert (M : (n + 1) mod P = n mod P + 1)
      by (symmetry; apply (Z.mod_unique _ _ (n / P)); lia).
    assert (Q : (n + 1) / P = n / P)
      by (symmetry; apply (Z.div_unique _ _ _ (n mod P + 1)); lia).
    rewrite Q. repeat split; assumption.
  - intros L.
    assert (M : (n + 1) mod P = 0)
      by (symmetry; apply (Z.mod_unique _ _ (n / P + 1)); lia).
    assert (Q : (n + 1) / P = n / P + 1)
      by (symmetry; apply (Z.div_unique _ _ _ 0); lia).
    rewrite Q. split; [exact M|]. split; [reflexivity|]. split.
    + intros L2. split.
      * symmetry. apply (Z.mod_unique _ _ (n / P / X)); lia.
      * symmetry. apply (Z.div_unique _ _ _ ((n / P) mod X + 1)); lia.
    + intros L2. split.
      * symmetry. apply (Z.mod_unique _ _ (n / P / X + 1)); lia.
      * symmetry. apply (Z.div_unique _ _ _ 0); lia.
Qed.

Section Decline.
Variable e : t.
Hypothesis Hw : wf e.
Hypothesis Hst : state e <> ATTACK.
Hypothesis Hsl :
  state e = DECAY_SUSTAIN -> tbl sustain_level (sustain e) <= envelope_counter e.
Hypothesis Hrc : rate_counter e = 0.
Hypothesis Hx : exponential_counter e = 0.


Lemma floor_level_range :
  tbl exponential_counter_level
    (tbl exponential_counter_segment (envelope_counter e))
  <= floor_level e <= envelope_counter e.
Proof.
  pose proof (segment_level_bounds _ (wf_envelope_counter e Hw)) as Hl.
  unfold floor_level.
  destruct (state e) eqn:E; cbn [State_eqb]; try lia.
  specialize (Hsl eq_refl). lia.
Qed.

Lemma declined_facts (n : Z) :
  0 <= n -> n / decline_period e <= envelope_counter e - floor_level e ->
  wf (declined e n) /\ state (declined e n) <> ATTACK /\
  decline_rate (declined e n) = decline_rate e /\
  (floor_level e < envelope_counter (declined e n) ->
   exponential_period_at (envelope_counter (declined e n))
   = exponential_period_at (envelope_counter e) /\
   decline_max (declined e n) <> 0) /\
  exponential_period_at (envelope_counter e)
  <= exponential_period_at (envelope_counter (declined e n)).
Proof.
  intros Hn Hb.
  pose proof floor_level_range as HF.
  pose proof (wf_envelope_counter e Hw) as Hec.
  pose proof (segment_level_bounds _ Hec) as Hl.
  assert (Hri : 0 <= decline_rate e <= 15)
    by (unfold decline_rate; destruct (State_eqb _ _); apply Hw).
  pose proof (rate_counter_period_pos _ Hri) as HP.
  pose proof (period_at_range _ Hec) as HX.
  assert (Hq : 0 <= n / decline_period e)
    by (apply Z.div_pos; unfold decline_period; nia).
  unfold declined. env_simpl.
  split; [|split; [|split; [|split]]].
  - pose proof (Z.mod_pos_bound n (tbl rate_counter_period (decline_rate e))
                  ltac:(lia)).
    pose proof (Z.mod_pos_bound
                  (n / tbl rate_counter_period (decline_rate e))
                  (exponential_period_at (envelope_counter e)) ltac:(lia)).
    destruct Hw. constructor; env_simpl; try assumption; lia.
  - exact Hst.
  - unfold decline_rate. env_simpl. reflexivity.
  - intros G.
    assert (Sg : tbl exponential_counter_segment
                   (envelope_counter e - n / decline_period e)
                 = tbl exponential_counter_segment (envelope_counter e))
      by (apply segment_const; lia).
    split; [unfold exponential_period_at; rewrite Sg; reflexivity|].
    unfold decline_max, decay_sustain_params, release_params. env_simpl.
    rewrite Sg. unfold floor_level in G, HF.
    destruct (State_eqb (state e) DECAY_SUSTAIN); cbn [fst].
    + set (l := tbl exponential_counter_level _) in *.
      set (u := tbl sustain_level _) in *.
      destruct (Z.ltb_spec l u);
        match goal with
        | |- context [?a <? 0] => destruct (Z.ltb_spec a 0)
        end; lia.
    + lia.
  - apply period_at_mono; lia.
Qed.

Lemma decline_progress (n : nat) :
  Z.of_nat n / decline_period e <= envelope_counter e - floor_level e ->
  clock (Z.of_nat n) e = declined e (Z.of_nat n).
Proof.
  pose proof (wf_envelope_counter e Hw) as Hec.
  assert (Hri : 0 <= decline_rate e <= 15)
    by (unfold decline_rate; destruct (State_eqb _ _); apply Hw).
  pose proof (rate_counter_period_pos _ Hri) as HP.
  pose proof (period_at_range _ Hec) as HX.
  assert (Hs : settled e).
  { split; [exact Hw|]. split; [intros X; contradiction|exact Hsl]. }
  induction n as [|n IH]; intros Hb.
  - rewrite clock_0 by exact Hs. unfold declined.
    change (Z.of_nat 0) with 0. rewrite Z.mod_0_l, !Z.div_0_l, Z.mod_0_l,
      Z.sub_0_r by (unfold decline_period; nia).
    rewrite <- Hrc at 1. rewrite <- Hx. destruct e; reflexivity.
  - assert (Hb' : Z.of_nat n / decline_period e
                  <= envelope_counter e - floor_level e).
    { assert (Z.of_nat n / decline_period e
              <= Z.of_nat (S n) / decline_period e)
        by (apply Z.div_le_mono; unfold decline_period; nia).
      lia. }
    specialize (IH Hb').
    replace (Z.of_nat (S n)) with (Z.of_nat n + 1) in * by lia.
    rewrite <- envelope_clock_additive by (try exact Hs; lia).
    rewrite IH.
    destruct (declined_facts (Z.of_nat n) ltac:(lia) Hb')
      as (W & St & R & A & M).
    rewrite decline_cycle by assumption. rewrite R.
    destruct (two_stage_succ (tbl rate_counter_period (decline_rate e))
                (exponential_period_at (envelope_counter e)) (Z.of_nat n)
                ltac:(lia) ltac:(lia) ltac:(lia)) as [T1 T2].
    fold (decline_period e) in T1, T2.
    pose proof (Z.mod_pos_bound (Z.of_nat n)
                  (tbl rate_counter_period (decline_rate e)) ltac:(lia)) as B1.
    pose proof (Z.mod_pos_bound
                  (Z.of_nat n / tbl rate_counter_period (decline_rate e))
                  (exponential_period_at (envelope_counter e)) ltac:(lia))
      as B2.
    set (s := declined e (Z.of_nat n)) in *.
    assert (Fr : rate_counter s
                 = Z.of_nat n mod tbl rate_counter_period (decline_rate e))
      by reflexivity.
    assert (Fx : exponential_counter s
                 = (Z.of_nat n / tbl rate_counter_period (decline_rate e))
                     mod exponential_period_at (envelope_counter e))
      by reflexivity.
    assert (Fe : envelope_counter s
                 = envelope_counter e - Z.of_nat n / decline_period e)
      by reflexivity.
    rewrite rate_step_low by (rewrite Fr; lia).
    destruct (Z.ltb_spec 1 (tbl rate_counter_period (decline_rate e)
                            - rate_counter s)) as [Idle|Match].
    + destruct (T1 ltac:(lia)) as (U1 & U2 & U3).
      unfold declined. rewrite U1, U2, U3.
      rewrite land_0x7fff_small by lia.
      unfold set_rate_counter, s, declined. env_simpl. reflexivity.
    + destruct (T2 ltac:(lia)) as (U1 & U2 & U3 & U4).
      unfold declined. rewrite U1, U2.
      destruct (Z.eqb_spec (exponential_counter s + 1)
                  (exponential_period_at (envelope_counter s))) as [E|E].
      * (* a step down *)
        assert (G : floor_level e < envelope_counter s).
        { destruct (Z.le_gt_cases (envelope_counter s) (floor_level e))
            as [L|G]; [|exact G].
          destruct (Z.le_gt_cases
                      (exponential_period_at (envelope_counter e))
                      ((Z.of_nat n / tbl rate_counter_period (decline_rate e))
                         mod exponential_period_at (envelope_counter e) + 1))
            as [L2|G2].
          - destruct (U4 ltac:(lia)) as [_ V]. lia.
          - lia. }
        destruct (A G) as [A1 A2].
        destruct (U4 ltac:(lia)) as [V1 V2]. rewrite V1, V2.
        destruct (Z.eqb_spec (decline_max s) 0); [contradiction|].
        unfold set_envelope_counter, set_exponential_counter,
          set_rate_counter, s, declined. env_simpl. f_equal. lia.
      * assert (L2 : (Z.of_nat n / tbl rate_counter_period (decline_rate e))
                       mod exponential_period_at (envelope_counter e) + 1
                     < exponential_period_at (envelope_counter e)).
        { destruct (Z.le_gt_cases
                      (exponential_period_at (envelope_counter e))
                      ((Z.of_nat n / tbl rate_counter_period (decline_rate e))
                         mod exponential_period_at (envelope_counter e) + 1))
            as [L2|G2]; [|lia].
          exfalso.
          assert (Eq : (Z.of_nat n / tbl rate_counter_period (decline_rate e))
                         mod exponential_period_at (envelope_counter e) + 1
                       = exponential_period_at (envelope_counter e)) by lia.
          destruct (U4 Eq) as [_ V].
          assert (G : floor_level e < envelope_counter s) by lia.
          destruct (A G) as [A1 _]. apply E. rewrite A1, Fx. exact Eq. }
        destruct (U3 L2) as [V1 V2]. rewrite V1, V2.
        unfold set_exponential_counter, set_rate_counter, s, declined.
        env_simpl. reflexivity.
Qed.

End Decline.

(** X16.  Decay and release are linear within a segment.  Started with both
    dividers at zero, outside the attack and (in decay) not below the sustain
    level, the generator after [n] cycles has lowered the envelope counter by
    [n / (P * X)], where [P] is the rate period of the decay (or release)
    register and [X] the exponential period of the starting level, as long
    as this does not take the counter below the floor (the next segment
    boundary below, or the sustain level); the dividers hold [n mod P] and
    [(n / P) mod X]. *)
Theorem decline_is_linear_within_a_segment (e : t) (n : Z) :
  wf e -> state e <> ATTACK ->
  (state e = DECAY_SUSTAIN ->
   tbl sustain_level (sustain e) <= envelope_counter e) ->
  rate_counter e = 0 -> exponential_counter e = 0 ->
  0 <= n ->
  n / (tbl rate_counter_period (decline_rate e)
       * exponential_period_at (envelope_counter e))
  <= envelope_counter e - floor_level e ->
  envelope_counter (clock n e)
  = envelope_counter e
    - n / (tbl rate_counter_period (decline_rate e)
           * exponential_period_at (envelope_counter e)) /\
  rate_counter (clock n e) = n mod tbl rate_counter_period (decline_rate e) /\
  exponential_counter (clock n e)
  = (n / tbl rate_counter_period (decline_rate e))
      mod exponential_period_at (envelope_counter e) /\
  state (clock n e) = state e.
Proof.
  intros Hw Hst Hsl Hrc Hx Hn Hb.
  pose proof (decline_progress e Hw Hst Hsl Hrc Hx (Z.to_nat n)) as P.
  rewrite Z2Nat.id in P by exact Hn.
  rewrite (P Hb). unfold declined, decline_period. env_simpl.
  repeat split; reflexivity.
Qed.

Lemma decline_is_linear_within_a_segment_witness :
  envelope_counter (clock 7453 (mk 0 0 200 0 0 0 4 false RELEASE)) = 200 - 50.
Proof.
  exact (proj1 (decline_is_linear_within_a_segment
                  (mk 0 0 200 0 0 0 4 false RELEASE) 7453
                  ltac:(constructor; cbn; lia) ltac:(discriminate)
                  ltac:(discriminate) eq_refl eq_refl ltac:(lia)
                  ltac:(vm_compute; discriminate))).
Defined.

End DeclineFacts.

(* ------------------------------------------------------------------ *)
(** ** The envelope generator: the rate table and the period between
    steps *)

Module StepPeriodFacts.
Import EnvelopeGenerator EnvelopeOps EnvelopeInvariants DeclineOps StepPeriod
  EnvelopeFacts.

Lemma counted_split (P X r x : Z) :
  1 <= P -> 1 <= X -> 0 <= r < P -> 0 <= x < X ->
  (r + P * x) mod P = r /\ ((r + P * x) / P) mod X = x /\
  (r + P * x) / (P * X) = 0.
Proof.
  intros HP HX Hr Hx.
  assert (Q : (r + P * x) / P = x)
    by (symmetry; apply (Z.div_unique _ _ _ r); lia).
  split; [symmetry; apply (Z.mod_unique _ _ x); lia|].
  split; [rewrite Q; apply Z.mod_small; lia|].
  apply Z.div_small. nia.
Qed.

Lemma decline_from_counted (e : t) (n : Z) :
  wf e -> state e <> ATTACK ->
  (state e = DECAY_SUSTAIN ->
   tbl sustain_level (sustain e) <= envelope_counter e) ->
  rate_counter e < tbl rate_counter_period (decline_rate e) ->
  exponential_counter e < exponential_period_at (envelope_counter e) ->
  0 <= n ->
  (n + (rate_counter e
        + tbl rate_counter_period (decline_rate e) * exponential_counter e))
    / decline_period e
  <= envelope_counter e - floor_level e ->
  clock n e =
  declined (set_exponential_counter 0 (set_rate_counter 0 e))
    (n + (rate_counter e
          + tbl rate_counter_period (decline_rate e) * exponential_counter e)).
Proof.
  intros Hw Hst Hsl Hrc Hx Hn Hb.
  pose proof (wf_rate_counter e Hw) as Hr0.
  pose proof (wf_exponential_counter e Hw) as Hx0.
  pose proof (wf_envelope_counter e Hw) as Hec.
  assert (Hri : 0 <= decline_rate e <= 15)
    by (unfold decline_rate; destruct (State_eqb _ _); apply Hw).
  pose proof (rate_counter_period_pos _ Hri) as HP.
  pose proof (EnvelopeMoreFacts.period_at_range _ Hec) as HX.
  set (e0 := set_exponential_counter 0 (set_rate_counter 0 e)).
  set (P := tbl rate_counter_period (decline_rate e)) in *.
  set (X := exponential_period_at (envelope_counter e)) in *.
  set (m := rate_counter e + P * exponential_counter e) in *.
  assert (W0 : wf e0).
  { destruct Hw. constructor; unfold e0; cbn; try assumption; lia. }
  assert (R0 : decline_rate e0 = decline_rate e) by reflexivity.
  assert (D0 : decline_period e0 = decline_period e) by reflexivity.
  assert (F0 : floor_level e0 = floor_level e) by reflexivity.
  assert (E0 : envelope_counter e0 = envelope_counter e) by reflexivity.
  assert (S0 : state e0 = state e) by reflexivity.
  assert (Hst0 : state e0 <> ATTACK) by (rewrite S0; exact Hst).
  assert (Hsl0 : state e0 = DECAY_SUSTAIN ->
                 tbl sustain_level (sustain e0) <= envelope_counter e0)
    by exact Hsl.
  destruct (counted_split P X (rate_counter e) (exponential_counter e)
              ltac:(lia) ltac:(lia) ltac:(lia) ltac:(lia)) as (M1 & M2 & M3).
  fold m in M1, M2, M3.
  assert (Hm : 0 <= m) by (unfold m; nia).
  pose proof (DeclineFacts.floor_level_range e Hw Hst Hsl) as HF.
  assert (Em : clock m e0 = e).
  { pose proof (DeclineFacts.decline_progress e0 W0 Hst0 Hsl0 eq_refl eq_refl
                  (Z.to_nat m)) as Q.
    rewrite Z2Nat.id in Q by exact Hm.
    rewrite Q.
    - unfold declined. rewrite R0, D0, E0. fold P. fold X.
      unfold decline_period. fold P. fold X.
      rewrite M1, M2, M3, Z.sub_0_r. destruct e; reflexivity.
    - rewrite D0, E0, F0. unfold decline_period. fold P. fold X.
      rewrite M3. lia. }
  assert (St0 : settled e0).
  { split; [exact W0|]. split; [intros A; contradiction|exact Hsl0]. }
  rewrite <- Em at 1.
  rewrite envelope_clock_additive by (try exact St0; lia).
  pose proof (DeclineFacts.decline_progress e0 W0 Hst0 Hsl0 eq_refl eq_refl
                (Z.to_nat (m + n))) as Q.
  rewrite Z2Nat.id in Q by lia.
  replace (n + m) with (m + n) by lia.
  apply Q. rewrite D0, E0, F0. replace (m + n) with (n + m) by lia. exact Hb.
Qed.

(** C3.  The rate table maps the rate indices 0..15 to the 15-bit
    comparison values 9, 32, 63, 95, 149, 220, 267, 313, 392, 977, 1954,
    3126, 3906, 11720, 19532, 31252, and the value selected by the rate
    register of the state (attack, decay or release) governs the period
    between steps of the envelope counter in every state: with the rate
    counter below the comparison value, [n] cycles take the counter
    [(n + counted) / step_period] steps up during the attack and as many
    down during decay and release, where [step_period] is the table
    value times the exponential period (1 during the attack) and
    [counted] the cycles already counted towards the next step.  This
    holds as long as the attack stays below 0xFF and the decline does
    not pass the start of the next segment of the exponential or the
    sustain level; the rate counter then holds the cycles counted modulo
    the table value. *)
Theorem rate_counter_period_governs_steps (e : t) (n : Z) :
  wf e -> 0 <= n ->
  rate_counter e < tbl rate_counter_period (rate_index e) ->
  exponential_counter e < exponential_period_in_use e ->
  (state e = DECAY_SUSTAIN ->
   tbl sustain_level (sustain e) <= envelope_counter e) ->
  map (tbl rate_counter_period) (map Z.of_nat (seq 0 16)) =
    [9; 32; 63; 95; 149; 220; 267; 313; 392; 977; 1954; 3126; 3906; 11720;
     19532; 31252] /\
  0 < tbl rate_counter_period (rate_index e) < 2 ^ 15 /\
  (state e = ATTACK ->
   envelope_counter e + (n + counted e) / step_period e < 0xff ->
   envelope_counter (clock n e)
   = envelope_counter e + (n + counted e) / step_period e /\
   rate_counter (clock n e)
   = (n + counted e) mod tbl rate_counter_period (rate_index e) /\
   state (clock n e) = ATTACK) /\
  (state e <> ATTACK ->
   (n + counted e) / step_period e <= envelope_counter e - floor_level e ->
   envelope_counter (clock n e)
   = envelope_counter e - (n + counted e) / step_period e /\
   rate_counter (clock n e)
   = (n + counted e) mod tbl rate_counter_period (rate_index e) /\
   exponential_counter (clock n e)
   = ((n + counted e) / tbl rate_counter_period (rate_index e))
       mod exponential_period_in_use e /\
   state (clock n e) = state e).
Proof.
  intros Hw Hn Hrc Hx Hsl.
  assert (Hri : 0 <= rate_index e <= 15)
    by (unfold rate_index; destruct (state e); apply Hw).
  pose proof (rate_counter_period_pos _ Hri) as HP.
  split; [reflexivity|]. split; [change (2 ^ 15) with 32768; lia|].
  split.
  - intros Hst. unfold counted, step_period, exponential_period_in_use,
      rate_index in *. rewrite Hst in *.
    change (tbl exponential_counter_period 0) with 1 in *.
    pose proof (wf_exponential_counter e Hw) as Hx0.
    assert (X0 : exponential_counter e = 0) by lia.
    rewrite X0, Z.mul_0_r, Z.add_0_r, Z.mul_1_r. intros Hb.
    rewrite (EnvelopeMoreFacts.attack_progress n e Hw Hst X0 Hrc Hn Hb).
    cbn [envelope_counter rate_counter state].
    replace (rate_counter e + n) with (n + rate_counter e) by lia.
    repeat split; reflexivity.
  - intros Hst.
    assert (R : rate_index e = decline_rate e).
    { unfold rate_index, decline_rate.
      destruct (state e); [contradiction| |]; reflexivity. }
    assert (XE : exponential_period_in_use e
                 = exponential_period_at (envelope_counter e)).
    { unfold exponential_period_in_use.
      destruct (state e); [contradiction| |]; reflexivity. }
    unfold counted, step_period. rewrite R, XE in *. intros Hb.
    rewrite (decline_from_counted e n Hw Hst Hsl Hrc Hx Hn Hb).
    unfold declined, decline_period. cbn.
    repeat split; reflexivity.
Qed.

Lemma rate_counter_period_governs_steps_witness :
  envelope_counter (clock 1000 (mk 100 3 50 0 0 0 4 false RELEASE)) = 50 - 2 /\
  envelope_counter (clock 1000 (mk 5 0 10 1 0 0 0 true ATTACK)) = 10 + 31.
Proof.
  split.
  - exact (proj1 (proj2 (proj2 (proj2
             (rate_counter_period_governs_steps
                (mk 100 3 50 0 0 0 4 false RELEASE) 1000
                ltac:(constructor; cbn; lia) ltac:(lia)
                ltac:(vm_compute; reflexivity) ltac:(vm_compute; reflexivity)
                ltac:(discriminate))))
             ltac:(discriminate) ltac:(vm_compute; discriminate))).
  - exact (proj1 (proj1 (proj2 (proj2
             (rate_counter_period_governs_steps
                (mk 5 0 10 1 0 0 0 true ATTACK) 1000
                ltac:(constructor; cbn; lia) ltac:(lia)
                ltac:(vm_compute; reflexivity) ltac:(vm_compute; reflexivity)
                ltac:(discriminate))))
             eq_refl ltac:(vm_compute; reflexivity))).
Defined.

End StepPeriodFacts.

(* ------------------------------------------------------------------ *)
(** ** The envelope generator, frequency divider model *)

Module DividerEnvelopeFacts.
Import DividerEnvelope DividerEnvelopeOps.

Ltac div_simpl :=
  cbn [frequency_divider_counter envelope_counter delta_t_remainder attack
       decay sustain release gate state set_frequency_divider_counter
       set_envelope_counter set_delta_t_remainder set_state] in *.

Lemma divider_range (i : Z) :
  0 <= i <= 15 -> 8 <= tbl frequency_divider_number i <= 31250.
Proof.
  intros H.
  assert (C : i = 0 \/ i = 1 \/ i = 2 \/ i = 3 \/ i = 4 \/ i = 5 \/ i = 6
              \/ i = 7 \/ i = 8 \/ i = 9 \/ i = 10 \/ i = 11 \/ i = 12
              \/ i = 13 \/ i = 14 \/ i = 15) by lia.
  repeat (destruct C as [-> | C]; [vm_compute; split; discriminate|]).
  subst. vm_compute. split; discriminate.
Qed.

Lemma shift_level_bounds (ec : Z) :
  0 <= ec <= 255 ->
  0 <= tbl exponential_shift ec <= 5 /\
  0 <= tbl exponential_divide_level (tbl exponential_shift ec) <= ec.
Proof.
  intros H.
  pose proof (EnvelopeFacts.forall_below_256
    (fun z => (0 <=? tbl exponential_shift z)
              && (tbl exponential_shift z <=? 5)
              && (0 <=? tbl exponential_divide_level (tbl exponential_shift z))
              && (tbl exponential_divide_level (tbl exponential_shift z) <=? z))
    ltac:(vm_compute; reflexivity) ec H) as G.
  cbv beta in G. rewrite !andb_true_iff, !Z.leb_le in G. lia.
Qed.

Lemma sustain_level_range (s : Z) : 0 <= tbl sustain_level s <= 255.
Proof.
  unfold tbl. set (n := Z.to_nat s).
  do 16 (destruct n as [|n]; [vm_compute; split; discriminate|]).
  destruct n; vm_compute; split; discriminate.
Qed.

Lemma remainder_mask (s x : Z) :
  0 <= s <= 5 -> 0 <= Z.land x (Z.shiftr 0x1f (5 - s)) <= 0x1f.
Proof.
  intros H.
  assert (C : s = 0 \/ s = 1 \/ s = 2 \/ s = 3 \/ s = 4 \/ s = 5) by lia.
  assert (R : forall n, 0 <= n <= 5 -> 0 <= Z.land x (Z.ones n) <= 0x1f).
  { intros n Hn. rewrite Z.land_ones by lia.
    pose proof (Z.mod_pos_bound x (2 ^ n) ltac:(apply Z.pow_pos_nonneg; lia)).
    assert (2 ^ n <= 2 ^ 5) by (apply Z.pow_le_mono_r; lia).
    change (2 ^ 5) with 32 in *. lia. }
  destruct C as [-> | [-> | [-> | [-> | [-> | ->]]]]].
  - apply (R 0); lia.
  - apply (R 1); lia.
  - apply (R 2); lia.
  - apply (R 3); lia.
  - apply (R 4); lia.
  - apply (R 5); lia.
Qed.

(** What one call of [step_envelope] does to a generator in range. *)
Lemma step_envelope_spec (dmax idx shifts dt : Z) (e : t) :
  wf e -> 0 <= dmax -> 0 <= idx <= 15 -> 0 <= shifts <= 5 -> 0 <= dt ->
  let '(de, dt', e') := step_envelope dmax idx shifts dt e in
  0 <= de <= dmax /\ 0 <= dt' /\ (0 < dt' -> de = dmax /\ 1 <= de) /\
  wf e' /\ same_registers e e'.
Proof.
  intros Hw Hd Hi Hs Hdt. unfold step_envelope. cbv zeta. div_simpl.
  pose proof (wf_frequency_divider_counter e Hw) as Hf.
  pose proof (wf_delta_t_remainder e Hw) as Hr.
  pose proof (divider_range idx Hi) as HD.
  pose proof (remainder_mask shifts (dt + delta_t_remainder e) Hs) as HM.
  set (D := tbl frequency_divider_number idx) in *.
  set (rem' := Z.land (dt + delta_t_remainder e) (Z.shiftr 31 (5 - shifts))) in *.
  rewrite Z.shiftr_div_pow2 by lia.
  assert (Hp : 0 < 2 ^ shifts) by (apply Z.pow_pos_nonneg; lia).
  set (q := (dt + delta_t_remainder e) / 2 ^ shifts).
  assert (Hq : 0 <= q) by (apply Z.div_pos; lia).
  assert (W : forall v, 1 <= v <= 31250 ->
            wf (set_frequency_divider_counter v (set_delta_t_remainder rem' e))).
  { intros v Hv. destruct Hw. constructor; div_simpl; assumption. }
  assert (S : forall v,
            same_registers e
              (set_frequency_divider_counter v (set_delta_t_remainder rem' e))).
  { intros v. unfold same_registers. div_simpl. repeat split. }
  destruct (Z.ltb_spec q (frequency_divider_counter e)) as [Hlt|Hge].
  - split; [lia|]. split; [lia|]. split; [lia|].
    split; [apply W; lia|apply S].
  - destruct (Z.eqb_spec dmax 0) as [Hz|Hnz]; cbn [negb].
    + pose proof (Z.mod_pos_bound (q - frequency_divider_counter e) D
                    ltac:(lia)).
      split; [lia|]. split; [lia|]. split; [lia|].
      split; [apply W; lia|apply S].
    + set (next := D * (dmax - 1)).
      set (m := if next <? q - frequency_divider_counter e then next
                else q - frequency_divider_counter e).
      assert (Hm : 0 <= m <= next /\ m <= q - frequency_divider_counter e)
        by (unfold m, next;
            destruct (Z.ltb_spec (D * (dmax - 1))
                        (q - frequency_divider_counter e)); nia).
      pose proof (Z.mod_pos_bound m D ltac:(lia)).
      assert (0 <= m / D) by (apply Z.div_pos; lia).
      assert (m / D <= dmax - 1)
        by (apply Z.div_le_upper_bound; unfold next in Hm; lia).
      rewrite Z.shiftl_mul_pow2 by lia.
      split; [lia|]. split; [nia|]. split.
      * intros Hpos.
        assert (m < q - frequency_divider_counter e) by nia.
        assert (E : m = next).
        { unfold m in *.
          destruct (Z.ltb_spec next (q - frequency_divider_counter e));
            [reflexivity|lia]. }
        rewrite E. unfold next. rewrite Z.mul_comm, Z.div_mul by lia. lia.
      * split; [apply W; lia|apply S].
Qed.

Lemma divider_wf_set_envelope_counter (v : Z) (e : t) :
  wf e -> 0 <= v <= 0xff -> wf (set_envelope_counter v e).
Proof. intros [] H. constructor; div_simpl; assumption. Qed.

Lemma divider_wf_set_state (v : State) (e : t) : wf e -> wf (set_state v e).
Proof. intros []. constructor; div_simpl; assumption. Qed.

Lemma same_registers_wf_ranges (e e' : t) :
  wf e -> same_registers e e' ->
  0 <= envelope_counter e' <= 0xff /\ 0 <= decay e' <= 15 /\
  0 <= release e' <= 15 /\ 0 <= attack e' <= 15.
Proof.
  intros [] (A & B & C & D & E & F & G).
  rewrite A, B, C, E. repeat split; lia.
Qed.

Lemma decay_sustain_loop_spec (fuel : nat) :
  forall dt e,
    wf e -> 0 <= dt -> (Z.to_nat (envelope_counter e) < fuel)%nat ->
    let '(dt', e') := decay_sustain_loop fuel dt e in
    dt' = 0 /\ wf e' /\ envelope_counter e' <= envelope_counter e /\
    state e' = state e.
Proof.
  induction fuel as [|fuel IH]; intros dt e Hw Hdt Hf; [lia|].
  cbn [decay_sustain_loop].
  destruct (Z.eqb_spec dt 0) as [->|Hnz].
  { split; [reflexivity|]. split; [exact Hw|]. split; [lia|reflexivity]. }
  pose proof (wf_envelope_counter e Hw) as Hec.
  destruct (shift_level_bounds (envelope_counter e) Hec) as [Hs Hl].
  pose proof (sustain_level_range (sustain e)) as Hsl.
  set (shifts := tbl exponential_shift (envelope_counter e)) in *.
  set (min_level0 := tbl exponential_divide_level shifts) in *.
  set (min_level := if min_level0 <? tbl sustain_level (sustain e)
                    then tbl sustain_level (sustain e) else min_level0).
  set (dmax := if envelope_counter e <=? min_level then 0
               else envelope_counter e - min_level).
  assert (Hml : 0 <= min_level)
    by (unfold min_level; destruct (min_level0 <? _); lia).
  assert (Hd : 0 <= dmax <= envelope_counter e)
    by (unfold dmax; destruct (Z.leb_spec (envelope_counter e) min_level); lia).
  pose proof (step_envelope_spec dmax (decay e) shifts dt e Hw ltac:(lia)
                (wf_decay e Hw) Hs Hdt) as H.
  destruct (step_envelope dmax (decay e) shifts dt e) as [[de dt'] e'].
  destruct H as (A & B & C & D & E).
  destruct E as (E1 & E2 & E3 & E4 & E5 & E6 & E7).
  assert (Hw2 : wf (set_envelope_counter (envelope_counter e' - de) e'))
    by (apply divider_wf_set_envelope_counter; [exact D|lia]).
  destruct (Z.eq_dec dt' 0) as [->|Hpos].
  - destruct fuel; cbn [decay_sustain_loop Z.eqb]; cbv beta iota; div_simpl;
      (split; [reflexivity|]; split; [exact Hw2|]; split; [lia|exact E7]).
  - destruct (C ltac:(lia)) as [C1 C2].
    specialize (IH dt' (set_envelope_counter (envelope_counter e' - de) e')
                  Hw2 B ltac:(div_simpl; lia)).
    destruct (decay_sustain_loop fuel dt' _) as [dt2 e2].
    destruct IH as (I1 & I2 & I3 & I4). div_simpl.
    split; [exact I1|]. split; [exact I2|]. split; [lia|congruence].
Qed.

Lemma release_loop_spec (fuel : nat) :
  forall dt e,
    wf e -> 0 <= dt -> (Z.to_nat (envelope_counter e) < fuel)%nat ->
    let '(dt', e') := release_loop fuel dt e in
    dt' = 0 /\ wf e' /\ envelope_counter e' <= envelope_counter e /\
    state e' = state e.
Proof.
  induction fuel as [|fuel IH]; intros dt e Hw Hdt Hf; [lia|].
  cbn [release_loop].
  destruct (Z.eqb_spec dt 0) as [->|Hnz].
  { split; [reflexivity|]. split; [exact Hw|]. split; [lia|reflexivity]. }
  pose proof (wf_envelope_counter e Hw) as Hec.
  destruct (shift_level_bounds (envelope_counter e) Hec) as [Hs Hl].
  set (shifts := tbl exponential_shift (envelope_counter e)) in *.
  set (min_level := tbl exponential_divide_level shifts) in *.
  pose proof (step_envelope_spec (envelope_counter e - min_level) (release e)
                shifts dt e Hw ltac:(lia) (wf_release e Hw) Hs Hdt) as H.
  destruct (step_envelope _ (release e) shifts dt e) as [[de dt'] e'].
  destruct H as (A & B & C & D & E).
  destruct E as (E1 & E2 & E3 & E4 & E5 & E6 & E7).
  assert (Hw2 : wf (set_envelope_counter (envelope_counter e' - de) e'))
    by (apply divider_wf_set_envelope_counter; [exact D|lia]).
  destruct (Z.eq_dec dt' 0) as [->|Hpos].
  - destruct fuel; cbn [release_loop Z.eqb]; cbv beta iota; div_simpl;
      (split; [reflexivity|]; split; [exact Hw2|]; split; [lia|exact E7]).
  - destruct (C ltac:(lia)) as [C1 C2].
    specialize (IH dt' (set_envelope_counter (envelope_counter e' - de) e')
                  Hw2 B ltac:(div_simpl; lia)).
    destruct (release_loop fuel dt' _) as [dt2 e2].
    destruct IH as (I1 & I2 & I3 & I4). div_simpl.
    split; [exact I1|]. split; [exact I2|]. split; [lia|congruence].
Qed.

Lemma clock_tail_spec (dt : Z) (e : t) :
  wf e -> 0 <= dt ->
  fst (clock_tail dt e) = 0 /\ wf (snd (clock_tail dt e)) /\
  envelope_counter (snd (clock_tail dt e)) <= envelope_counter e /\
  state (snd (clock_tail dt e)) = state e.
Proof.
  intros Hw Hdt. unfold clock_tail, loop_fuel.
  pose proof (wf_envelope_counter e Hw) as Hec.
  destruct (EnvelopeGenerator.State_eqb (state e) _).
  - pose proof (decay_sustain_loop_spec 257 dt e Hw Hdt ltac:(lia)) as H.
    destruct (decay_sustain_loop 257 dt e) as [dt' e']. exact H.
  - pose proof (release_loop_spec 257 dt e Hw Hdt ltac:(lia)) as H.
    destruct (release_loop 257 dt e) as [dt' e']. exact H.
Qed.

Lemma clock_spec (dt : Z) (e : t) :
  wf e -> 0 <= dt ->
  fst (clock_left dt e) = 0 /\ wf (clock dt e) /\
  (state e = EnvelopeGenerator.ATTACK ->
   (state (clock dt e) = EnvelopeGenerator.ATTACK /\
    envelope_counter e <= envelope_counter (clock dt e)) \/
   state (clock dt e) = EnvelopeGenerator.DECAY_SUSTAIN) /\
  (state e <> EnvelopeGenerator.ATTACK ->
   state (clock dt e) = state e /\
   envelope_counter (clock dt e) <= envelope_counter e).
Proof.
  intros Hw Hdt. unfold clock, clock_left.
  destruct (state e) eqn:Hst; cbn [EnvelopeGenerator.State_eqb].
  - pose proof (wf_envelope_counter e Hw) as Hec.
    pose proof (step_envelope_spec (0x100 - envelope_counter e) (attack e) 0
                  dt e Hw ltac:(lia) (wf_attack e Hw) ltac:(lia) Hdt) as H.
    destruct (step_envelope _ (attack e) 0 dt e) as [[de dt'] e'].
    destruct H as (A & B & C & D & E).
    destruct E as (E1 & E2 & E3 & E4 & E5 & E6 & E7).
    destruct (Z.eqb_spec (envelope_counter e' + de) 256) as [Heq|Hne].
    + pose proof (clock_tail_spec dt'
        (set_state EnvelopeGenerator.DECAY_SUSTAIN
           (set_envelope_counter 0xff e'))
        ltac:(apply divider_wf_set_state, divider_wf_set_envelope_counter; [exact D|lia]) B)
        as (T1 & T2 & T3 & T4).
      div_simpl.
      split; [exact T1|]. split; [exact T2|].
      split; [intros _; right; exact T4|]. intros X; congruence.
    + cbn [fst snd]. div_simpl.
      split; [destruct (Z.eq_dec dt' 0); [assumption|];
              destruct (C ltac:(lia)); lia|].
      split; [apply divider_wf_set_envelope_counter; [exact D|lia]|].
      split; [intros _; left; split; [congruence|lia]|]. intros X; congruence.
  - pose proof (clock_tail_spec dt e Hw Hdt) as (T1 & T2 & T3 & T4).
    split; [exact T1|]. split; [exact T2|]. split; [discriminate|].
    intros _. rewrite Hst in T4. split; assumption.
  - pose proof (clock_tail_spec dt e Hw Hdt) as (T1 & T2 & T3 & T4).
    split; [exact T1|]. split; [exact T2|]. split; [discriminate|].
    intros _. rewrite Hst in T4. split; assumption.
Qed.

Lemma divider_reachable_wf (e : t) : reachable e -> wf e.
Proof.
  induction 1 as [e | v e H IH | v e H IH | v e H IH | dt e Hdt H IH].
  - constructor; cbn; lia.
  - pose proof (divider_range (attack e) (wf_attack e IH)).
    pose proof (divider_range (release e) (wf_release e IH)).
    destruct IH. unfold writeCONTROL_REG.
    destruct (negb (gate e) && _); [|destruct (gate e && _)];
      constructor; div_simpl; try assumption; lia.
  - destruct IH. constructor; div_simpl; try assumption;
      apply EnvelopeFacts.land_0x0f_range.
  - destruct IH. constructor; div_simpl; try assumption;
      apply EnvelopeFacts.land_0x0f_range.
  - apply clock_spec; [assumption|apply Hdt].
Qed.

(** X17.  The frequency divider model of the envelope generator keeps
    its registers in range through every history of register writes and
    of calls of [clock] whose [delta_t >= 0], added to the at most 31
    cycles kept from the call before, does not overflow an [int]: the
    envelope counter stays in [0, 0xFF] (the 256th step of the attack is
    turned into the change to DECAY_SUSTAIN), the divider counter is
    never zero and the unused cycles kept between calls are at most 31.
    Every such call of [clock] uses up all its cycles, never lowers the
    counter during the attack and never raises it in the other states;
    the cycles kept stay at most 31, so every
    [delta_t <= int_max - 31] can be taken in every state reached. *)
Theorem divider_envelope_stays_in_range (e : t) (delta_t : Z) :
  reachable e -> 0 <= delta_t -> delta_t + delta_t_remainder e <= int_max ->
  0 <= envelope_counter (clock delta_t e) <= 0xff /\
  1 <= frequency_divider_counter (clock delta_t e) <= 31250 /\
  0 <= delta_t_remainder (clock delta_t e) <= 0x1f /\
  fst (clock_left delta_t e) = 0 /\
  (state e = EnvelopeGenerator.ATTACK ->
   (state (clock delta_t e) = EnvelopeGenerator.ATTACK /\
    envelope_counter e <= envelope_counter (clock delta_t e)) \/
   state (clock delta_t e) = EnvelopeGenerator.DECAY_SUSTAIN) /\
  (state e <> EnvelopeGenerator.ATTACK ->
   state (clock delta_t e) = state e /\
   envelope_counter (clock delta_t e) <= envelope_counter e) /\
  (forall d, 0 <= d <= int_max - 0x1f -> clockable d (clock delta_t e)).
Proof.
  intros Hr Hd Hi.
  destruct (clock_spec delta_t e (divider_reachable_wf e Hr) Hd) as (A & B & C & D).
  destruct B as [B1 B2 B3 _ _ _ _].
  split; [exact B2|]. split; [exact B1|]. split; [exact B3|].
  split; [exact A|]. split; [exact C|]. split; [exact D|].
  intros d H. split; [lia|]. unfold int_max in *. lia.
Qed.

Lemma divider_envelope_stays_in_range_witness :
  0 <= envelope_counter
         (clock 70000 (writeCONTROL_REG 0x00
            (clock 3000 (writeCONTROL_REG 0x01 power_on)))) <= 0xff.
Proof.
  assert (R : reachable (writeCONTROL_REG 0x00
                (clock 3000 (writeCONTROL_REG 0x01 power_on)))).
  { apply reach_CONTROL_REG.
    apply reach_clock; [split; [lia|vm_compute; discriminate]|].
    apply reach_CONTROL_REG. apply reach_reset. }
  exact (proj1 (divider_envelope_stays_in_range _ 70000 R ltac:(lia)
                  ltac:(vm_compute; discriminate))).
Defined.

(** X18.  In the frequency divider model the divider number is the
    period of the attack: from the gate being set (divider counter
    loaded, no cycles left over), [delta_t] cycles raise the envelope
    counter by [delta_t / divider], and after
    [divider * (0x100 - envelope_counter)] cycles the generator is in
    DECAY_SUSTAIN at 0xFF. *)
Theorem divider_number_governs_attack (e : t) (delta_t : Z) :
  wf e -> state e = EnvelopeGenerator.ATTACK ->
  frequency_divider_counter e = tbl frequency_divider_number (attack e) ->
  delta_t_remainder e = 0 -> 0 <= delta_t ->
  envelope_counter e + delta_t / tbl frequency_divider_number (attack e)
    <= 0xff ->
  clock delta_t e =
  mk (tbl frequency_divider_number (attack e)
      - delta_t mod tbl frequency_divider_number (attack e))
     (envelope_counter e + delta_t / tbl frequency_divider_number (attack e))
     0 (attack e) (decay e) (sustain e) (release e) (gate e)
     EnvelopeGenerator.ATTACK /\
  clock (tbl frequency_divider_number (attack e) * (0x100 - envelope_counter e))
    e =
  mk (tbl frequency_divider_number (attack e)) 0xff 0 (attack e) (decay e)
     (sustain e) (release e) (gate e) EnvelopeGenerator.DECAY_SUSTAIN.
Proof.
  intros Hw Hst Hf Hr Hdt Hn.
  pose proof (divider_range (attack e) (wf_attack e Hw)) as HD.
  pose proof (wf_envelope_counter e Hw) as Hec.
  set (D := tbl frequency_divider_number (attack e)) in *.
  assert (U : forall dt,
            clock dt e =
            snd (let '(delta_envelope, delta_t1, e1) :=
                   step_envelope (0x100 - envelope_counter e) (attack e) 0 dt e
                 in
                 if envelope_counter e1 + delta_envelope =? 0x100 then
                   clock_tail delta_t1
                     (set_state EnvelopeGenerator.DECAY_SUSTAIN
                        (set_envelope_counter 0xff e1))
                 else
                   (delta_t1,
                    set_envelope_counter (envelope_counter e1 + delta_envelope)
                      e1))).
  { intros dt. unfold clock, clock_left. rewrite Hst. reflexivity. }
  assert (St : forall dt,
            step_envelope (0x100 - envelope_counter e) (attack e) 0 dt e =
            if dt <? D then
              (0, 0, set_frequency_divider_counter (D - dt)
                       (set_delta_t_remainder 0 e))
            else
              let m := if D * (0x100 - envelope_counter e - 1) <? dt - D
                       then D * (0x100 - envelope_counter e - 1) else dt - D in
              (1 + m / D, dt - D - m,
               set_frequency_divider_counter (D - m mod D)
                 (set_delta_t_remainder 0 e))).
  { intros dt. unfold step_envelope. cbv zeta. div_simpl. fold D.
    rewrite Hr, Hf, Z.add_0_r, Z.shiftr_0_r.
    change (Z.shiftr 31 (5 - 0)) with 0. rewrite Z.land_0_r.
    destruct (dt <? D); [reflexivity|].
    destruct (Z.eqb_spec (256 - envelope_counter e) 0); [lia|]. cbn [negb].
    rewrite Z.shiftl_0_r. reflexivity. }
  split.
  - rewrite U, St.
    destruct (Z.ltb_spec delta_t D) as [L|G].
    + div_simpl. destruct (Z.eqb_spec (envelope_counter e + 0) 256); [lia|].
      cbn [snd]. unfold set_envelope_counter, set_frequency_divider_counter,
        set_delta_t_remainder. div_simpl.
      rewrite Z.div_small, Z.mod_small, Hst by lia. reflexivity.
    + cbv zeta.
      assert (Q : delta_t / D < 256 - envelope_counter e) by lia.
      assert (B : delta_t < D * (256 - envelope_counter e)).
      { pose proof (Z.div_mod delta_t D ltac:(lia)).
        pose proof (Z.mod_pos_bound delta_t D ltac:(lia)). nia. }
      destruct (Z.ltb_spec (D * (256 - envelope_counter e - 1)) (delta_t - D));
        [lia|].
      assert (E1 : (delta_t - D) / D = delta_t / D - 1).
      { replace delta_t with (delta_t - D + 1 * D) at 2 by lia.
        rewrite Z.div_add by lia. lia. }
      assert (E2 : (delta_t - D) mod D = delta_t mod D).
      { replace delta_t with (delta_t - D + 1 * D) at 2 by lia.
        rewrite Z.mod_add by lia. reflexivity. }
      rewrite E1, E2. div_simpl.
      destruct (Z.eqb_spec (envelope_counter e + (1 + (delta_t / D - 1))) 256);
        [lia|].
      cbn [snd]. unfold set_envelope_counter, set_frequency_divider_counter,
        set_delta_t_remainder. div_simpl. rewrite Hst.
      f_equal. lia.
  - rewrite U, St.
    destruct (Z.ltb_spec (D * (256 - envelope_counter e)) D) as [L|G]; [nia|].
    cbv zeta.
    destruct (Z.ltb_spec (D * (256 - envelope_counter e - 1))
                (D * (256 - envelope_counter e) - D)); [lia|].
    replace (D * (256 - envelope_counter e) - D)
      with ((255 - envelope_counter e) * D) by lia.
    rewrite Z.div_mul, Z.mod_mul by lia. div_simpl.
    destruct (Z.eqb_spec (envelope_counter e + (1 + (255 - envelope_counter e)))
                256); [|lia].
    rewrite Z.sub_diag, Z.sub_0_r.
    unfold clock_tail. div_simpl. cbn [EnvelopeGenerator.State_eqb].
    unfold loop_fuel. cbn [decay_sustain_loop Z.eqb snd].
    unfold set_state, set_envelope_counter, set_frequency_divider_counter,
      set_delta_t_remainder. div_simpl. reflexivity.
Qed.

Lemma divider_number_governs_attack_witness :
  envelope_counter
    (clock 1000 (writeCONTROL_REG 0x01 (writeATTACK_DECAY 0x10 power_on)))
  = 0 + 1000 / 31.
Proof.
  assert (W : wf (writeCONTROL_REG 0x01 (writeATTACK_DECAY 0x10 power_on)))
    by (constructor; vm_compute; split; discriminate).
  pose proof (divider_number_governs_attack
                (writeCONTROL_REG 0x01 (writeATTACK_DECAY 0x10 power_on)) 1000
                W eq_refl eq_refl eq_refl ltac:(lia)
                ltac:(vm_compute; discriminate)) as [H _].
  rewrite H. reflexivity.
Defined.

End DividerEnvelopeFacts.

(* ------------------------------------------------------------------ *)
(** ** The external filter: range and convergence *)

Module ExternalFilterMoreFacts.
Import ExternalFilter ExternalFilterOps ExternalFilterBounds ExternalFilterFacts.

(** A step of [m / 2^s <= 1] of the way from [x] towards [y] stays
    between the two. *)
Lemma approach (m s x y : Z) :
  0 <= s -> 0 <= m <= 2 ^ s ->
  between x (x + Z.shiftr (m * (y - x)) s) y.
Proof.
  intros Hs Hm. rewrite Z.shiftr_div_pow2 by exact Hs.
  assert (Hp : 0 < 2 ^ s) by (apply Z.pow_pos_nonneg; lia).
  unfold between.
  destruct (Z.le_gt_cases x y) as [L|G].
  - assert (0 <= m * (y - x) / 2 ^ s) by (apply Z.div_pos; nia).
    assert (m * (y - x) / 2 ^ s <= y - x)
      by (apply Z.div_le_upper_bound; nia).
    lia.
  - assert (m * (y - x) / 2 ^ s <= 0).
    { assert (m * (y - x) / 2 ^ s < 1)
        by (apply Z.div_lt_upper_bound; nia). lia. }
    assert (y - x <= m * (y - x) / 2 ^ s)
      by (apply Z.div_le_lower_bound; nia).
    lia.
Qed.

Lemma shiftl_11_short (vi : Z) :
  is_short vi -> in_27_bits (Z.shiftl vi 11).
Proof.
  unfold is_short, in_27_bits. intros H.
  rewrite Z.shiftl_mul_pow2 by lia.
  change (2 ^ 26) with 67108864. change (2 ^ 11) with 2048. lia.
Qed.

Lemma between_in_27_bits (a x b : Z) :
  in_27_bits a -> in_27_bits b -> between a x b -> in_27_bits x.
Proof. unfold in_27_bits, between. lia. Qed.

Lemma t1_usable : usable t1.
Proof. unfold usable. cbn. lia. Qed.

Lemma tmax_usable : usable tmax.
Proof. unfold usable. cbn. lia. Qed.

Lemma step_between (c : Coefficients) (vi : Z) (f : t) :
  usable c ->
  between (vlp f) (vlp (step c vi f)) (Z.shiftl vi 11) /\
  between (vhp f) (vhp (step c vi f)) (vlp f).
Proof.
  intros (A & B & C & D). unfold step. cbn [vlp vhp].
  split; apply approach; assumption.
Qed.

Lemma step_in_27_bits (c : Coefficients) (vi : Z) (f : t) :
  usable c -> is_short vi -> state_in_27_bits f ->
  state_in_27_bits (step c vi f).
Proof.
  intros Hc Hv [Hl Hh]. destruct (step_between c vi f Hc) as [B1 B2].
  split.
  - eapply between_in_27_bits; [exact Hl|apply shiftl_11_short, Hv|exact B1].
  - eapply between_in_27_bits; [exact Hh|exact Hl|exact B2].
Qed.

Lemma clock1_in_27_bits (vi : Z) (f : t) :
  is_short vi -> state_in_27_bits f -> state_in_27_bits (clock1 vi f).
Proof.
  intros Hv Hf. unfold clock1. destruct (negb (enabled f)).
  - split; cbn [vlp vhp]; [apply shiftl_11_short, Hv|].
    unfold in_27_bits. change (2 ^ 26) with 67108864.
    change (2 ^ 11) with 2048. lia.
  - apply step_in_27_bits; [apply t1_usable|assumption..].
Qed.

Lemma repeat_in_27_bits (g : t -> t) (n : nat) :
  (forall f, state_in_27_bits f -> state_in_27_bits (g f)) ->
  forall f, state_in_27_bits f -> state_in_27_bits (repeat_fn g n f).
Proof.
  intros Hg. induction n as [|n IH]; intros f Hf; cbn [repeat_fn];
    [exact Hf|]. apply IH, Hg, Hf.
Qed.

Lemma clock_in_27_bits (delta_t vi : Z) (f : t) :
  is_short vi -> 0 <= delta_t -> state_in_27_bits f ->
  state_in_27_bits (clock delta_t vi f).
Proof.
  intros Hv Hd Hf. destruct (enabled f) eqn:He.
  - rewrite clock_eq by assumption.
    apply repeat_in_27_bits; [intros; apply clock1_in_27_bits; assumption|].
    apply repeat_in_27_bits; [|exact Hf].
    intros; apply step_in_27_bits; [apply tmax_usable|assumption..].
  - unfold clock. rewrite He. cbn [negb].
    split; cbn [vlp vhp]; [apply shiftl_11_short, Hv|].
    unfold in_27_bits. change (2 ^ 26) with 67108864.
    change (2 ^ 11) with 2048. lia.
Qed.

Lemma products_fit (c : Coefficients) (vi : Z) (f : t) :
  0 <= mullp c <= 15 -> 0 <= mulhp c <= 15 ->
  is_short vi -> state_in_27_bits f ->
  fits_int (mulhp c * (vlp f - vhp f)) /\
  fits_int (mullp c * (Z.shiftl vi 11 - vlp f)).
Proof.
  intros Hl Hh Hv [[L1 L2] [H1 H2]].
  destruct (shiftl_11_short vi Hv) as [V1 V2].
  unfold fits_int. change (2 ^ 26) with 67108864 in *.
  change (2 ^ 11) with 2048 in *. change (2 ^ 31) with 2147483648.
  split; nia.
Qed.

(** X19.  With 16-bit inputs the two filter states stay within 27 bits
    (between [-32768 << 11] and [32767 << 11]) through every call of
    either [clock], so that none of the products formed in [clock]
    overflows a 32-bit [int]; the difference shifted down by 11 then
    lies within 17 bits. *)
Theorem filter_states_stay_in_27_bits (delta_t vi : Z) (f : t) :
  state_in_27_bits f -> is_short vi -> 0 <= delta_t ->
  state_in_27_bits (clock1 vi f) /\
  state_in_27_bits (clock delta_t vi f) /\
  fits_int (mulhp t1 * (vlp f - vhp f)) /\
  fits_int (mullp t1 * (Z.shiftl vi 11 - vlp f)) /\
  fits_int (mulhp tmax * (vlp f - vhp f)) /\
  fits_int (mullp tmax * (Z.shiftl vi 11 - vlp f)) /\
  - 2 ^ 16 < Z.shiftr (vlp (clock delta_t vi f) - vhp (clock delta_t vi f)) 11
    < 2 ^ 16.
Proof.
  intros Hf Hv Hd.
  pose proof (clock_in_27_bits delta_t vi f Hv Hd Hf) as Hc.
  split; [apply clock1_in_27_bits; assumption|]. split; [exact Hc|].
  destruct (products_fit t1 vi f ltac:(cbn; lia) ltac:(cbn; lia) Hv Hf)
    as [P1 P2].
  destruct (products_fit tmax vi f ltac:(cbn; lia) ltac:(cbn; lia) Hv Hf)
    as [P3 P4].
  repeat (split; [assumption|]).
  destruct Hc as [[L1 L2] [H1 H2]].
  rewrite Z.shiftr_div_pow2 by lia.
  change (2 ^ 26) with 67108864 in *. change (2 ^ 11) with 2048 in *.
  change (2 ^ 16) with 65536.
  set (d := vlp (clock delta_t vi f) - vhp (clock delta_t vi f)) in *.
  assert (- 65535 <= d / 2048) by (apply Z.div_le_lower_bound; lia).
  assert (d / 2048 < 65536) by (apply Z.div_lt_upper_bound; lia).
  lia.
Qed.

Lemma filter_states_stay_in_27_bits_witness :
  state_in_27_bits (clock 1000 32767 (clock 777 (-32768) (mk true 0 0))).
Proof.
  assert (S0 : state_in_27_bits (mk true 0 0)).
  { split; cbn; unfold in_27_bits; cbn; lia. }
  assert (S1 : state_in_27_bits (clock 777 (-32768) (mk true 0 0))).
  { apply (filter_states_stay_in_27_bits 777 (-32768) (mk true 0 0) S0);
      unfold is_short; lia. }
  apply (filter_states_stay_in_27_bits 1000 32767 _ S1);
    unfold is_short; lia.
Defined.

Lemma between_trans (x y z target : Z) :
  between x y target -> between y z target -> between x z target.
Proof. unfold between. lia. Qed.

Lemma between_refl (x target : Z) : between x x target.
Proof. unfold between. lia. Qed.

Lemma repeat_between (g : t -> t) (target : Z) (n : nat) :
  (forall f, between (vlp f) (vlp (g f)) target) ->
  forall f, between (vlp f) (vlp (repeat_fn g n f)) target.
Proof.
  intros Hg. induction n as [|n IH]; intros f; cbn [repeat_fn];
    [apply between_refl|].
  eapply between_trans; [apply Hg|apply IH].
Qed.

Lemma clock1_between (vi : Z) (f : t) :
  between (vlp f) (vlp (clock1 vi f)) (Z.shiftl vi 11).
Proof.
  unfold clock1. destruct (negb (enabled f)).
  - cbn [vlp]. unfold between. lia.
  - apply (step_between t1 vi f t1_usable).
Qed.

Lemma step_settled (c : Coefficients) (vi : Z) (f : t) :
  vlp f = Z.shiftl vi 11 -> vhp f = Z.shiftl vi 11 -> step c vi f = f.
Proof.
  intros Hl Hh. unfold step. rewrite Hl, Hh, !Z.sub_diag, !Z.mul_0_r.
  rewrite !Z.shiftr_0_l, !Z.add_0_r, <- Hl at 1. rewrite <- Hh.
  destruct f; reflexivity.
Qed.

Lemma repeat_fixed (g : t -> t) (f : t) (n : nat) :
  g f = f -> repeat_fn g n f = f.
Proof.
  intros Hg. induction n as [|n IH]; cbn [repeat_fn]; [reflexivity|].
  rewrite Hg. exact IH.
Qed.

(** X20.  The low-pass state never overshoots: after any call of
    [clock] it lies between its old value and the input shifted up by
    11, for any input and in both modes; and an enabled filter whose two
    states have both reached the input is left unchanged by every
    further call with that input, its output being 0. *)
Theorem low_pass_never_overshoots (delta_t vi : Z) (f : t) :
  0 <= delta_t ->
  between (vlp f) (vlp (clock1 vi f)) (Z.shiftl vi 11) /\
  between (vlp f) (vlp (clock delta_t vi f)) (Z.shiftl vi 11) /\
  (enabled f = true -> vlp f = Z.shiftl vi 11 -> vhp f = Z.shiftl vi 11 ->
   clock delta_t vi f = f /\ output f = 0).
Proof.
  intros Hd. split; [apply clock1_between|]. split.
  - destruct (enabled f) eqn:He.
    + rewrite clock_eq by assumption.
      eapply between_trans.
      * apply (repeat_between (step tmax vi)).
        intros g. apply (step_between tmax vi g tmax_usable).
      * apply repeat_between. intros g. apply clock1_between.
    + unfold clock. rewrite He. cbn [negb vlp]. unfold between. lia.
  - intros He Hl Hh. split.
    + rewrite clock_eq by assumption.
      rewrite (repeat_fixed (step tmax vi) f)
        by (apply step_settled; assumption).
      apply repeat_fixed. unfold clock1. rewrite He. cbn [negb].
      apply step_settled; assumption.
    + unfold output. rewrite Hl, Hh, Z.sub_diag. reflexivity.
Qed.

Lemma low_pass_never_overshoots_witness :
  between 0 (vlp (clock 123 1000 (mk true 0 0))) (Z.shiftl 1000 11).
Proof.
  apply (low_pass_never_overshoots 123 1000 (mk true 0 0)). lia.
Defined.

End ExternalFilterMoreFacts.

(* ------------------------------------------------------------------ *)
(** ** The DAC *)

Module DACFacts.
Import DAC.

Section Bits.
Variable bits : nat.
Variable dac_bits : list Z.

Lemma land_1_testbit (x : Z) : negb (Z.land x 0x1 =? 0) = Z.testbit x 0.
Proof.
  change 0x1 with (2 ^ 0).
  rewrite (WaveformFacts.land_pow2_eqb x 0) by lia. apply negb_involutive.
Qed.

Lemma u16_add_l (a b : Z) : u16 (u16 a + b) = u16 (a + b).
Proof. unfold u16. apply Z.add_mod_idemp_l. lia. Qed.

Lemma bitsum_loop_eq (n : nat) :
  forall bit val acc,
    u16 (bitsum_loop dac_bits n bit val acc)
    = u16 (acc + bit_weights dac_bits n bit val).
Proof.
  induction n as [|n IH]; intros bit val acc; cbn [bitsum_loop bit_weights].
  - rewrite Z.add_0_r. reflexivity.
  - rewrite IH, land_1_testbit, u16_add_l. f_equal. lia.
Qed.

Lemma bitsum_loop_u16 (n : nat) :
  forall bit val acc,
    0 <= acc < 2 ^ 16 ->
    u16 (bitsum_loop dac_bits n bit val acc) = bitsum_loop dac_bits n bit val acc.
Proof.
  induction n as [|n IH]; intros bit val acc H; cbn [bitsum_loop].
  - apply Z.mod_small, H.
  - apply IH. apply Z.mod_pos_bound. lia.
Qed.

Lemma bit_weights_low (n : nat) :
  forall bit val,
    bit_weights dac_bits n bit (val mod 2 ^ Z.of_nat n)
    = bit_weights dac_bits n bit val.
Proof.
  induction n as [|n IH]; intros bit val; cbn [bit_weights]; [reflexivity|].
  rewrite Z.mod_pow2_bits_low by lia.
  assert (E : Z.shiftr (val mod 2 ^ Z.of_nat (S n)) 1
              = (Z.shiftr val 1) mod 2 ^ Z.of_nat n).
  { rewrite !Z.shiftr_div_pow2 by lia. change (2 ^ 1) with 2.
    replace (Z.of_nat (S n)) with (1 + Z.of_nat n) by lia.
    rewrite Z.pow_add_r by lia. change (2 ^ 1) with 2.
    assert (0 < 2 ^ Z.of_nat n) by (apply Z.pow_pos_nonneg; lia).
    rewrite Z.rem_mul_r by lia.
    rewrite (Z.mul_comm 2), Z.div_add by lia.
    rewrite (Z.div_small (val mod 2) 2)
      by (apply Z.mod_pos_bound; lia).
    reflexivity. }
  rewrite E, IH. reflexivity.
Qed.

Lemma bit_weights_disjoint (n : nat) :
  forall bit a b,
    Z.land a b = 0 ->
    bit_weights dac_bits n bit (Z.lor a b)
    = bit_weights dac_bits n bit a + bit_weights dac_bits n bit b.
Proof.
  induction n as [|n IH]; intros bit a b H; cbn [bit_weights]; [reflexivity|].
  rewrite Z.shiftr_lor, IH by (rewrite <- Z.shiftr_land, H; apply Z.shiftr_0_l).
  rewrite Z.lor_spec.
  assert (N : Z.testbit a 0 && Z.testbit b 0 = false)
    by (rewrite <- Z.land_spec, H; apply Z.bits_0).
  destruct (Z.testbit a 0), (Z.testbit b 0); cbn [orb];
    try discriminate N; lia.
Qed.

Lemma call_eq (val : Z) :
  call bits dac_bits val
  = u16 (Z.shiftr (u16 (bit_weights dac_bits bits 0 val) + 8) 4).
Proof.
  unfold call. rewrite <- (bitsum_loop_u16 bits 0 val 0) by (cbn; lia).
  rewrite bitsum_loop_eq. reflexivity.
Qed.

(** X21.  [DAC::operator()] superposes the bit values: it reads the low
    [bits] bits of its argument only, gives 0 for 0, and the sums formed
    for two arguments with no bit in common add up, modulo 2^16, to the
    sum formed for the two together; the result is at most 4096. *)
Theorem dac_value_is_a_superposition (a b : Z) :
  Z.land a b = 0 ->
  call bits dac_bits (a mod 2 ^ Z.of_nat bits) = call bits dac_bits a /\
  call bits dac_bits 0 = 0 /\
  u16 (bitsum_loop dac_bits bits 0 (Z.lor a b) 0)
  = u16 (bitsum_loop dac_bits bits 0 a 0 + bitsum_loop dac_bits bits 0 b 0) /\
  0 <= call bits dac_bits a <= 4096.
Proof.
  intros H. split; [|split; [|split]].
  - rewrite !call_eq, bit_weights_low. reflexivity.
  - rewrite call_eq.
    assert (Z0 : forall n bit, bit_weights dac_bits n bit 0 = 0).
    { induction n as [|n IH]; intros bit; cbn [bit_weights]; [reflexivity|].
      rewrite Z.shiftr_0_l, IH. reflexivity. }
    rewrite Z0. reflexivity.
  - rewrite bitsum_loop_eq, bit_weights_disjoint by exact H.
    rewrite <- (bitsum_loop_u16 bits 0 a 0), <- (bitsum_loop_u16 bits 0 b 0)
      by (cbn; lia).
    rewrite !bitsum_loop_eq. cbn [Z.add].
    unfold u16. rewrite <- Z.add_mod by lia. reflexivity.
  - rewrite call_eq. unfold u16.
    pose proof (Z.mod_pos_bound (bit_weights dac_bits bits 0 a) (2 ^ 16)
                  ltac:(lia)) as B.
    set (s := bit_weights dac_bits bits 0 a mod 2 ^ 16) in *.
    rewrite Z.shiftr_div_pow2 by lia. change (2 ^ 4) with 16.
    change (2 ^ 16) with 65536 in *.
    assert (0 <= (s + 8) / 16) by (apply Z.div_pos; lia).
    assert ((s + 8) / 16 < 4097) by (apply Z.div_lt_upper_bound; lia).
    rewrite Z.mod_small by lia. lia.
Qed.

End Bits.

Lemma dac_value_is_a_superposition_witness :
  u16 (bitsum_loop [16; 32; 70; 141] 4 0 (Z.lor 5 10) 0)
  = u16 (bitsum_loop [16; 32; 70; 141] 4 0 5 0
         + bitsum_loop [16; 32; 70; 141] 4 0 10 0).
Proof.
  apply (dac_value_is_a_superposition 4 [16; 32; 70; 141] 5 10 eq_refl).
Defined.

End DACFacts.

(* ------------------------------------------------------------------ *)
(** ** Conversion to u-law *)

Module SunAudioFacts.
Import SunAudio.

Ltac segments :=
  unfold ulaw_segment;
  repeat match goal with
  | |- context [?a >=? ?b] => destruct (Z.geb_spec a b)
  end;
  rewrite ?Z.quot_div_nonneg by lia.

Lemma ulaw_segment_range (v : Z) : 0 <= v -> 0 <= ulaw_segment v <= 0x7f.
Proof.
  intros H. segments; Z.div_mod_to_equations; lia.
Qed.

Lemma ulaw_segment_mono (v v' : Z) :
  0 <= v <= v' -> ulaw_segment v' <= ulaw_segment v.
Proof.
  intros H. segments; Z.div_mod_to_equations; lia.
Qed.

Lemma lor_0x80 (x : Z) : 0 <= x <= 0x7f -> Z.lor x 0x80 = x + 128.
Proof.
  intros H. rewrite <- (Z.add_lor_land x 128).
  assert (E : Z.land x 128 = 0).
  { rewrite <- (Z.mod_small x (2 ^ 7)) by (change (2 ^ 7) with 128; lia).
    rewrite <- Z.land_ones, <- Z.land_assoc by lia.
    change (Z.land (Z.ones 7) 128) with 0. apply Z.land_0_r. }
  change 0x80 with 128. lia.
Qed.

(** [toulaw8] in terms of the magnitude and the sign. *)
Lemma toulaw8_eq (data : Z) :
  toulaw8 data =
  if Z.quot data 8 <? 0 then ulaw_segment (- Z.quot data 8)
  else ulaw_segment (Z.quot data 8) + 128.
Proof.
  unfold toulaw8. cbv zeta.
  destruct (Z.ltb_spec (Z.quot data 8) 0).
  - apply Z.lor_0_r.
  - apply lor_0x80, ulaw_segment_range. assumption.
Qed.

Lemma quot_8_neg (data : Z) : data <= -8 -> Z.quot data 8 < 0.
Proof.
  intros H. pose proof (Z.quot_opp_l (- data) 8 ltac:(lia)) as Q.
  rewrite Z.opp_involutive in Q. rewrite Q.
  rewrite Z.quot_div_nonneg by lia.
  assert (1 <= - data / 8) by (apply Z.div_le_lower_bound; lia). lia.
Qed.

Lemma quot_8_nonneg (data : Z) : -8 < data -> 0 <= Z.quot data 8.
Proof.
  intros H. destruct (Z.le_gt_cases 0 data) as [P|N].
  - apply Z.quot_pos; lia.
  - pose proof (Z.quot_opp_l (- data) 8 ltac:(lia)) as Q.
    rewrite Z.opp_involutive in Q. rewrite Q.
    rewrite Z.quot_div_nonneg by lia.
    rewrite Z.div_small by lia. lia.
Qed.

(** X22.  [toulaw8] returns a byte whose top bit is the sign (set for
    samples above -8, whose eighth part is not negative) and whose low
    seven bits depend only on the magnitude of [data / 8]: a sample and
    its negative differ in the top bit only, once the magnitude is at
    least 8. *)
Theorem toulaw8_is_sign_and_magnitude (data : Z) :
  -32768 <= data <= 32767 ->
  0 <= toulaw8 data <= 0xff /\
  (0x80 <= toulaw8 data <-> -8 < data) /\
  (8 <= data -> toulaw8 data = toulaw8 (- data) + 0x80).
Proof.
  intros H. rewrite !toulaw8_eq.
  assert (Q : Z.quot (- data) 8 = - Z.quot data 8)
    by (apply Z.quot_opp_l; lia).
  split; [|split].
  - destruct (Z.ltb_spec (Z.quot data 8) 0) as [N|P].
    + pose proof (ulaw_segment_range (- Z.quot data 8) ltac:(lia)). lia.
    + pose proof (ulaw_segment_range (Z.quot data 8) P). lia.
  - destruct (Z.ltb_spec (Z.quot data 8) 0) as [N|P].
    + pose proof (ulaw_segment_range (- Z.quot data 8) ltac:(lia)).
      split; [lia|]. intros G. pose proof (quot_8_nonneg data G). lia.
    + pose proof (ulaw_segment_range (Z.quot data 8) P).
      split; [|lia]. intros _.
      destruct (Z.le_gt_cases data (-8)) as [L|G]; [|exact G].
      pose proof (quot_8_neg data L). lia.
  - intros G. rewrite Q.
    assert (1 <= Z.quot data 8).
    { rewrite Z.quot_div_nonneg by lia. apply Z.div_le_lower_bound; lia. }
    destruct (Z.ltb_spec (Z.quot data 8) 0); [lia|].
    destruct (Z.ltb_spec (- Z.quot data 8) 0); [|lia].
    rewrite Z.opp_involutive. reflexivity.
Qed.

Lemma toulaw8_is_sign_and_magnitude_witness :
  toulaw8 1000 = toulaw8 (- 1000) + 0x80.
Proof.
  apply (toulaw8_is_sign_and_magnitude 1000 ltac:(lia)). lia.
Defined.

(** X23.  [toulaw8] is monotone on each side of zero: of two samples
    with the same sign the one with the larger magnitude never gets the
    larger code; the quietest samples get the code 0xFF and the loudest
    (from 32640 up) the codes 0x80 and 0. *)
Theorem toulaw8_is_monotone (data data' : Z) :
  0 <= data <= data' ->
  toulaw8 data' <= toulaw8 data /\
  (8 <= data -> toulaw8 (- data') <= toulaw8 (- data)) /\
  (data < 8 -> toulaw8 data = 0xff) /\
  (32640 <= data' -> toulaw8 data' = 0x80 /\ toulaw8 (- data') = 0).
Proof.
  intros H. rewrite !toulaw8_eq.
  assert (Q : Z.quot (- data) 8 = - Z.quot data 8)
    by (apply Z.quot_opp_l; lia).
  assert (Q' : Z.quot (- data') 8 = - Z.quot data' 8)
    by (apply Z.quot_opp_l; lia).
  rewrite Q, Q', !Z.quot_div_nonneg by lia.
  assert (D0 : 0 <= data / 8) by (apply Z.div_pos; lia).
  assert (D : data / 8 <= data' / 8) by (apply Z.div_le_mono; lia).
  pose proof (ulaw_segment_mono (data / 8) (data' / 8) ltac:(lia)) as M.
  destruct (Z.ltb_spec (data / 8) 0); [lia|].
  destruct (Z.ltb_spec (data' / 8) 0); [lia|].
  split; [lia|]. split; [|split].
  - intros G.
    assert (1 <= data / 8) by (apply Z.div_le_lower_bound; lia).
    destruct (Z.ltb_spec (- (data / 8)) 0); [|lia].
    destruct (Z.ltb_spec (- (data' / 8)) 0); [|lia].
    rewrite !Z.opp_involutive. exact M.
  - intros G. rewrite Z.div_small by lia. reflexivity.
  - intros G.
    assert (L : 4080 <= data' / 8) by (apply Z.div_le_lower_bound; lia).
    destruct (Z.ltb_spec (- (data' / 8)) 0); [|lia].
    rewrite Z.opp_involutive.
    assert (E : ulaw_segment (data' / 8) = 0).
    { unfold ulaw_segment. destruct (Z.geb_spec (data' / 8) 4080); [reflexivity|lia]. }
    rewrite E. split; reflexivity.
Qed.

Lemma toulaw8_is_monotone_witness :
  toulaw8 20000 <= toulaw8 300.
Proof.
  exact (proj1 (toulaw8_is_monotone 300 20000 ltac:(lia))).
Defined.

Lemma write_byte_length (buf : list Z) :
  forall i v, length (write_byte buf i v) = length buf.
Proof.
  induction buf as [|b rest IH]; intros i v; [reflexivity|].
  destruct i; cbn [write_byte length]; [reflexivity|]. rewrite IH. reflexivity.
Qed.

Lemma write_byte_same (buf : list Z) :
  forall i v, (i < length buf)%nat -> nth i (write_byte buf i v) 0 = v.
Proof.
  induction buf as [|b rest IH]; intros i v H; cbn [length] in H; [lia|].
  destruct i; cbn [write_byte nth]; [reflexivity|]. apply IH. lia.
Qed.

Lemma write_byte_other (buf : list Z) :
  forall i j v, i <> j -> nth j (write_byte buf i v) 0 = nth j buf 0.
Proof.
  induction buf as [|b rest IH]; intros i j v H; [reflexivity|].
  destruct i, j; cbn [write_byte nth]; try reflexivity; try lia.
  apply IH. lia.
Qed.

Lemma convert_loop_spec (decode : Z -> Z -> Z) (orig : list Z) (n : nat) :
  forall i buf,
    (2 * (i + n) <= length orig)%nat -> length buf = length orig ->
    (forall j, (j < i)%nat ->
       nth j buf 0 = toulaw8 (read_sample decode orig j)) ->
    (forall j, (i <= j)%nat -> nth j buf 0 = nth j orig 0) ->
    let out := convert_loop decode n i buf in
    length out = length orig /\
    (forall j, (j < i + n)%nat ->
       nth j out 0 = toulaw8 (read_sample decode orig j)) /\
    (forall j, (i + n <= j)%nat -> nth j out 0 = nth j orig 0).
Proof.
  induction n as [|n IH]; intros i buf Hlen Hb Hdone Hrest; cbn [convert_loop].
  - cbv zeta. rewrite Nat.add_0_r. repeat split; assumption.
  - assert (R : read_sample decode buf i = read_sample decode orig i).
    { unfold read_sample. rewrite !Hrest by lia. reflexivity. }
    rewrite R.
    replace (i + S n)%nat with (S i + n)%nat by lia.
    apply IH.
    + lia.
    + rewrite write_byte_length. exact Hb.
    + intros j Hj. destruct (Nat.eq_dec j i) as [->|Hne].
      * apply write_byte_same. lia.
      * rewrite write_byte_other by lia. apply Hdone. lia.
    + intros j Hj. rewrite write_byte_other by lia. apply Hrest. lia.
Qed.

(** X24.  The conversion to u-law in place is sound although it writes
    into the buffer it is reading: byte [i] of the result is the code
    of sample [i] of the buffer as it was before the loop, for every
    byte order, and the bytes from [nr] on are untouched. *)
Theorem conversion_in_place_reads_before_it_writes
  (decode : Z -> Z -> Z) (nr : nat) (buf : list Z) :
  (2 * nr <= length buf)%nat ->
  length (convert_in_place decode nr buf) = length buf /\
  (forall i, (i < nr)%nat ->
     nth i (convert_in_place decode nr buf) 0
     = toulaw8 (read_sample decode buf i)) /\
  (forall j, (nr <= j)%nat ->
     nth j (convert_in_place decode nr buf) 0 = nth j buf 0).
Proof.
  intros H. unfold convert_in_place.
  apply (convert_loop_spec decode buf nr 0 buf); try reflexivity; try lia.
Qed.

Lemma conversion_in_place_reads_before_it_writes_witness :
  nth 2 (convert_in_place (fun lo hi => to_short (lo + 256 * hi)) 3
           [0xe8; 0x03; 0x18; 0xfc; 0x00; 0x80]) 0
  = toulaw8 (read_sample (fun lo hi => to_short (lo + 256 * hi))
               [0xe8; 0x03; 0x18; 0xfc; 0x00; 0x80] 2).
Proof.
  apply (conversion_in_place_reads_before_it_writes
           (fun lo hi => to_short (lo + 256 * hi)) 3
           [0xe8; 0x03; 0x18; 0xfc; 0x00; 0x80]); cbn; lia.
Defined.

End SunAudioFacts.

(* ------------------------------------------------------------------ *)
(** ** The ring buffer of the SDL device *)

Module SDLRingFacts.
Import SDLRing.

(** X25.  A turn of [sdl_write] that copies anything copies between 1
    and [nr - total] samples, within the buffer, and never into samples
    that are still to be played: the number of samples waiting grows by
    the number copied and stays below the length of the buffer, so the
    writer never catches up with the reader. *)
Theorem sdl_write_never_overtakes (total nr amount : Z) (r r' : t) :
  in_buffer r -> total < nr ->
  sdl_write_turn total nr r = Some (amount, r') ->
  1 <= amount <= nr - total /\
  sdl_inptr r + amount <= sdl_len r /\
  in_buffer r' /\
  sdl_bufferstatus r' = sdl_bufferstatus r + amount /\
  sdl_bufferstatus r' < sdl_len r /\
  sdl_outptr r' = sdl_outptr r /\ sdl_len r' = sdl_len r.
Proof.
  intros [[I1 I2] [O1 O2]] Ht H. unfold sdl_write_turn in H. cbv zeta in H.
  unfold sdl_bufferstatus, in_buffer.
  destruct (Z.leb_spec (sdl_outptr r - sdl_inptr r) 0) as [L|G].
  - (* the reader is not ahead: room up to the end of the buffer *)
    replace (sdl_inptr r + (sdl_len r - sdl_inptr r)) with (sdl_len r) in H
      by lia.
    rewrite Z.rem_same in H by lia.
    destruct (Z.eqb_spec 0 (sdl_outptr r)) as [Z0|NZ].
    + destruct (Z.leb_spec (sdl_len r - sdl_inptr r - 1) 0); [discriminate|].
      destruct (Z.gtb_spec (total + (sdl_len r - sdl_inptr r - 1)) nr);
        injection H as <- <-; cbn [sdl_inptr sdl_outptr sdl_len];
        match goal with
        | |- context [?a =? ?b] => destruct (Z.eqb_spec a b)
        end;
        repeat match goal with
        | |- context [?a <? ?b] => destruct (Z.ltb_spec a b)
        end; lia.
    + destruct (Z.leb_spec (sdl_len r - sdl_inptr r) 0); [discriminate|].
      destruct (Z.gtb_spec (total + (sdl_len r - sdl_inptr r)) nr);
        injection H as <- <-; cbn [sdl_inptr sdl_outptr sdl_len];
        match goal with
        | |- context [?a =? ?b] => destruct (Z.eqb_spec a b)
        end;
        repeat match goal with
        | |- context [?a <? ?b] => destruct (Z.ltb_spec a b)
        end; lia.
  - (* the reader is ahead: room up to the sample before it *)
    replace (sdl_inptr r + (sdl_outptr r - sdl_inptr r)) with (sdl_outptr r)
      in H by lia.
    rewrite Z.rem_small in H by lia. rewrite Z.eqb_refl in H.
    destruct (Z.leb_spec (sdl_outptr r - sdl_inptr r - 1) 0); [discriminate|].
    destruct (Z.gtb_spec (total + (sdl_outptr r - sdl_inptr r - 1)) nr);
      injection H as <- <-; cbn [sdl_inptr sdl_outptr sdl_len];
      match goal with
      | |- context [?a =? ?b] => destruct (Z.eqb_spec a b)
      end;
      repeat match goal with
      | |- context [?a <? ?b] => destruct (Z.ltb_spec a b)
      end; lia.
Qed.

Lemma sdl_write_never_overtakes_witness :
  sdl_bufferstatus (mk 0 5 8) = sdl_bufferstatus (mk 7 5 8) + 1.
Proof.
  apply (sdl_write_never_overtakes 0 100 1 (mk 7 5 8) (mk 0 5 8)).
  - unfold in_buffer. cbn. lia.
  - lia.
  - reflexivity.
Defined.

(** X26.  A turn of [sdl_callback] that copies anything copies between
    1 and [want - total] samples, within the buffer, and only samples
    that have been written: the number of samples waiting falls by the
    number copied and does not go below zero. *)
Theorem sdl_callback_reads_only_written (total want amount : Z) (r r' : t) :
  in_buffer r -> total < want ->
  sdl_callback_turn total want r = Some (amount, r') ->
  1 <= amount <= want - total /\
  sdl_outptr r + amount <= sdl_len r /\
  amount <= sdl_bufferstatus r /\
  in_buffer r' /\
  sdl_bufferstatus r' = sdl_bufferstatus r - amount /\
  sdl_inptr r' = sdl_inptr r /\ sdl_len r' = sdl_len r.
Proof.
  intros [[I1 I2] [O1 O2]] Ht H. unfold sdl_callback_turn in H.
  cbv zeta in H. unfold sdl_bufferstatus, in_buffer.
  destruct (Z.ltb_spec (sdl_inptr r - sdl_outptr r) 0) as [L|G].
  - destruct (Z.gtb_spec (sdl_len r - sdl_outptr r + total) want);
      match type of H with
      | context [?a =? 0] => destruct (Z.eqb_spec a 0); [discriminate|]
      end;
      injection H as <- <-; cbn [sdl_inptr sdl_outptr sdl_len];
      match goal with
      | |- context [?a =? ?b] => destruct (Z.eqb_spec a b)
      end;
      repeat match goal with
      | |- context [?a <? ?b] => destruct (Z.ltb_spec a b)
      end; lia.
  - destruct (Z.gtb_spec (sdl_inptr r - sdl_outptr r + total) want);
      match type of H with
      | context [?a =? 0] => destruct (Z.eqb_spec a 0); [discriminate|]
      end;
      injection H as <- <-; cbn [sdl_inptr sdl_outptr sdl_len];
      match goal with
      | |- context [?a =? ?b] => destruct (Z.eqb_spec a b)
      end;
      repeat match goal with
      | |- context [?a <? ?b] => destruct (Z.ltb_spec a b)
      end; lia.
Qed.

Lemma sdl_callback_reads_only_written_witness :
  sdl_bufferstatus (mk 2 0 8) = sdl_bufferstatus (mk 2 5 8) - 3.
Proof.
  apply (sdl_callback_reads_only_written 0 100 3 (mk 2 5 8) (mk 2 0 8)).
  - unfold in_buffer. cbn. lia.
  - lia.
  - reflexivity.
Defined.

End SDLRingFacts.
